(** * MiniRAG: chunking, cosine-similarity search and the resumable
      embedding pipeline

    A shallow embedding of the Go packages [pkg/minirag], [pkg/embedder],
    [pkg/loader] and of the two commands [cmd/minirag] and
    [cmd/generate-embeddings], with the properties stated about them.

    Conventions.
    - A Go [string] is a sequence of bytes: [list byte].
    - A Go [int] is a [Z]; lengths and positions of slices are [nat].
    - A [nil] slice and an empty slice are both the empty list.
    - A run-time panic (index out of range, division by zero) is [None].
    - A [float32] is an IEEE-754 binary32 value, see [Binary32]. The code is
      written once over the interface [FloatArith], so that the same
      definitions can also be read in exact real arithmetic. *)

From Stdlib Require Import String.
From stdpp Require Import base option list gmap.
From Stdlib Require Import ZArith List Lia Permutation Sorted SpecFloat.
From Stdlib Require Import Strings.Byte Reals Lra.
Import ListNotations.
Local Open Scope Z_scope.

Abbreviation gostring := (list byte).

(** A string literal as the bytes it stands for. *)
Definition bytes (s : String.string) : gostring := String.list_byte_of_string s.
Arguments bytes s%_string.

(** Equality of strings, [a == b]. *)
Fixpoint eqString (a b : gostring) : bool :=
  match a, b with
  | [], [] => true
  | x :: a', y :: b' => Byte.eqb x y && eqString a' b'
  | _, _ => false
  end.

(* ===================================================================== *)
(** * Arithmetic of vector components *)
(* ===================================================================== *)

(** The operations the Go code performs on [float32] values. *)
Class FloatArith (F : Type) := {
  fzero : F;                    (* the constant 0 *)
  fone : F;                     (* the constant 1 *)
  fadd : F -> F -> F;           (* x + y *)
  fmul : F -> F -> F;           (* x * y *)
  fdiv : F -> F -> F;           (* x / y *)
  fsqrt : F -> F;               (* float32(math.Sqrt(float64(x))) *)
  frsqrt : F -> F;              (* float32(1.0 / math.Sqrt(float64(x))) *)
  feqb : F -> F -> bool;        (* x == y *)
  fltb : F -> F -> bool;        (* x < y *)
  fleb : F -> F -> bool;        (* x <= y *)
  fofZ : Z -> F                 (* float32(n) for an integer n *)
}.

(** ** IEEE-754 binary32 and binary64

    Values are [spec_float]; every operation rounds to nearest, ties to
    even, and each operation is rounded on its own (no fused multiply-add,
    as the Go compiler does on amd64). *)
Module Binary32.

Definition float32 := spec_float.
Definition float64 := spec_float.

Definition prec32 : Z := 24.
Definition emax32 : Z := 128.
Definition prec64 : Z := 53.
Definition emax64 : Z := 1024.

(** float32(x) for a float64 [x], and float64(x) for a float32 [x]. *)
Definition to32 (x : float64) : float32 :=
  match x with
  | S754_finite s m e => binary_round prec32 emax32 s m e
  | _ => x
  end.

Definition to64 (x : float32) : float64 :=
  match x with
  | S754_finite s m e => binary_round prec64 emax64 s m e
  | _ => x
  end.

Definition ofZ (n : Z) : float32 := binary_normalize prec32 emax32 n 0 false.
Definition one64 : float64 := binary_normalize prec64 emax64 1 0 false.

Definition zero : float32 := S754_zero false.
Definition add : float32 -> float32 -> float32 := SFadd prec32 emax32.
Definition mul : float32 -> float32 -> float32 := SFmul prec32 emax32.
Definition div : float32 -> float32 -> float32 := SFdiv prec32 emax32.

(** math.Sqrt works on float64. *)
Definition sqrt64 : float64 -> float64 := SFsqrt prec64 emax64.
Definition sqrt (x : float32) : float32 := to32 (sqrt64 (to64 x)).
Definition rsqrt (x : float32) : float32 :=
  to32 (SFdiv prec64 emax64 one64 (sqrt64 (to64 x))).

Definition is_nan (x : spec_float) : bool :=
  match x with S754_nan => true | _ => false end.

(** [x] is +0 or -0. *)
Definition is_zero (x : spec_float) : bool :=
  match x with S754_zero _ => true | _ => false end.

End Binary32.

#[export] Instance binary32 : FloatArith Binary32.float32 := {|
  fzero := Binary32.zero;
  fone := Binary32.ofZ 1;
  fadd := Binary32.add;
  fmul := Binary32.mul;
  fdiv := Binary32.div;
  fsqrt := Binary32.sqrt;
  frsqrt := Binary32.rsqrt;
  feqb := SFeqb;
  fltb := SFltb;
  fleb := SFleb;
  fofZ := Binary32.ofZ
|}.

(** ** Exact real arithmetic *)
Module Exact.

Definition eqb (x y : R) : bool := if Req_dec_T x y then true else false.
Definition ltb (x y : R) : bool := if Rlt_dec x y then true else false.
Definition leb (x y : R) : bool := if Rle_dec x y then true else false.

End Exact.

#[export] Instance exact : FloatArith R := {|
  fzero := 0%R;
  fone := 1%R;
  fadd := Rplus;
  fmul := Rmult;
  fdiv := Rdiv;
  fsqrt := sqrt;
  frsqrt := fun x => (1 / sqrt x)%R;
  feqb := Exact.eqb;
  fltb := Exact.ltb;
  fleb := Exact.leb;
  fofZ := IZR
|}.

(* ===================================================================== *)
(** * pkg/minirag: types *)
(* ===================================================================== *)

Module Chunk.
Record t := {
  Path : gostring;      (* File path relative to docs/ *)
  Content : gostring;   (* The actual text content *)
  Heading : gostring;   (* Section heading if applicable *)
  Offset : Z            (* Character offset in original file *)
}.
End Chunk.

Module EmbeddingData.
Record t (F : Type) := {
  Chunks : list Chunk.t;
  Embeddings : list (list F);
  ModelInfo : gostring;
  Dimension : Z
}.
Arguments Chunks {F}.
Arguments Embeddings {F}.
Arguments ModelInfo {F}.
Arguments Dimension {F}.
End EmbeddingData.

Module SearchResult.
Record t (F : Type) := {
  Chunk : Chunk.t;
  Score : F
}.
Arguments Chunk {F}.
Arguments Score {F}.
End SearchResult.

Module VectorIndex.
Record t (F : Type) := {
  Chunks : list Chunk.t;
  Embeddings : list (list F);
  Dimension : Z
}.
Arguments Chunks {F}.
Arguments Embeddings {F}.
Arguments Dimension {F}.
End VectorIndex.

(* ===================================================================== *)
(** * pkg/minirag: CosineSimilarity *)
(* ===================================================================== *)

Section Cosine.
Context {F : Type} {FA : FloatArith F}.

(** One iteration of the loop [for i := range a]: the three running sums
    after reading [a[i]] and [b[i]]. *)
Definition cosineStep (a b : list F) (acc : option (F * F * F)) (i : nat)
  : option (F * F * F) :=
  '(dotProduct, normA, normB) ← acc;
  x ← a !! i;
  y ← b !! i;
  Some (fadd dotProduct (fmul x y), fadd normA (fmul x x), fadd normB (fmul y y)).

Definition CosineSimilarity (a b : list F) : option F :=
  if negb (length a =? length b)%nat then Some fzero
  else
    '(dotProduct, normA, normB) ←
      fold_left (cosineStep a b) (seq 0 (length a)) (Some (fzero, fzero, fzero));
    if feqb normA fzero || feqb normB fzero then Some fzero
    else Some (fdiv dotProduct (fmul (fsqrt normA) (fsqrt normB))).

(** The quantities of the specification: dot product, sum of squares
    (the square of the Euclidean norm), and their quotient. The sums run
    from the first component to the last. *)
Definition dot (a b : list F) : F :=
  fold_left (fun s xy => fadd s (fmul (fst xy) (snd xy))) (combine a b) fzero.

Definition sumsq (a : list F) : F :=
  fold_left (fun s x => fadd s (fmul x x)) a fzero.

Definition norm (a : list F) : F := fsqrt (sumsq a).

Definition cosine_spec (a b : list F) : F :=
  fdiv (dot a b) (fmul (norm a) (norm b)).

(** The cosine similarity as the specification words it: 0 for vectors of
    different lengths or when a squared norm is zero, the quotient
    otherwise. *)
Definition cosineValue (a b : list F) : F :=
  if negb (length a =? length b)%nat then fzero
  else if feqb (sumsq a) fzero || feqb (sumsq b) fzero then fzero
  else cosine_spec a b.

End Cosine.

(* ===================================================================== *)
(** * pkg/minirag: Search and LoadIndex *)
(* ===================================================================== *)

(** What [sort.Slice] is handed: a comparison on the elements.
    [sort.Slice(results, less)] only exchanges elements, and for a [less]
    that is a strict weak ordering it leaves no later element smaller than
    an earlier one. The order of equal elements is not specified. *)
Definition SortSlice : Type := forall A : Type, (A -> A -> bool) -> list A -> list A.

Section Search.
Context {F : Type} {FA : FloatArith F}.
Variable sort_slice : SortSlice.

(** One iteration of [for i := range index.Chunks]. *)
Definition searchStep (index : VectorIndex.t F) (queryEmbedding : list F)
    (threshold : F) (acc : option (list (SearchResult.t F))) (i : nat)
  : option (list (SearchResult.t F)) :=
  results ← acc;
  chunk ← VectorIndex.Chunks index !! i;
  embedding ← VectorIndex.Embeddings index !! i;
  score ← CosineSimilarity queryEmbedding embedding;
  if fleb threshold score
  then Some (results ++ [{| SearchResult.Chunk := chunk; SearchResult.Score := score |}])
  else Some results.

(** The comparison given to [sort.Slice]:
    [results[i].Score > results[j].Score]. *)
Definition byScoreDesc (x y : SearchResult.t F) : bool :=
  fltb (SearchResult.Score y) (SearchResult.Score x).

Definition Search (index : VectorIndex.t F) (queryEmbedding : list F)
    (topK : Z) (threshold : F) : option (list (SearchResult.t F)) :=
  if negb (Z.of_nat (length queryEmbedding) =? VectorIndex.Dimension index)
  then Some []
  else
    results ← fold_left (searchStep index queryEmbedding threshold)
                (seq 0 (length (VectorIndex.Chunks index))) (Some []);
    let results := sort_slice _ byScoreDesc results in
    if (0 <? topK) && (topK <? Z.of_nat (length results))
    then Some (take (Z.to_nat topK) results)
    else Some results.

End Search.

(** LoadIndex creates a VectorIndex from EmbeddingData. *)
Definition LoadIndex {F : Type} (data : EmbeddingData.t F) : VectorIndex.t F :=
  {| VectorIndex.Chunks := EmbeddingData.Chunks data;
     VectorIndex.Embeddings := EmbeddingData.Embeddings data;
     VectorIndex.Dimension := EmbeddingData.Dimension data |}.

(** The entries of an index with their score against a query, in index
    order, and those that reach the threshold. *)
Definition entries {F : Type} {FA : FloatArith F}
    (index : VectorIndex.t F) (queryEmbedding : list F) : list (SearchResult.t F) :=
  map (fun ce => {| SearchResult.Chunk := fst ce;
                    SearchResult.Score := cosineValue queryEmbedding (snd ce) |})
      (combine (VectorIndex.Chunks index) (VectorIndex.Embeddings index)).

Definition matches {F : Type} {FA : FloatArith F}
    (index : VectorIndex.t F) (queryEmbedding : list F) (threshold : F)
  : list (SearchResult.t F) :=
  List.filter (fun r => fleb threshold (SearchResult.Score r)) (entries index queryEmbedding).

(** The contract of [sort.Slice]. *)
Definition strict_weak {A : Type} (less : A -> A -> bool) (l : list A) : Prop :=
  (forall x, In x l -> less x x = false) /\
  (forall x y z, In x l -> In y l -> In z l ->
     less x y = true -> less y z = true -> less x z = true) /\
  (forall x y z, In x l -> In y l -> In z l ->
     less x y = false -> less y z = false -> less x z = false).

Definition sort_contract (sort_slice : SortSlice) : Prop :=
  (forall A less l, Permutation (sort_slice A less l) l) /\
  (forall A less l, strict_weak less l ->
     StronglySorted (fun x y => less y x = false) (sort_slice A less l)).

(** A sort that meets the contract: insertion from the right. *)
Fixpoint insert_by {A : Type} (less : A -> A -> bool) (x : A) (l : list A) : list A :=
  match l with
  | [] => [x]
  | y :: t => if less y x then y :: insert_by less x t else x :: y :: t
  end.

Definition insertion_sort : SortSlice :=
  fun A less l => fold_right (insert_by less) [] l.


(* ===================================================================== *)
(** * Go library functions used by pkg/loader *)
(* ===================================================================== *)

Module Go.

Definition newline : byte := x0a.          (* '\n' *)
Definition carriageReturn : byte := x0d.   (* '\r' *)
Definition hash : byte := x23.             (* '#' *)

(** bufio.MaxScanTokenSize: the size of the largest buffer a Scanner
    allocates by default. *)
Definition MaxScanTokenSize : Z := 65536.

(** dropCR drops a terminal '\r' from the data. *)
Definition dropCR (data : gostring) : gostring :=
  match rev data with
  | b :: r => if Byte.eqb b carriageReturn then rev r else data
  | [] => data
  end.

(** The tokens that [bufio.Scanner] with the default split function
    [ScanLines] delivers for the remaining input [rest], when [line] is
    the part of the current line already read. A line ends at '\n'; one
    '\r' before it is dropped; the last line needs no '\n'; an empty
    remainder gives no token. A line that does not fit into the buffer
    together with its '\n' stops the scan for good ([Scan] returns false
    with [ErrTooLong]). *)
Fixpoint scanFrom (line rest : gostring) : list gostring :=
  match rest with
  | [] => match line with [] => [] | _ => [dropCR line] end
  | b :: rest' =>
      if Byte.eqb b newline then dropCR line :: scanFrom [] rest'
      else if MaxScanTokenSize <=? Z.of_nat (length line) + 1 then []
      else scanFrom (line ++ [b]) rest'
  end.

Definition scanLines (content : gostring) : list gostring := scanFrom [] content.

(** strings.HasPrefix(s, "#") *)
Definition HasPrefixHash (s : gostring) : bool :=
  match s with
  | b :: _ => Byte.eqb b hash
  | [] => false
  end.

(** strings.TrimLeft(s, "#") *)
Fixpoint TrimLeftHash (s : gostring) : gostring :=
  match s with
  | b :: r => if Byte.eqb b hash then TrimLeftHash r else s
  | [] => []
  end.

(** White space as [unicode.IsSpace] defines it, in UTF-8: the six ASCII
    characters '\t' '\n' '\v' '\f' '\r' ' ', then U+0085 and U+00A0 in two
    bytes, and U+1680, U+2000..U+200A, U+2028, U+2029, U+202F, U+205F and
    U+3000 in three. *)
Definition isASCIISpace (b : byte) : bool :=
  Byte.eqb b x09 || Byte.eqb b x0a || Byte.eqb b x0b ||
  Byte.eqb b x0c || Byte.eqb b x0d || Byte.eqb b x20.

Definition isSpace2 (b0 b1 : byte) : bool :=
  Byte.eqb b0 xc2 && (Byte.eqb b1 x85 || Byte.eqb b1 xa0).

Definition isSpace3 (b0 b1 b2 : byte) : bool :=
  (Byte.eqb b0 xe1 && Byte.eqb b1 x9a && Byte.eqb b2 x80) ||
  (Byte.eqb b0 xe2 && Byte.eqb b1 x80 &&
     ((N.leb 128 (Byte.to_N b2) && N.leb (Byte.to_N b2) 138) ||
      Byte.eqb b2 xa8 || Byte.eqb b2 xa9 || Byte.eqb b2 xaf)) ||
  (Byte.eqb b0 xe2 && Byte.eqb b1 x81 && Byte.eqb b2 x9f) ||
  (Byte.eqb b0 xe3 && Byte.eqb b1 x80 && Byte.eqb b2 x80).

(** Removal of the leading white space. *)
Fixpoint trimLeftSpace (s : gostring) : gostring :=
  match s with
  | [] => []
  | b0 :: r0 =>
      if isASCIISpace b0 then trimLeftSpace r0
      else match r0 with
           | [] => s
           | b1 :: r1 =>
               if isSpace2 b0 b1 then trimLeftSpace r1
               else match r1 with
                    | [] => s
                    | b2 :: r2 =>
                        if isSpace3 b0 b1 b2 then trimLeftSpace r2 else s
                    end
           end
  end.

(** Removal of the trailing white space, on the reversed string: the
    bytes of a character come last byte first. *)
Fixpoint trimRightSpaceRev (s : gostring) : gostring :=
  match s with
  | [] => []
  | b0 :: r0 =>
      if isASCIISpace b0 then trimRightSpaceRev r0
      else match r0 with
           | [] => s
           | b1 :: r1 =>
               if isSpace2 b1 b0 then trimRightSpaceRev r1
               else match r1 with
                    | [] => s
                    | b2 :: r2 =>
                        if isSpace3 b2 b1 b0 then trimRightSpaceRev r2 else s
                    end
           end
  end.

Definition trimRightSpace (s : gostring) : gostring :=
  rev (trimRightSpaceRev (rev s)).

(** strings.TrimSpace(s) *)
Definition TrimSpace (s : gostring) : gostring :=
  trimRightSpace (trimLeftSpace s).

(** No line of [rest] reaches [MaxScanTokenSize] bytes, when [n] bytes of
    the current line have been read. *)
Fixpoint linesFit (n : Z) (rest : gostring) : bool :=
  match rest with
  | [] => true
  | b :: rest' =>
      if Byte.eqb b newline then linesFit 0 rest'
      else if MaxScanTokenSize <=? n + 1 then false
      else linesFit (n + 1) rest'
  end.

(** The input put back together from its lines: each line with a '\n'. *)
Definition unlines (ls : list gostring) : gostring :=
  concat (map (fun l => l ++ [newline]) ls).

(** No '\r' stands directly before a '\n'. *)
Fixpoint noCRLF (s : gostring) : bool :=
  match s with
  | [] => true
  | b :: r =>
      negb (Byte.eqb b carriageReturn &&
            match r with b' :: _ => Byte.eqb b' newline | [] => false end)
      && noCRLF r
  end.

End Go.

(* ===================================================================== *)
(** * pkg/loader: ChunkDocument *)
(* ===================================================================== *)

Module Loader.

(** The variables of ChunkDocument that the loop and [flushChunk] share. *)
Record state := {
  chunks : list Chunk.t;
  currentHeading : gostring;
  currentContent : gostring;   (* the strings.Builder *)
  currentOffset : Z;
  lineOffset : Z
}.

Definition initial : state :=
  {| chunks := []; currentHeading := []; currentContent := [];
     currentOffset := 0; lineOffset := 0 |}.

Definition flushChunk (path : gostring) (st : state) : state :=
  if (0 <? length (currentContent st))%nat
  then {| chunks := chunks st ++
                    [{| Chunk.Path := path;
                        Chunk.Content := Go.TrimSpace (currentContent st);
                        Chunk.Heading := currentHeading st;
                        Chunk.Offset := currentOffset st |}];
          currentHeading := currentHeading st;
          currentContent := currentContent st;
          currentOffset := currentOffset st;
          lineOffset := lineOffset st |}
  else st.

(** Add line to current chunk. *)
Definition appendLine (content line : gostring) : gostring :=
  (if (0 <? length content)%nat then content ++ [Go.newline] else content) ++ line.

(** The body of [for scanner.Scan()]. *)
Definition scanStep (path : gostring) (st : state) (line : gostring) : state :=
  let st' :=
    if Go.HasPrefixHash line
    then
      let flushed := flushChunk path st in
      {| chunks := chunks flushed;
         currentHeading := Go.TrimSpace (Go.TrimLeftHash line);
         currentContent := [];
         currentOffset := lineOffset st;
         lineOffset := lineOffset st |}
    else
      {| chunks := chunks st;
         currentHeading := currentHeading st;
         currentContent := appendLine (currentContent st) line;
         currentOffset := currentOffset st;
         lineOffset := lineOffset st |}
  in
  {| chunks := chunks st';
     currentHeading := currentHeading st';
     currentContent := currentContent st';
     currentOffset := currentOffset st';
     lineOffset := lineOffset st' + Z.of_nat (length line) + 1 |}.

(** The loop [for scanner.Scan()] over the lines that the scanner
    delivers. *)
Definition run (path : gostring) (st : state) (lines : list gostring) : state :=
  fold_left (scanStep path) lines st.

Definition ChunkDocument (path content : gostring) : list Chunk.t :=
  let st := run path initial (Go.scanLines content) in
  let st := flushChunk path st in
  if (length (chunks st) =? 0)%nat
  then [{| Chunk.Path := path;
           Chunk.Content := Go.TrimSpace content;
           Chunk.Heading := [];
           Chunk.Offset := 0 |}]
  else chunks st.

(** The text that the loop gathers from the lines of one section, and the
    position at which the line after [pre] starts. *)
Definition sectionText (body : list gostring) : gostring :=
  fold_left appendLine body [].

Definition offsetAfter (pre : list gostring) : Z :=
  fold_left (fun o line => o + Z.of_nat (length line) + 1) pre 0.

(** A line that is a markdown heading for ChunkDocument. *)
Definition isHeading (line : gostring) : Prop := Go.HasPrefixHash line = true.

End Loader.

(* ===================================================================== *)
(** * pkg/embedder *)
(* ===================================================================== *)

(** A Go result pair [(value, error)]. *)
Inductive result (A : Type) : Type :=
| Ok (value : A)
| Err (message : gostring).
Arguments Ok {A} value.
Arguments Err {A} message.

Section Normalize.
Context {F : Type} {FA : FloatArith F}.

(** l2normalize normalizes a vector to unit length. The slice is changed
    in place; the function returns its new contents. *)
Definition l2normalize (v : list F) : list F :=
  let sum := fold_left (fun sum x => fadd sum (fmul x x)) v fzero in
  if feqb sum fzero then v
  else
    let inv := frsqrt sum in
    fold_left (fun v i => alter (fun x => fmul x inv) i v) (seq 0 (length v)) v.

End Normalize.

Module OpenAI.

(** What [client.CreateEmbeddings] hands back: an error, or the embedding
    vectors [resp.Data[i].Embedding], which are float64. *)
Inductive response : Type :=
| ApiError (message : gostring)
| ApiData (data : list (list Binary32.float64)).

(** The remote service is a function of the model name and the text. *)
Record OpenAIEmbedder := {
  client : gostring -> gostring -> response;
  model : gostring;
  dim : Z
}.

(** NewOpenAIEmbedder creates an OpenAI embedder. [key] is the value of
    the environment variable OPENAI_API_KEY and [client] the client that
    [openai.NewClient(key)] stands for. *)
Definition NewOpenAIEmbedder (key : gostring)
    (client : gostring -> gostring -> response) (model : gostring)
  : result OpenAIEmbedder :=
  if (length key =? 0)%nat
  then Err (bytes "OPENAI_API_KEY environment variable not set")
  else Ok {| client := client;
             model := model;
             dim := if eqString model (bytes "text-embedding-3-large")
                    then 3072 else 1536 |}.

(** Embed generates an embedding for a single text. *)
Definition Embed (e : OpenAIEmbedder) (text : gostring) : result (list Binary32.float32) :=
  if (length text =? 0)%nat then Err (bytes "cannot embed empty text")
  else
    match client e (model e) text with
    | ApiError message => Err (bytes "OpenAI API error: " ++ message)
    | ApiData [] => Err (bytes "no embedding data returned from API")
    | ApiData (v64 :: _) =>
        let v := map Binary32.to32 v64 in
        Ok (l2normalize v)
    end.

Definition Dimension (e : OpenAIEmbedder) : Z := dim e.

Definition ModelInfo (e : OpenAIEmbedder) : gostring := bytes "openai-" ++ model e.

End OpenAI.

Module UTF8.

(** The characters of a string with the position of their first byte, as
    [for i, char := range text] delivers them: UTF-8 sequences of one to
    four bytes; a byte that starts no valid sequence counts as U+FFFD of
    width 1. *)
Definition RuneError : Z := 65533.

Definition cont (b : byte) : bool :=
  let n := Byte.to_N b in (N.leb 128 n && N.leb n 191)%N.

Definition between (lo hi : N) (b : byte) : bool :=
  let n := Byte.to_N b in (N.leb lo n && N.leb n hi)%N.

Definition low (bits : N) (b : byte) : Z :=
  Z.of_N (N.land (Byte.to_N b) (N.ones bits)).

Definition valid2 (b0 b1 : byte) : bool := between 194 223 b0 && cont b1.

Definition valid3 (b0 b1 b2 : byte) : bool :=
  ((between 224 224 b0 && between 160 191 b1) ||
   (between 225 236 b0 && cont b1) ||
   (between 237 237 b0 && between 128 159 b1) ||
   (between 238 239 b0 && cont b1)) && cont b2.

Definition valid4 (b0 b1 b2 b3 : byte) : bool :=
  ((between 240 240 b0 && between 144 191 b1) ||
   (between 241 243 b0 && cont b1) ||
   (between 244 244 b0 && between 128 143 b1)) && cont b2 && cont b3.

Fixpoint rangeFrom (i : Z) (s : gostring) : list (Z * Z) :=
  match s with
  | [] => []
  | b0 :: r0 =>
      let invalid := (i, RuneError) :: rangeFrom (i + 1) r0 in
      if between 0 127 b0 then (i, Z.of_N (Byte.to_N b0)) :: rangeFrom (i + 1) r0
      else match r0 with
           | [] => invalid
           | b1 :: r1 =>
               if valid2 b0 b1
               then (i, Z.shiftl (low 5 b0) 6 + low 6 b1) :: rangeFrom (i + 2) r1
               else match r1 with
                    | [] => invalid
                    | b2 :: r2 =>
                        if valid3 b0 b1 b2
                        then (i, Z.shiftl (low 4 b0) 12 + Z.shiftl (low 6 b1) 6 + low 6 b2)
                               :: rangeFrom (i + 3) r2
                        else match r2 with
                             | [] => invalid
                             | b3 :: r3 =>
                                 if valid4 b0 b1 b2 b3
                                 then (i, Z.shiftl (low 3 b0) 18 + Z.shiftl (low 6 b1) 12
                                          + Z.shiftl (low 6 b2) 6 + low 6 b3)
                                        :: rangeFrom (i + 4) r3
                                 else invalid
                             end
                    end
           end
  end.

Definition rangeString (s : gostring) : list (Z * Z) := rangeFrom 0 s.

End UTF8.

Module Simple.

(** SimpleEmbedder is a placeholder implementation using basic hashing. *)
Record SimpleEmbedder := { dim : Z }.

Definition NewSimpleEmbedder (dimension : Z) : SimpleEmbedder := {| dim := dimension |}.

Section Embed.
Context {F : Type} {FA : FloatArith F}.

(** One iteration of [for i, char := range text]:
    [idx := i % e.dim; vec[idx] += float32(char) / 1000.0]. *)
Definition hashStep (e : SimpleEmbedder) (acc : option (list F)) (ic : Z * Z)
  : option (list F) :=
  vec ← acc;
  if dim e =? 0 then None
  else
    let idx := Z.to_nat (Z.rem (fst ic) (dim e)) in
    x ← vec !! idx;
    Some (<[idx := fadd x (fdiv (fofZ (snd ic)) (fofZ 1000))]> vec).

(** Embed generates a simple embedding vector from text. The error it
    returns is always nil; [None] is a panic ([make] with a negative
    length, or a remainder by zero). *)
Definition Embed (e : SimpleEmbedder) (text : gostring) : option (list F) :=
  if dim e <? 0 then None
  else
    vec ← fold_left (hashStep e) (UTF8.rangeString text)
            (Some (replicate (Z.to_nat (dim e)) fzero));
    let norm := fold_left (fun norm v => fadd norm (fmul v v)) vec fzero in
    if fltb fzero norm
    then
      let norm := fdiv fone norm in
      Some (fold_left (fun vec i => alter (fun x => fmul x norm) i vec)
              (seq 0 (length vec)) vec)
    else Some vec.

End Embed.

Definition Dimension (e : SimpleEmbedder) : Z := dim e.

Definition ModelInfo (e : SimpleEmbedder) : gostring := bytes "simple-embedder-v1".

End Simple.

(* ===================================================================== *)
(** * cmd/minirag: loading the index *)
(* ===================================================================== *)

Module Cli.

(** Step 1 of [main]. The gob decoder either fails or delivers the
    decoded EmbeddingData; [None] is the process ending with exit code 1
    after "Error loading index". *)
Definition loadIndexStep (decoded : result (EmbeddingData.t Binary32.float32))
  : option (VectorIndex.t Binary32.float32) :=
  match decoded with
  | Err _ => None
  | Ok embData => Some (LoadIndex embData)
  end.

(** The invariant of the persisted index: as many vectors as chunks, each
    of the declared dimension. *)
Definition wellFormed {F : Type} (data : EmbeddingData.t F) : Prop :=
  length (EmbeddingData.Chunks data) = length (EmbeddingData.Embeddings data) /\
  Forall (fun v => Z.of_nat (length v) = EmbeddingData.Dimension data)
         (EmbeddingData.Embeddings data).

End Cli.

(* ===================================================================== *)
(** * Goroutines behind a counting semaphore *)
(* ===================================================================== *)

(** Both batch loops have the same shape:
<<
    sem := make(chan struct{}, 10)
    for _, idx := range work {
        sem <- struct{}{}
        go func(idx int) {
            defer func() { <-sem }()
            r := emb.Embed(...)
            ... record r ...
        }(idx)
    }
>>
    The model is an interleaving semantics: a state holds the position of
    the loop, the number of tokens in [sem], the program point of every
    goroutine and the data the goroutines share; a schedule is a list of
    events, each one the next step of the loop or of one goroutine. What a
    goroutine does with its result it does under the mutex, or by a send
    on a channel with room for every result: one atomic step. *)
Module Pool.

(** The capacity of the channel [sem]. *)
Definition capacity : nat := 10.

Inductive phase (R : Type) : Type :=
| Waiting            (* the loop has not reached this item *)
| Spawned            (* goroutine started, Embed not yet called *)
| Calling            (* the call of Embed is in flight *)
| Got (r : R)        (* Embed has returned r *)
| Exiting            (* result recorded, deferred calls still to run *)
| Finished.          (* token handed back, goroutine gone *)
Arguments Waiting {R}.
Arguments Spawned {R}.
Arguments Calling {R}.
Arguments Got {R} r.
Arguments Exiting {R}.
Arguments Finished {R}.

Record state (S R : Type) : Type := {
  next : nat;                 (* position of the loop in [work] *)
  sem : nat;                  (* tokens in the channel sem *)
  workers : list (phase R);   (* program point of the goroutine of each item *)
  shared : S;                 (* data shared by the goroutines *)
  calls : list nat;           (* trace: items for which Embed was called *)
  recorded : list nat         (* trace: items whose result was recorded *)
}.
Arguments next {S R}.
Arguments sem {S R}.
Arguments workers {S R}.
Arguments shared {S R}.
Arguments calls {S R}.
Arguments recorded {S R}.

Inductive event : Type :=
| Dispatch            (* one turn of the loop: sem <- struct{}{}; go func *)
| Call (k : nat)      (* goroutine k enters Embed *)
| Return (k : nat)    (* Embed returns in goroutine k *)
| Record (k : nat)    (* goroutine k records its result *)
| Exit (k : nat).     (* goroutine k returns: <-sem *)

Definition isLive {R : Type} (p : phase R) : bool :=
  match p with
  | Spawned | Calling | Got _ | Exiting => true
  | Waiting | Finished => false
  end.

Definition isCalling {R : Type} (p : phase R) : bool :=
  match p with Calling => true | _ => false end.

Definition isFinished {R : Type} (p : phase R) : bool :=
  match p with Finished => true | _ => false end.

Definition wasCalled {R : Type} (p : phase R) : bool :=
  match p with
  | Calling | Got _ | Exiting | Finished => true
  | Waiting | Spawned => false
  end.

Definition wasRecorded {R : Type} (p : phase R) : bool :=
  match p with
  | Exiting | Finished => true
  | _ => false
  end.

Section Run.
Context {S R : Type}.
Variable work : list nat.                (* the items, in loop order *)
Variable call : nat -> R.                (* the result of Embed for an item *)
Variable record : nat -> R -> S -> S.    (* what a goroutine does with it *)

(** One step. [None]: the event cannot happen in this state (a send on a
    full channel blocks, a goroutine is at another program point). *)
Definition step (ev : event) (st : state S R) : option (state S R) :=
  match ev with
  | Dispatch =>
      _ ← work !! next st;
      if (sem st <? capacity)%nat
      then Some {| next := Datatypes.S (next st); sem := Datatypes.S (sem st);
                   workers := <[next st := Spawned]> (workers st);
                   shared := shared st; calls := calls st;
                   recorded := recorded st |}
      else None
  | Call k =>
      idx ← work !! k;
      match workers st !! k with
      | Some Spawned =>
          Some {| next := next st; sem := sem st;
                  workers := <[k := Calling]> (workers st);
                  shared := shared st; calls := calls st ++ [idx];
                  recorded := recorded st |}
      | _ => None
      end
  | Return k =>
      idx ← work !! k;
      match workers st !! k with
      | Some Calling =>
          Some {| next := next st; sem := sem st;
                  workers := <[k := Got (call idx)]> (workers st);
                  shared := shared st; calls := calls st;
                  recorded := recorded st |}
      | _ => None
      end
  | Record k =>
      idx ← work !! k;
      match workers st !! k with
      | Some (Got r) =>
          Some {| next := next st; sem := sem st;
                  workers := <[k := Exiting]> (workers st);
                  shared := record idx r (shared st); calls := calls st;
                  recorded := recorded st ++ [idx] |}
      | _ => None
      end
  | Exit k =>
      match workers st !! k with
      | Some Exiting =>
          Some {| next := next st; sem := Nat.pred (sem st);
                  workers := <[k := Finished]> (workers st);
                  shared := shared st; calls := calls st;
                  recorded := recorded st |}
      | _ => None
      end
  end.

Fixpoint exec (schedule : list event) (st : state S R) : option (state S R) :=
  match schedule with
  | [] => Some st
  | ev :: schedule' => st' ← step ev st; exec schedule' st'
  end.

Definition init (s0 : S) : state S R :=
  {| next := 0; sem := 0; workers := replicate (length work) Waiting;
     shared := s0; calls := []; recorded := [] |}.

(** The loop is over and every goroutine has returned. *)
Definition finished (st : state S R) : bool :=
  (next st =? length work)%nat && forallb isFinished (workers st).

(** The number of calls of Embed that are in flight. *)
Definition inFlight (st : state S R) : nat :=
  length (List.filter isCalling (workers st)).

(** What holds in every state of a run: one program point per item, the
    items beyond the loop position still waiting, and as many tokens in
    [sem] as there are live goroutines, never more than its capacity. *)
Definition invariant (st : state S R) : Prop :=
  length (workers st) = length work /\
  (next st <= length work)%nat /\
  (forall k, (next st <= k)%nat -> (k < length work)%nat ->
             workers st !! k = Some Waiting) /\
  sem st = length (List.filter isLive (workers st)) /\
  (sem st <= capacity)%nat.

(** Item [i] belongs to a goroutine whose program point satisfies [P]. *)
Definition reached (P : phase R -> bool) (ws : list (phase R)) (i : nat) : Prop :=
  exists k p, work !! k = Some i /\ ws !! k = Some p /\ P p = true.

(** What the two traces and the shared data are in every state of a run
    that started with the shared data [s0]: each item is called and
    recorded at most once, the traces list the items of the goroutines
    that are past the call and past the recording, a result in hand is
    the result of the call, and the shared data are what recording the
    results one after the other, in the order of the trace, makes of
    [s0]. *)
Definition traced (s0 : S) (st : state S R) : Prop :=
  NoDup (calls st) /\ NoDup (recorded st) /\
  (forall i, In i (calls st) <-> reached wasCalled (workers st) i) /\
  (forall i, In i (recorded st) <-> reached wasRecorded (workers st) i) /\
  (forall k r, workers st !! k = Some (Got r) ->
     exists i, work !! k = Some i /\ r = call i) /\
  shared st = fold_left (fun s i => record i (call i) s) (recorded st) s0.

(** The schedule that runs one goroutine after the other. *)
Definition oneByOne (k : nat) : list event :=
  [Dispatch; Call k; Return k; Record k; Exit k].

Definition sequential : list event :=
  concat (map oneByOne (seq 0 (length work))).

End Run.
End Pool.

(* ===================================================================== *)
(** * pkg/embedder: EmbedBatchWithProgress *)
(* ===================================================================== *)

Module EmbedBatch.

(** What the goroutines share: the slice of results and the channel of
    errors ([nil] is [None]). *)
Record shared := {
  embeddings : list (list Binary32.float32);
  errChan : list (option gostring)
}.

Definition start (texts : list gostring) : shared :=
  {| embeddings := replicate (length texts) []; errChan := [] |}.

(** The call [e.Embed(texts[idx])]; the index comes from [range texts]. *)
Definition call (e : OpenAI.OpenAIEmbedder) (texts : list gostring) (idx : nat)
  : result (list Binary32.float32) :=
  match texts !! idx with
  | Some text => OpenAI.Embed e text
  | None => Err (bytes "index out of range")
  end.

Definition record (idx : nat) (r : result (list Binary32.float32)) (s : shared)
  : shared :=
  match r with
  | Err message =>
      {| embeddings := embeddings s; errChan := errChan s ++ [Some message] |}
  | Ok emb =>
      {| embeddings := <[idx := emb]> (embeddings s);
         errChan := errChan s ++ [None] |}
  end.

(** The first error received, if any. *)
Fixpoint firstError (received : list (option gostring)) : option gostring :=
  match received with
  | [] => None
  | Some message :: _ => Some message
  | None :: received' => firstError received'
  end.

(** EmbedBatchWithProgress without a progress callback, as EmbedBatch
    calls it, for a schedule of its goroutines: once every goroutine is
    started, the results are received in the order they were sent, up to
    the first error. [None]: the schedule ends before the function can
    return. *)
Definition EmbedBatchWithProgress (e : OpenAI.OpenAIEmbedder) (texts : list gostring)
    (schedule : list Pool.event) : option (result (list (list Binary32.float32))) :=
  let work := seq 0 (length texts) in
  st ← Pool.exec work (call e texts) record schedule (Pool.init work (start texts));
  if (Pool.next st =? length texts)%nat
  then match firstError (errChan (Pool.shared st)) with
       | Some message => Some (Err message)
       | None =>
           if (length (Pool.recorded st) =? length texts)%nat
           then Some (Ok (embeddings (Pool.shared st)))
           else None
       end
  else None.

End EmbedBatch.

(* ===================================================================== *)
(** * cmd/generate-embeddings *)
(* ===================================================================== *)

Module GenerateEmbeddings.

Record checkpoint := {
  Chunks : list Chunk.t;
  Embeddings : list (list Binary32.float32);
  Completed : gmap Z bool;    (* Track which chunks are done *)
  ModelInfo : gostring;
  Dimension : Z
}.

(** What loadCheckpoint returns: [(nil, nil)] when there is no file,
    [(nil, err)] when the file cannot be read or decoded, the decoded
    checkpoint otherwise. *)
Inductive loaded : Type :=
| NoCheckpoint
| LoadFailed (message : gostring)
| Existing (existingCP : checkpoint).

Definition newCheckpoint (chunks : list Chunk.t) (emb : OpenAI.OpenAIEmbedder)
  : checkpoint :=
  {| Chunks := chunks;
     Embeddings := replicate (length chunks) [];
     Completed := ∅;
     ModelInfo := OpenAI.ModelInfo emb;
     Dimension := OpenAI.Dimension emb |}.

(** Verify checkpoint matches current docs. *)
Definition mismatch (existingCP : checkpoint) (chunks : list Chunk.t)
    (emb : OpenAI.OpenAIEmbedder) : bool :=
  negb (length (Chunks existingCP) =? length chunks)%nat
  || negb (eqString (ModelInfo existingCP) (OpenAI.ModelInfo emb)).

(** Step 2.5 of main: the checkpoint the run works on. *)
Definition selectCheckpoint (found : loaded) (chunks : list Chunk.t)
    (emb : OpenAI.OpenAIEmbedder) : checkpoint :=
  match found with
  | Existing existingCP =>
      if mismatch existingCP chunks emb
      then newCheckpoint chunks emb
      else existingCP
  | _ => newCheckpoint chunks emb
  end.

(** [cp.Completed[i]]: a missing key reads as false. *)
Definition isCompleted (cp : checkpoint) (i : nat) : bool :=
  default false (Completed cp !! Z.of_nat i).

(** Build list of indices to process. *)
Definition toProcess (chunks : list Chunk.t) (cp : checkpoint) : list nat :=
  List.filter (fun i => negb (isCompleted cp i)) (seq 0 (length chunks)).

(** The error a goroutine reports: the index and the path of the chunk,
    and the error of the embedder. *)
Record embedError := {
  errIndex : nat;
  errPath : gostring;
  errCause : gostring
}.

(** What the goroutines share, and the checkpoint file. *)
Record shared := {
  cp : checkpoint;
  completed : Z;
  saveCounter : Z;
  saved : option checkpoint;          (* embeddings/checkpoint.gob *)
  errChan : list (option embedError);
  panicked : bool                     (* an index was out of range *)
}.

Definition start (chunks : list Chunk.t) (cp0 : checkpoint) (file : option checkpoint)
  : shared :=
  {| cp := cp0;
     completed := Z.of_nat (length chunks) - Z.of_nat (length (toProcess chunks cp0));
     saveCounter := 0;
     saved := file;
     errChan := [];
     panicked := false |}.

(** The call [emb.Embed(chunks[idx].Content)]; the index comes from
    [range chunks]. *)
Definition call (emb : OpenAI.OpenAIEmbedder) (chunks : list Chunk.t) (idx : nat)
  : result (list Binary32.float32) :=
  match chunks !! idx with
  | Some chunk => OpenAI.Embed emb (Chunk.Content chunk)
  | None => Err (bytes "index out of range")
  end.

(** The goroutine after Embed has returned: report the error, or take the
    mutex, store the vector, mark the index, count, and save the
    checkpoint at every 50th result. Writing the file is taken to
    succeed. *)
Definition record (chunks : list Chunk.t) (idx : nat)
    (r : result (list Binary32.float32)) (s : shared) : shared :=
  match r with
  | Err cause =>
      {| cp := cp s; completed := completed s; saveCounter := saveCounter s;
         saved := saved s;
         errChan := errChan s ++
           [Some {| errIndex := idx;
                    errPath := default [] (Chunk.Path <$> chunks !! idx);
                    errCause := cause |}];
         panicked := panicked s |}
  | Ok emb_vec =>
      if (idx <? length (Embeddings (cp s)))%nat
      then
        let cp' := {| Chunks := Chunks (cp s);
                      Embeddings := <[idx := emb_vec]> (Embeddings (cp s));
                      Completed := <[Z.of_nat idx := true]> (Completed (cp s));
                      ModelInfo := ModelInfo (cp s);
                      Dimension := Dimension (cp s) |} in
        let saveCounter' := saveCounter s + 1 in
        {| cp := cp';
           completed := completed s + 1;
           saveCounter := if 50 <=? saveCounter' then 0 else saveCounter';
           saved := if 50 <=? saveCounter' then Some cp' else saved s;
           errChan := errChan s ++ [None];
           panicked := panicked s |}
      else
        {| cp := cp s; completed := completed s; saveCounter := saveCounter s;
           saved := saved s; errChan := errChan s; panicked := true |}
  end.

(** The errors that a run reports when the results of [order] are
    recorded. *)
Definition errorsOf (emb : OpenAI.OpenAIEmbedder) (chunks : list Chunk.t)
    (order : list nat) : list embedError :=
  omap (fun idx =>
          match call emb chunks idx with
          | Err cause =>
              Some {| errIndex := idx;
                      errPath := default [] (Chunk.Path <$> chunks !! idx);
                      errCause := cause |}
          | Ok _ => None
          end) order.

(** How the run ends. *)
Inductive outcome : Type :=
| IndexWritten (embData : EmbeddingData.t Binary32.float32)
    (* index.gob written, checkpoint file removed, exit status 0 *)
| Stopped (embedErrors : list embedError) (file : checkpoint)
    (* errors printed, checkpoint saved, exit status 1 *)
| Panic.

(** Step 4: Create embedding data structure from checkpoint. *)
Definition assemble (cp : checkpoint) : EmbeddingData.t Binary32.float32 :=
  {| EmbeddingData.Chunks := Chunks cp;
     EmbeddingData.Embeddings := Embeddings cp;
     EmbeddingData.ModelInfo := ModelInfo cp;
     EmbeddingData.Dimension := Dimension cp |}.

(** After [wg.Wait()]: collect the errors, stop if there are any. *)
Definition conclude (s : shared) : outcome :=
  if panicked s then Panic
  else
    let embedErrors := omap (fun err => err) (errChan s) in
    if (0 <? length embedErrors)%nat
    then Stopped embedErrors (cp s)
    else IndexWritten (assemble (cp s)).

(** main, from the chunks of the documents, the embedder and what
    loadCheckpoint has found, for a schedule of the goroutines. The result
    is the outcome together with the items for which Embed was called.
    [None]: the schedule is not a complete run. Interrupt signals are not
    part of the model. *)
Definition main (found : loaded) (chunks : list Chunk.t) (emb : OpenAI.OpenAIEmbedder)
    (schedule : list Pool.event) : option (outcome * list nat) :=
  let cp := selectCheckpoint found chunks emb in
  let remaining := length (toProcess chunks cp) in
  if (remaining =? 0)%nat
  then Some (IndexWritten (assemble cp), [])
  else
    st ← Pool.exec (toProcess chunks cp) (call emb chunks) (record chunks) schedule
           (Pool.init (toProcess chunks cp)
              (start chunks cp (match found with Existing c => Some c | _ => None end)));
    if Pool.finished (toProcess chunks cp) st
    then Some (conclude (Pool.shared st), Pool.calls st)
    else None.

End GenerateEmbeddings.

(* ===================================================================== *)
(** * Further code of the packages *)
(* ===================================================================== *)

#[export] Instance byte_eq_dec : EqDecision byte := Byte.byte_eq_dec.

#[export] Instance byte_countable : Countable byte :=
  inj_countable Byte.to_N Byte.of_N Byte.of_to_N.

(** A Go [int]: 64 bits, two's complement; sums and differences wrap. *)
Definition wrapInt (z : Z) : Z := (z + 2 ^ 63) mod 2 ^ 64 - 2 ^ 63.

(** ** pkg/embedder: SimpleEmbedder.EmbedBatch *)

Module SimpleBatch.
Section EmbedBatch.
Context {F : Type} {FA : FloatArith F}.

(** One iteration of [for i, text := range texts]. The error of Embed is
    always nil; a panic of Embed ends the loop. *)
Definition batchStep (e : Simple.SimpleEmbedder) (acc : option (nat * list (list F)))
    (text : gostring) : option (nat * list (list F)) :=
  '(i, embeddings) ← acc;
  emb ← Simple.Embed e text;
  Some (S i, <[i := emb]> embeddings).

(** EmbedBatch generates embeddings for multiple texts. *)
Definition EmbedBatch (e : Simple.SimpleEmbedder) (texts : list gostring)
  : option (list (list F)) :=
  snd <$> fold_left (batchStep e) texts (Some (0%nat, replicate (length texts) [])).

End EmbedBatch.
End SimpleBatch.

(** ** pkg/loader: LoadDocuments and LoadAndChunkAll *)

Module LoaderFS.

(** strings.HasSuffix(path, ".md") *)
Definition HasSuffixMd (path : gostring) : bool :=
  match rev path with
  | d :: m :: dot :: _ => Byte.eqb d x64 && Byte.eqb m x6d && Byte.eqb dot x2e
  | _ => false
  end.

(** One call that [fs.WalkDir] makes to the function it is given: the
    path, the error it passes (nil is [None]), whether the entry is a
    directory, and what [fs.ReadFile] returns for the path. *)
Record visit := {
  path : gostring;
  err : option gostring;
  isDir : bool;
  read : result gostring
}.

Section Load.
(** filepath.Rel *)
Variable Rel : gostring -> gostring -> result gostring.
(** The order in which [for path, content := range docs] visits a map. *)
Variable rangeMap : gmap gostring gostring -> list (gostring * gostring).

(** The function given to WalkDir: the new map, and the error returned
    (nil is [None]). *)
Definition walkFn (root : gostring) (docs : gmap gostring gostring) (v : visit)
  : gmap gostring gostring * option gostring :=
  match err v with
  | Some e => (docs, Some e)
  | None =>
      if isDir v then (docs, None)
      else if negb (HasSuffixMd (path v)) then (docs, None)
      else
        match read v with
        | Err e => (docs, Some (bytes "reading " ++ path v ++ bytes ": " ++ e))
        | Ok content =>
            let relPath :=
              match Rel root (path v) with
              | Ok relPath => relPath
              | Err _ => path v
              end in
            (<[relPath := content]> docs, None)
        end
  end.

(** WalkDir stops at the first error that the function returns. *)
Fixpoint walkDir (root : gostring) (walk : list visit) (docs : gmap gostring gostring)
  : gmap gostring gostring * option gostring :=
  match walk with
  | [] => (docs, None)
  | v :: walk' =>
      match walkFn root docs v with
      | (docs', None) => walkDir root walk' docs'
      | (docs', Some e) => (docs', Some e)
      end
  end.

(** LoadDocuments reads all markdown files from the embedded filesystem;
    [walk] is the sequence of calls that WalkDir makes. *)
Definition LoadDocuments (root : gostring) (walk : list visit)
  : gmap gostring gostring * option gostring :=
  walkDir root walk ∅.

(** LoadAndChunkAll loads all documents and chunks them. *)
Definition LoadAndChunkAll (root : gostring) (walk : list visit)
  : result (list Chunk.t) :=
  match LoadDocuments root walk with
  | (_, Some e) => Err e
  | (docs, None) =>
      Ok (fold_left
            (fun allChunks pc => allChunks ++ Loader.ChunkDocument (fst pc) (snd pc))
            (rangeMap docs) [])
  end.

End Load.
End LoaderFS.

(** ** cmd/minirag: findSurroundingChunks and main *)

Module CliMain.

(** The first index whose chunk has the path and the offset of the
    target, counted from [i]; -1 when there is none. *)
Fixpoint findTarget (chunks : list Chunk.t) (target : Chunk.t) (i : Z) : Z :=
  match chunks with
  | [] => -1
  | chunk :: chunks' =>
      if eqString (Chunk.Path chunk) (Chunk.Path target)
         && (Chunk.Offset chunk =? Chunk.Offset target)
      then i
      else findTarget chunks' target (i + 1)
  end.

(** One iteration of [for i := start; i < end; i++]; the indices are
    within the slice. *)
Definition collectStep (chunks : list Chunk.t) (target : Chunk.t)
    (acc : option (list Chunk.t)) (i : nat) : option (list Chunk.t) :=
  result ← acc;
  chunk ← chunks !! i;
  if eqString (Chunk.Path chunk) (Chunk.Path target)
  then Some (result ++ [chunk])
  else Some result.

(** findSurroundingChunks returns chunks before and after the target
    chunk from the same file. *)
Definition findSurroundingChunks {F : Type} (data : EmbeddingData.t F)
    (target : Chunk.t) (contextSize : Z) : option (list Chunk.t) :=
  let chunks := EmbeddingData.Chunks data in
  let targetIdx := findTarget chunks target 0 in
  if targetIdx =? -1 then Some [target]
  else
    let start := wrapInt (targetIdx - contextSize) in
    let start := if start <? 0 then 0 else start in
    let end_ := wrapInt (wrapInt (targetIdx + contextSize) + 1) in
    let end_ := if Z.of_nat (length chunks) <? end_ then Z.of_nat (length chunks) else end_ in
    fold_left (collectStep chunks target)
      (seq (Z.to_nat start) (Z.to_nat (end_ - start))) (Some []).

(** How main ends. *)
Inductive outcome (F : Type) : Type :=
| Usage                                   (* no query: usage, exit status 1 *)
| Failed (message : gostring)             (* an error is printed, exit status 1 *)
| NoResults                               (* "No results found", exit status 0 *)
| Found (results : list (SearchResult.t F)) (* results are printed, exit status 0 *)
| Panicked.
Arguments Usage {F}.
Arguments Failed {F} message.
Arguments NoResults {F}.
Arguments Found {F} results.
Arguments Panicked {F}.

(** strings.Join(args, " ") *)
Fixpoint joinArgs (args : list gostring) : gostring :=
  match args with
  | [] => []
  | [a] => a
  | a :: args' => a ++ x20 :: joinArgs args'
  end.

(** main up to the display of the results: [args] are the arguments
    after the flags, [top] and [threshold] the values of the flags,
    [decoded] what the gob decoder makes of the embedded index, [key]
    the value of OPENAI_API_KEY and [client] the client for that key. *)
Definition main (sort_slice : SortSlice) (args : list gostring) (top : Z)
    (threshold : Binary32.float64)
    (decoded : result (EmbeddingData.t Binary32.float32))
    (key : gostring) (client : gostring -> gostring -> OpenAI.response)
  : outcome Binary32.float32 :=
  if (length args =? 0)%nat then Usage
  else
    let query := joinArgs args in
    match decoded with
    | Err message => Failed (bytes "Error loading index: " ++ message)
    | Ok embData =>
        let index := LoadIndex embData in
        if (length key =? 0)%nat
        then Failed (bytes "Error: OPENAI_API_KEY environment variable not set")
        else
          match OpenAI.NewOpenAIEmbedder key client (bytes "text-embedding-3-small") with
          | Err message => Failed (bytes "Error initializing embedder: " ++ message)
          | Ok emb =>
              match OpenAI.Embed emb query with
              | Err message => Failed (bytes "Error embedding query: " ++ message)
              | Ok queryEmbedding =>
                  match Search sort_slice index queryEmbedding top
                          (Binary32.to32 threshold) with
                  | None => Panicked
                  | Some results =>
                      if (length results =? 0)%nat then NoResults else Found results
                  end
              end
          end
    end.

End CliMain.

(** ** pkg/loader: what the loop of ChunkDocument maintains *)

Module LoaderInv.
Import Go Loader.

(** [h] is the empty heading, or the heading that ChunkDocument makes of
    one of the heading lines in [seen]. *)
Definition fromHeading (seen : list gostring) (h : gostring) : Prop :=
  h = [] \/
  exists line, In line seen /\ HasPrefixHash line = true /\
               h = TrimSpace (TrimLeftHash line).

(** What holds of a chunk in [chunks] while the current section starts
    at [offset]. *)
Definition chunkOk (path : gostring) (seen : list gostring) (offset : Z)
    (c : Chunk.t) : Prop :=
  Chunk.Path c = path /\
  0 <= Chunk.Offset c < offset /\
  (exists text, Chunk.Content c = TrimSpace text) /\
  fromHeading seen (Chunk.Heading c).

(** The state after the lines [seen] have been scanned. *)
Definition invariant (path : gostring) (seen : list gostring) (st : state) : Prop :=
  0 <= currentOffset st <= lineOffset st /\
  (currentContent st <> [] -> currentOffset st < lineOffset st) /\
  fromHeading seen (currentHeading st) /\
  (length (chunks st) <= length (filter HasPrefixHash seen))%nat /\
  StronglySorted Z.lt (map Chunk.Offset (chunks st)) /\
  Forall (chunkOk path seen (currentOffset st)) (chunks st).

(** A section with the heading [heading] that starts at [offset]: the
    text before the first heading line, or the section of a heading line
    of [seen], at the position that the loop has counted up to that
    line. *)
Definition placed (seen : list gostring) (heading : gostring) (offset : Z) : Prop :=
  (heading = [] /\ offset = 0) \/
  exists pre h post,
    seen = pre ++ h :: post /\ HasPrefixHash h = true /\
    heading = TrimSpace (TrimLeftHash h) /\ offset = offsetAfter pre.

End LoaderInv.
(* ===================================================================== *)
(** * Sample data *)
(* ===================================================================== *)

Definition chunkA : Chunk.t :=
  {| Chunk.Path := bytes "a.md"; Chunk.Content := bytes "alpha";
     Chunk.Heading := bytes "A"; Chunk.Offset := 0 |}.

Definition index1 : VectorIndex.t Binary32.float32 :=
  {| VectorIndex.Chunks := [chunkA];
     VectorIndex.Embeddings := [[Binary32.ofZ 1; Binary32.ofZ 0]];
     VectorIndex.Dimension := 2 |}.


Definition chunkB : Chunk.t :=
  {| Chunk.Path := bytes "a.md"; Chunk.Content := bytes "beta";
     Chunk.Heading := bytes "B"; Chunk.Offset := 12 |}.

Definition chunkC : Chunk.t :=
  {| Chunk.Path := bytes "b.md"; Chunk.Content := bytes "gamma";
     Chunk.Heading := bytes ""; Chunk.Offset := 0 |}.

(** Three entries in two dimensions: (1,0), (0,1) and (3,4). *)
Definition index2 : VectorIndex.t Binary32.float32 :=
  {| VectorIndex.Chunks := [chunkA; chunkB; chunkC];
     VectorIndex.Embeddings :=
       [[Binary32.ofZ 1; Binary32.ofZ 0];
        [Binary32.ofZ 0; Binary32.ofZ 1];
        [Binary32.ofZ 3; Binary32.ofZ 4]];
     VectorIndex.Dimension := 2 |}.

Definition query2 : list Binary32.float32 := [Binary32.ofZ 0; Binary32.ofZ 2].

(** "# A\nfoo\n\n# B\nbar\n" *)
Definition docAB : gostring :=
  bytes "# A" ++ [Go.newline] ++ bytes "foo" ++ [Go.newline] ++ [Go.newline] ++
  bytes "# B" ++ [Go.newline] ++ bytes "bar" ++ [Go.newline].

(** "# A\n# B\nbar\n": the first heading has no text of its own. *)
Definition docEmptySection : gostring :=
  bytes "# A" ++ [Go.newline] ++ bytes "# B" ++ [Go.newline] ++ bytes "bar" ++ [Go.newline].

(** "a\r\nb": two lines with a Windows line ending. *)
Definition docCRLF : gostring :=
  bytes "a" ++ [Go.carriageReturn; Go.newline] ++ bytes "b".

(** "Just plain text\nwith no headings.\n" *)
Definition docPlain : gostring :=
  bytes "Just plain text" ++ [Go.newline] ++ bytes "with no headings." ++ [Go.newline].


Definition service34 : OpenAI.OpenAIEmbedder :=
  {| OpenAI.client := fun _ _ =>
       OpenAI.ApiData [[Binary32.to64 (Binary32.ofZ 3); Binary32.to64 (Binary32.ofZ 4)]];
     OpenAI.model := bytes "text-embedding-3-small";
     OpenAI.dim := 1536 |}.

(** One chunk and no vector. *)
Definition brokenData : EmbeddingData.t Binary32.float32 :=
  {| EmbeddingData.Chunks := [chunkA];
     EmbeddingData.Embeddings := [];
     EmbeddingData.ModelInfo := bytes "openai-text-embedding-3-small";
     EmbeddingData.Dimension := 2 |}.

(** (0.6, 0.8) in float32. *)
Definition vec34 : list Binary32.float32 :=
  [S754_finite false 10066330 (-24); S754_finite false 13421773 (-24)].

(** A document of one chunk, before and after an edit, and the checkpoint
    of a finished run on the old text. *)
Definition chunkOld : Chunk.t :=
  {| Chunk.Path := bytes "a.md"; Chunk.Content := bytes "old text";
     Chunk.Heading := bytes "A"; Chunk.Offset := 0 |}.

Definition chunkNew : Chunk.t :=
  {| Chunk.Path := bytes "a.md"; Chunk.Content := bytes "new text";
     Chunk.Heading := bytes "A"; Chunk.Offset := 0 |}.

Definition cpOld : GenerateEmbeddings.checkpoint :=
  {| GenerateEmbeddings.Chunks := [chunkOld];
     GenerateEmbeddings.Embeddings := [[Binary32.ofZ 1; Binary32.ofZ 0]];
     GenerateEmbeddings.Completed := {[ 0 := true ]};
     GenerateEmbeddings.ModelInfo := bytes "openai-text-embedding-3-small";
     GenerateEmbeddings.Dimension := 1536 |}.

(** Three chunks, the second of which a checkpoint already covers. *)
Definition chunks3 : list Chunk.t := [chunkA; chunkB; chunkC].

Definition cpPartial : GenerateEmbeddings.checkpoint :=
  {| GenerateEmbeddings.Chunks := chunks3;
     GenerateEmbeddings.Embeddings := [[]; [Binary32.ofZ 1; Binary32.ofZ 0]; []];
     GenerateEmbeddings.Completed := {[ 1 := true ]};
     GenerateEmbeddings.ModelInfo := bytes "openai-text-embedding-3-small";
     GenerateEmbeddings.Dimension := 1536 |}.

(** Both goroutines are started before either call returns; the second
    result is recorded first. *)
Definition schedule2 : list Pool.event :=
  [Pool.Dispatch; Pool.Dispatch; Pool.Call 0; Pool.Call 1;
   Pool.Return 1; Pool.Record 1; Pool.Return 0; Pool.Record 0;
   Pool.Exit 0; Pool.Exit 1].

(** The outcome of the run on [chunks3] from [cpPartial] with the service
    that answers (3, 4): the slots 0 and 2 hold (0.6, 0.8), slot 1 keeps
    the vector of the checkpoint. *)
Definition outPartial : GenerateEmbeddings.outcome :=
  GenerateEmbeddings.IndexWritten
    {| EmbeddingData.Chunks := chunks3;
       EmbeddingData.Embeddings := [vec34; [Binary32.ofZ 1; Binary32.ofZ 0]; vec34];
       EmbeddingData.ModelInfo := bytes "openai-text-embedding-3-small";
       EmbeddingData.Dimension := 1536 |}.

(** The state of that run when both calls are in flight. *)
Definition midRun : Pool.state GenerateEmbeddings.shared (result (list Binary32.float32)) :=
  {| Pool.next := 2; Pool.sem := 2;
     Pool.workers := [Pool.Calling; Pool.Calling];
     Pool.shared := GenerateEmbeddings.start chunks3 cpPartial (Some cpPartial);
     Pool.calls := [0; 2]%nat; Pool.recorded := [] |}.

(** The state of EmbedBatchWithProgress on two texts when the first call
    is in flight and the second goroutine has just been started. *)
Definition midBatch : Pool.state EmbedBatch.shared (result (list Binary32.float32)) :=
  {| Pool.next := 2; Pool.sem := 2;
     Pool.workers := [Pool.Calling; Pool.Spawned];
     Pool.shared := EmbedBatch.start [bytes "doc1"; bytes "doc2"];
     Pool.calls := [0]%nat; Pool.recorded := [] |}.

(** The documents of loader_test.go. *)
Definition docTest : gostring :=
  bytes "# Introduction" ++ [Go.newline] ++
  bytes "This is the intro." ++ [Go.newline] ++ [Go.newline] ++
  bytes "## Setup" ++ [Go.newline] ++
  bytes "How to set up." ++ [Go.newline] ++ [Go.newline] ++
  bytes "Some more setup info." ++ [Go.newline] ++ [Go.newline] ++
  bytes "## Usage" ++ [Go.newline] ++
  bytes "How to use it." ++ [Go.newline].

Definition docTestPlain : gostring := bytes "Just plain text with no headings.".

(** A document of heading lines only. *)
Definition docHeadings : gostring := bytes "# A" ++ [Go.newline] ++ bytes "## B".

(** What WalkDir finds in a directory "docs" with a subdirectory, two
    markdown files and a text file; [walkBroken] has a file that cannot
    be read before the last one. *)
Definition relDocs (root path : gostring) : result gostring :=
  Ok (drop (length root + 1) path).

Definition visitDir : LoaderFS.visit :=
  {| LoaderFS.path := bytes "docs"; LoaderFS.err := None;
     LoaderFS.isDir := true; LoaderFS.read := Err (bytes "is a directory") |}.

Definition visitA : LoaderFS.visit :=
  {| LoaderFS.path := bytes "docs/a.md"; LoaderFS.err := None;
     LoaderFS.isDir := false; LoaderFS.read := Ok docAB |}.

Definition visitTxt : LoaderFS.visit :=
  {| LoaderFS.path := bytes "docs/notes.txt"; LoaderFS.err := None;
     LoaderFS.isDir := false; LoaderFS.read := Ok (bytes "# not markdown") |}.

Definition visitBroken : LoaderFS.visit :=
  {| LoaderFS.path := bytes "docs/b.md"; LoaderFS.err := None;
     LoaderFS.isDir := false; LoaderFS.read := Err (bytes "permission denied") |}.

Definition visitP : LoaderFS.visit :=
  {| LoaderFS.path := bytes "docs/p.md"; LoaderFS.err := None;
     LoaderFS.isDir := false; LoaderFS.read := Ok docPlain |}.

Definition walkDocs : list LoaderFS.visit := [visitDir; visitA; visitTxt; visitP].

(** Two chunks, the second with no text: Embed refuses it. The run from
    scratch stops with one error and this checkpoint. *)
Definition chunkBlank : Chunk.t :=
  {| Chunk.Path := bytes "b.md"; Chunk.Content := [];
     Chunk.Heading := bytes "B"; Chunk.Offset := 0 |}.

Definition chunksBlank : list Chunk.t := [chunkA; chunkBlank].

Definition errsBlank : list GenerateEmbeddings.embedError :=
  [{| GenerateEmbeddings.errIndex := 1%nat;
      GenerateEmbeddings.errPath := bytes "b.md";
      GenerateEmbeddings.errCause := bytes "cannot embed empty text" |}].

Definition cpBlank : GenerateEmbeddings.checkpoint :=
  {| GenerateEmbeddings.Chunks := chunksBlank;
     GenerateEmbeddings.Embeddings := [vec34; []];
     GenerateEmbeddings.Completed := {[ 0 := true ]};
     GenerateEmbeddings.ModelInfo := bytes "openai-text-embedding-3-small";
     GenerateEmbeddings.Dimension := 1536 |}.

(** The index that the run from scratch on [chunkA] and [chunkB] writes. *)
Definition dataAB : EmbeddingData.t Binary32.float32 :=
  {| EmbeddingData.Chunks := [chunkA; chunkB];
     EmbeddingData.Embeddings := [vec34; vec34];
     EmbeddingData.ModelInfo := bytes "openai-text-embedding-3-small";
     EmbeddingData.Dimension := 1536 |}.

(** The index data for [chunkA], [chunkB] and [chunkC]. *)
Definition data3 : EmbeddingData.t Binary32.float32 :=
  {| EmbeddingData.Chunks := chunks3;
     EmbeddingData.Embeddings :=
       [[Binary32.ofZ 1; Binary32.ofZ 0];
        [Binary32.ofZ 0; Binary32.ofZ 1];
        [Binary32.ofZ 3; Binary32.ofZ 4]];
     EmbeddingData.ModelInfo := bytes "openai-text-embedding-3-small";
     EmbeddingData.Dimension := 2 |}.

(** A line of 65536 bytes, and text after it. *)
Definition longLine : gostring := replicate (Z.to_nat 65536) x61.

Definition docTail : gostring :=
  [Go.newline] ++ bytes "# C" ++ [Go.newline] ++ bytes "lost" ++ [Go.newline].

(** An embedder for the other model. *)
Definition serviceLarge : OpenAI.OpenAIEmbedder :=
  {| OpenAI.client := OpenAI.client service34;
     OpenAI.model := bytes "text-embedding-3-large";
     OpenAI.dim := 3072 |}.
(* ===================================================================== *)
(** * Facts about binary32 comparison *)
(* ===================================================================== *)

Module Binary32Facts.
Import Binary32.

(** Splits every float into its cases and every comparison of exponents
    and mantissas into its three outcomes. *)
Ltac sf_cases :=
  unfold SFltb, SFleb, SFeqb, SFcompare, is_nan;
  repeat match goal with
         | |- forall x : spec_float, _ => intros [[]|[]| |[] ? ?]
         end;
  simpl; try congruence;
  repeat match goal with
         | |- context [Z.compare ?a ?b] => destruct (Z.compare_spec a b)
         | |- context [Pos.compare_cont Eq ?a ?b] =>
             change (Pos.compare_cont Eq a b) with (Pos.compare a b);
             destruct (Pos.compare_spec a b)
         end;
  simpl; try congruence; try lia.

Lemma ltb_irrefl : forall x, SFltb x x = false.
Proof. sf_cases. Qed.

Lemma ltb_trans : forall x y z,
  SFltb x y = true -> SFltb y z = true -> SFltb x z = true.
Proof. sf_cases. Qed.

Lemma ltb_negtrans : forall x y z,
  is_nan x = false -> is_nan y = false -> is_nan z = false ->
  SFltb x y = false -> SFltb y z = false -> SFltb x z = false.
Proof. sf_cases. Qed.

Lemma leb_not_nan : forall t x, SFleb t x = true -> is_nan x = false.
Proof. sf_cases. Qed.

Lemma not_ltb_leb : forall x y,
  is_nan x = false -> is_nan y = false -> SFltb x y = false -> SFleb y x = true.
Proof. sf_cases. Qed.

End Binary32Facts.

(* ===================================================================== *)
(** * Properties of CosineSimilarity *)
(* ===================================================================== *)

Section CosineFacts.
Context {F : Type} {FA : FloatArith F}.

(** The loop over positions computes the three sums of the specification
    in one pass. [a1] and [b1] are the components already read. *)
Lemma cosine_loop : forall (a2 b2 a1 b1 : list F) (d nA nB : F),
  length a1 = length b1 -> length a2 = length b2 ->
  fold_left (cosineStep (a1 ++ a2) (b1 ++ b2)) (seq (length a1) (length a2))
            (Some (d, nA, nB))
  = Some (fold_left (fun s xy => fadd s (fmul (fst xy) (snd xy))) (combine a2 b2) d,
          fold_left (fun s x => fadd s (fmul x x)) a2 nA,
          fold_left (fun s x => fadd s (fmul x x)) b2 nB).
Proof.
  induction a2 as [|x a2 IH]; intros [|y b2] a1 b1 d nA nB H1 H2;
    simpl in H2; try discriminate.
  - reflexivity.
  - cbn [length seq fold_left combine].
    unfold cosineStep at 2. cbn [mbind option_bind].
    rewrite (list_lookup_middle a1 a2 x (length a1) eq_refl).
    rewrite (list_lookup_middle b1 b2 y (length a1) H1).
    cbn [mbind option_bind fst snd].
    replace (a1 ++ x :: a2) with ((a1 ++ [x]) ++ a2) by (rewrite <- app_assoc; reflexivity).
    replace (b1 ++ y :: b2) with ((b1 ++ [y]) ++ b2) by (rewrite <- app_assoc; reflexivity).
    replace (S (length a1)) with (length (a1 ++ [x])) by (rewrite length_app; simpl; lia).
    apply IH.
    + rewrite !length_app. simpl. lia.
    + lia.
Qed.

Lemma cosine_sums : forall a b : list F,
  length a = length b ->
  fold_left (cosineStep a b) (seq 0 (length a)) (Some (fzero, fzero, fzero))
  = Some (dot a b, sumsq a, sumsq b).
Proof.
  intros a b H.
  exact (cosine_loop a b [] [] fzero fzero fzero eq_refl H).
Qed.

(** CosineSimilarity always returns a value, and which one. *)
Lemma CosineSimilarity_cases : forall a b : list F,
  CosineSimilarity a b = Some (cosineValue a b).
Proof.
  intros a b. unfold CosineSimilarity, cosineValue.
  destruct (Nat.eqb_spec (length a) (length b)) as [E|E]; cbn [negb].
  - rewrite (cosine_sums a b E). cbn [mbind option_bind].
    destruct (feqb (sumsq a) fzero || feqb (sumsq b) fzero); reflexivity.
  - reflexivity.
Qed.

End CosineFacts.

(** The float32 sum of squares of a vector of zeros is +0. *)
Lemma sumsq_zeros_from : forall a : list Binary32.float32,
  Forall (fun x => Binary32.is_zero x = true) a ->
  fold_left (fun s x => fadd s (fmul x x)) a Binary32.zero = Binary32.zero.
Proof.
  induction 1 as [|x a Hx _ IH]; cbn [fold_left].
  - reflexivity.
  - destruct x as [s| | |]; try discriminate.
    replace (fadd Binary32.zero (fmul (S754_zero s) (S754_zero s))) with Binary32.zero
      by (destruct s; reflexivity).
    exact IH.
Qed.

(** C2. CosineSimilarity never panics and returns a float32 [r]:
    [r] is 0 when the two lengths differ; [r] is 0 when the lengths agree
    and the squared norm (the float32 sum of squares) of either vector is
    zero, which is the case in particular when either vector consists of
    zeros; otherwise [r] is the dot product divided by the product of the
    two Euclidean norms, all computed in float32 (the square roots through
    float64, as [math.Sqrt] does). *)
Theorem CosineSimilarity_spec : forall a b : list Binary32.float32,
  exists r : Binary32.float32,
    CosineSimilarity a b = Some r /\
    (length a <> length b -> r = Binary32.zero) /\
    (length a = length b ->
       SFeqb (sumsq a) Binary32.zero = true \/ SFeqb (sumsq b) Binary32.zero = true ->
       r = Binary32.zero) /\
    (length a = length b ->
       Forall (fun x => Binary32.is_zero x = true) a \/
       Forall (fun x => Binary32.is_zero x = true) b ->
       r = Binary32.zero) /\
    (length a = length b ->
       SFeqb (sumsq a) Binary32.zero = false ->
       SFeqb (sumsq b) Binary32.zero = false ->
       r = Binary32.div (dot a b) (Binary32.mul (norm a) (norm b))).
Proof.
  intros a b. eexists. split; [apply CosineSimilarity_cases|].
  assert (Hz : forall v : list Binary32.float32,
             Forall (fun x => Binary32.is_zero x = true) v ->
             SFeqb (sumsq v) Binary32.zero = true).
  { intros v Hv. unfold sumsq.
    change (@fzero _ binary32) with Binary32.zero.
    rewrite (sumsq_zeros_from v Hv). reflexivity. }
  assert (Hcase : length a = length b ->
            SFeqb (sumsq a) Binary32.zero = true \/ SFeqb (sumsq b) Binary32.zero = true ->
            cosineValue a b = Binary32.zero).
  { intros E H. unfold cosineValue. rewrite (proj2 (Nat.eqb_eq _ _) E). cbn [negb].
    change (@feqb _ binary32) with SFeqb.
    change (@fzero _ binary32) with Binary32.zero.
    destruct H as [H|H]; rewrite H; [reflexivity|].
    rewrite orb_true_r. reflexivity. }
  repeat split.
  - intros Hne. unfold cosineValue. rewrite (proj2 (Nat.eqb_neq _ _) Hne). reflexivity.
  - exact Hcase.
  - intros E [H|H]; apply Hcase; auto.
  - intros E HA HB. unfold cosineValue.
    rewrite (proj2 (Nat.eqb_eq _ _) E). cbn [negb].
    change (@feqb _ binary32) with SFeqb.
    change (@fzero _ binary32) with Binary32.zero.
    rewrite HA, HB. reflexivity.
Qed.

(** Some values: a vector against itself, two orthogonal vectors, (0, 2)
    against (3, 4), vectors of different lengths, and a zero vector. *)
Example CosineSimilarity_values :
  CosineSimilarity [Binary32.ofZ 3; Binary32.ofZ 4] [Binary32.ofZ 3; Binary32.ofZ 4]
    = Some (Binary32.ofZ 1) /\
  CosineSimilarity [Binary32.ofZ 1; Binary32.ofZ 0] [Binary32.ofZ 0; Binary32.ofZ 1]
    = Some Binary32.zero /\
  CosineSimilarity [Binary32.ofZ 0; Binary32.ofZ 2] [Binary32.ofZ 3; Binary32.ofZ 4]
    = Some (S754_finite false 13421773 (-24)) /\
  CosineSimilarity [Binary32.ofZ 1] [Binary32.ofZ 1; Binary32.ofZ 0]
    = Some Binary32.zero /\
  CosineSimilarity [Binary32.ofZ 0; Binary32.ofZ 0] [Binary32.ofZ 3; Binary32.ofZ 4]
    = Some Binary32.zero.
Proof. repeat split. Qed.

(* ===================================================================== *)
(** * The sort contract is met by insertion sort *)
(* ===================================================================== *)

Section InsertionSort.
Context {A : Type} (less : A -> A -> bool).

Lemma insert_by_perm : forall (x : A) (l : list A),
  Permutation (insert_by less x l) (x :: l).
Proof.
  intros x l. induction l as [|y t IH]; simpl.
  - reflexivity.
  - destruct (less y x).
    + rewrite IH. apply perm_swap.
    + reflexivity.
Qed.

Lemma insertion_sort_perm : forall l : list A,
  Permutation (insertion_sort A less l) l.
Proof.
  induction l as [|x l IH]; simpl.
  - reflexivity.
  - rewrite insert_by_perm. constructor. exact IH.
Qed.

Lemma insert_by_sorted : forall (l0 : list A) (x : A) (l : list A),
  strict_weak less l0 -> In x l0 -> (forall y, In y l -> In y l0) ->
  StronglySorted (fun a b => less b a = false) l ->
  StronglySorted (fun a b => less b a = false) (insert_by less x l).
Proof.
  intros l0 x l (Hirr & Htr & Hneg) Hx.
  induction l as [|y t IH]; intros Hin Hs; simpl.
  - constructor; constructor.
  - inversion Hs as [|? ? Hst Hall]; subst.
    assert (Hy : In y l0) by (apply Hin; left; reflexivity).
    assert (Ht : forall z, In z t -> In z l0) by (intros z Hz; apply Hin; right; exact Hz).
    destruct (less y x) eqn:E.
    + constructor.
      * apply IH; assumption.
      * apply Forall_forall. intros z Hz.
        apply (Permutation_in _ (insert_by_perm x t)) in Hz.
        destruct Hz as [<-|Hz].
        -- destruct (less x y) eqn:E2; [|reflexivity].
           rewrite <- (Hirr y Hy). symmetry. apply (Htr y x y); assumption.
        -- rewrite Forall_forall in Hall. apply Hall; exact Hz.
    + constructor.
      * exact Hs.
      * constructor; [exact E|].
        apply Forall_forall. intros z Hz.
        rewrite Forall_forall in Hall.
        apply (Hneg z y x); auto.
Qed.

Lemma insertion_sort_sorted : forall l : list A,
  strict_weak less l ->
  StronglySorted (fun a b => less b a = false) (insertion_sort A less l).
Proof.
  intros l Hsw.
  assert (G : forall l', (forall y, In y l' -> In y l) ->
            StronglySorted (fun a b => less b a = false) (insertion_sort A less l')).
  { induction l' as [|x l' IH]; intros Hin; simpl.
    - constructor.
    - apply (insert_by_sorted l).
      + exact Hsw.
      + apply Hin. left. reflexivity.
      + intros y Hy. apply Hin. right.
        apply (Permutation_in _ (insertion_sort_perm l')). exact Hy.
      + apply IH. intros y Hy. apply Hin. right. exact Hy. }
  apply G. auto.
Qed.

End InsertionSort.

Lemma insertion_sort_contract : sort_contract insertion_sort.
Proof.
  split.
  - intros A less l. apply insertion_sort_perm.
  - intros A less l. apply insertion_sort_sorted.
Qed.

(* ===================================================================== *)
(** * Properties of Search *)
(* ===================================================================== *)

Lemma StronglySorted_weaken {A : Type} (R R' : A -> A -> Prop) (l : list A) :
  (forall x y, In x l -> In y l -> R x y -> R' x y) ->
  StronglySorted R l -> StronglySorted R' l.
Proof.
  intros H Hs. induction Hs as [|x l Hs IH Hall].
  - constructor.
  - constructor.
    + apply IH. intros a b Ha Hb. apply H; right; assumption.
    + rewrite Forall_forall in *. intros y Hy.
      apply H; [left; reflexivity | right; exact Hy | apply Hall; exact Hy].
Qed.

Section SearchLoop.
Context {F : Type} {FA : FloatArith F}.

(** The loop of Search collects, in index order, the entries that reach
    the threshold. [c1] and [e1] are the entries already visited. *)
Lemma search_loop : forall (q : list F) (threshold : F) (c2 : list Chunk.t)
    (e2 : list (list F)) (c1 : list Chunk.t) (e1 : list (list F))
    (dim : Z) (acc : list (SearchResult.t F)),
  length c1 = length e1 -> (length c2 <= length e2)%nat ->
  fold_left
    (searchStep {| VectorIndex.Chunks := c1 ++ c2;
                   VectorIndex.Embeddings := e1 ++ e2;
                   VectorIndex.Dimension := dim |} q threshold)
    (seq (length c1) (length c2)) (Some acc)
  = Some (acc ++ List.filter (fun r => fleb threshold (SearchResult.Score r))
            (map (fun ce => {| SearchResult.Chunk := fst ce;
                               SearchResult.Score := cosineValue q (snd ce) |})
                 (combine c2 e2))).
Proof.
  intros q threshold.
  induction c2 as [|c c2 IH]; intros e2 c1 e1 dim acc H1 H2.
  - simpl. rewrite app_nil_r. reflexivity.
  - destruct e2 as [|e e2]; [simpl in H2; lia|].
    cbn [length seq fold_left combine map List.filter fst snd].
    unfold searchStep at 2.
    cbn [mbind option_bind VectorIndex.Chunks VectorIndex.Embeddings].
    rewrite (list_lookup_middle c1 c2 c (length c1) eq_refl).
    rewrite (list_lookup_middle e1 e2 e (length c1) H1).
    cbn [mbind option_bind].
    rewrite CosineSimilarity_cases. cbn [mbind option_bind SearchResult.Score].
    replace (c1 ++ c :: c2) with ((c1 ++ [c]) ++ c2) by (rewrite <- app_assoc; reflexivity).
    replace (e1 ++ e :: e2) with ((e1 ++ [e]) ++ e2) by (rewrite <- app_assoc; reflexivity).
    replace (S (length c1)) with (length (c1 ++ [c])) by (rewrite length_app; simpl; lia).
    assert (L1 : length (c1 ++ [c]) = length (e1 ++ [e]))
      by (rewrite !length_app; simpl; lia).
    assert (L2 : (length c2 <= length e2)%nat) by (simpl in H2; lia).
    destruct (fleb threshold (cosineValue q e)).
    + rewrite (IH e2 (c1 ++ [c]) (e1 ++ [e]) dim _ L1 L2).
      rewrite <- app_assoc. reflexivity.
    + rewrite (IH e2 (c1 ++ [c]) (e1 ++ [e]) dim _ L1 L2). reflexivity.
Qed.

Lemma search_collects : forall (index : VectorIndex.t F) (q : list F) (threshold : F),
  (length (VectorIndex.Chunks index) <= length (VectorIndex.Embeddings index))%nat ->
  fold_left (searchStep index q threshold)
    (seq 0 (length (VectorIndex.Chunks index))) (Some [])
  = Some (matches index q threshold).
Proof.
  intros [cs es dim] q threshold H.
  exact (search_loop q threshold cs es [] [] dim [] eq_refl H).
Qed.

End SearchLoop.

Section SearchFacts.
Variable sort_slice : SortSlice.
Hypothesis sort_slice_ok : sort_contract sort_slice.

(** C7. A query vector whose length differs from the dimension of the
    index gives the empty result, for every index, every [topK] and every
    threshold; the search does not panic. *)
Theorem Search_wrong_dimension :
  forall (index : VectorIndex.t Binary32.float32)
         (queryEmbedding : list Binary32.float32) (topK : Z)
         (threshold : Binary32.float32),
    Z.of_nat (length queryEmbedding) <> VectorIndex.Dimension index ->
    Search sort_slice index queryEmbedding topK threshold = Some [].
Proof.
  intros index q topK threshold Hne.
  unfold Search.
  destruct (Z.eqb_spec (Z.of_nat (length q)) (VectorIndex.Dimension index)) as [E|E].
  - contradiction.
  - reflexivity.
Qed.

(** The scores that pass the threshold test are not NaN, and on them the
    comparison handed to [sort.Slice] is a strict weak ordering. *)
Lemma matches_not_nan : forall (index : VectorIndex.t Binary32.float32)
    (q : list Binary32.float32) (threshold : Binary32.float32) r,
  In r (matches index q threshold) ->
  Binary32.is_nan (SearchResult.Score r) = false.
Proof.
  intros index q threshold r Hr.
  unfold matches in Hr. apply filter_In in Hr. destruct Hr as [_ Hr].
  exact (Binary32Facts.leb_not_nan _ _ Hr).
Qed.

Lemma byScoreDesc_strict_weak : forall (index : VectorIndex.t Binary32.float32)
    (q : list Binary32.float32) (threshold : Binary32.float32),
  strict_weak byScoreDesc (matches index q threshold).
Proof.
  intros index q threshold. unfold byScoreDesc. repeat split.
  - intros x _. apply Binary32Facts.ltb_irrefl.
  - intros x y z _ _ _ Hxy Hyz.
    exact (Binary32Facts.ltb_trans _ _ _ Hyz Hxy).
  - intros x y z Hx Hy Hz Hxy Hyz.
    apply (Binary32Facts.ltb_negtrans _ (SearchResult.Score y));
      eauto using matches_not_nan.
Qed.

(** C1. For an index that holds a vector for every chunk and a query
    vector of the index's dimension, Search returns the entries of the
    index whose cosine similarity to the query is at least the threshold
    (each paired with that similarity), ordered by score from high to low,
    cut to the first [topK] when [topK > 0] and complete when
    [topK <= 0]. The order among equal scores is whatever [sort.Slice]
    leaves. *)
Theorem Search_spec :
  forall (index : VectorIndex.t Binary32.float32)
         (queryEmbedding : list Binary32.float32) (topK : Z)
         (threshold : Binary32.float32),
    Z.of_nat (length queryEmbedding) = VectorIndex.Dimension index ->
    (length (VectorIndex.Chunks index) <= length (VectorIndex.Embeddings index))%nat ->
    exists sorted : list (SearchResult.t Binary32.float32),
      Permutation sorted (matches index queryEmbedding threshold) /\
      StronglySorted
        (fun x y => SFleb (SearchResult.Score y) (SearchResult.Score x) = true) sorted /\
      Search sort_slice index queryEmbedding topK threshold
      = Some (if 0 <? topK then take (Z.to_nat topK) sorted else sorted).
Proof.
  intros index q topK threshold Hdim Hlen.
  destruct sort_slice_ok as [Hperm Hsorted].
  exists (sort_slice _ byScoreDesc (matches index q threshold)).
  split; [apply Hperm|]. split.
  - apply (StronglySorted_weaken (fun x y => byScoreDesc y x = false)).
    + intros x y Hx Hy Hxy. unfold byScoreDesc in Hxy.
      apply Binary32Facts.not_ltb_leb.
      * apply (matches_not_nan index q threshold).
        exact (Permutation_in _ (Hperm _ byScoreDesc _) Hx).
      * apply (matches_not_nan index q threshold).
        exact (Permutation_in _ (Hperm _ byScoreDesc _) Hy).
      * exact Hxy.
    + apply Hsorted. apply byScoreDesc_strict_weak.
  - unfold Search.
    rewrite (proj2 (Z.eqb_eq _ _) Hdim). cbn [negb].
    rewrite (search_collects index q threshold Hlen). cbn [mbind option_bind].
    set (sorted := sort_slice _ byScoreDesc (matches index q threshold)).
    destruct (Z.ltb_spec 0 topK) as [Hpos|Hpos]; cbn [andb]; [|reflexivity].
    destruct (Z.ltb_spec topK (Z.of_nat (length sorted))) as [Hlt|Hge]; [reflexivity|].
    rewrite take_ge by lia. reflexivity.
Qed.

End SearchFacts.

Lemma Search_wrong_dimension_witness :
  Search insertion_sort index1 [Binary32.ofZ 1] 5 Binary32.zero = Some [].
Proof.
  apply (Search_wrong_dimension insertion_sort index1 [Binary32.ofZ 1] 5 Binary32.zero).
  vm_compute. discriminate.
Defined.

Lemma Search_spec_witness :
  exists sorted : list (SearchResult.t Binary32.float32),
    Permutation sorted (matches index2 query2 Binary32.zero) /\
    StronglySorted
      (fun x y => SFleb (SearchResult.Score y) (SearchResult.Score x) = true) sorted /\
    Search insertion_sort index2 query2 1 Binary32.zero
    = Some (if 0 <? 1 then take (Z.to_nat 1) sorted else sorted).
Proof.
  apply (Search_spec insertion_sort insertion_sort_contract index2 query2 1 Binary32.zero).
  - reflexivity.
  - vm_compute. lia.
Defined.

(** The index of three entries searched with the query (0, 2): all
    entries in the order of their scores 1, 0.8 and 0; the best two; and
    those of score at least 0.5 when [topK] is 0. *)
Example Search_values :
  option_map (map SearchResult.Chunk) (Search insertion_sort index2 query2 0 Binary32.zero)
    = Some [chunkB; chunkC; chunkA] /\
  option_map (map SearchResult.Chunk) (Search insertion_sort index2 query2 2 Binary32.zero)
    = Some [chunkB; chunkC] /\
  option_map (map SearchResult.Chunk)
    (Search insertion_sort index2 query2 0 (Binary32.div (Binary32.ofZ 1) (Binary32.ofZ 2)))
    = Some [chunkB; chunkC] /\
  option_map (map SearchResult.Chunk) (Search insertion_sort index2 query2 (-1) Binary32.zero)
    = Some [chunkB; chunkC; chunkA].
Proof. repeat split. Qed.

(* ===================================================================== *)
(** * Facts about TrimSpace and the line scanner *)
(* ===================================================================== *)

Module GoFacts.
Import Go.

Lemma space2_ascii : forall b0 c, isASCIISpace c = true -> isSpace2 b0 c = false.
Proof.
  intros b0 c Hc. unfold isSpace2.
  destruct c; try discriminate Hc; cbn; apply andb_false_r.
Qed.

Lemma space3_ascii : forall b0 b1 c, isASCIISpace c = true -> isSpace3 b0 b1 c = false.
Proof.
  intros b0 b1 c Hc. unfold isSpace3.
  destruct c; try discriminate Hc; cbn; rewrite ?andb_false_r; reflexivity.
Qed.

(** A white-space byte added at the end stays, unless the whole string
    is white space. *)
Lemma trimLeftSpace_snoc_bounded : forall (n : nat) (s : gostring) (c : byte),
  (length s <= n)%nat -> isASCIISpace c = true ->
  trimLeftSpace (s ++ [c]) = trimLeftSpace s ++ [c] \/
  (trimLeftSpace s = [] /\ trimLeftSpace (s ++ [c]) = []).
Proof.
  induction n as [|n IH]; intros s c Hn Hc.
  - destruct s; [|simpl in Hn; lia].
    right. simpl. rewrite Hc. split; reflexivity.
  - destruct s as [|b0 r0].
    { right. simpl. rewrite Hc. split; reflexivity. }
    cbn [app trimLeftSpace].
    destruct (isASCIISpace b0).
    { apply IH; [simpl in Hn; lia | exact Hc]. }
    destruct r0 as [|b1 r1].
    { cbn [app]. rewrite (space2_ascii b0 c Hc). left. reflexivity. }
    cbn [app].
    destruct (isSpace2 b0 b1).
    { apply IH; [simpl in Hn; lia | exact Hc]. }
    destruct r1 as [|b2 r2].
    { cbn [app]. rewrite (space3_ascii b0 b1 c Hc). left. reflexivity. }
    cbn [app].
    destruct (isSpace3 b0 b1 b2).
    { apply IH; [simpl in Hn; lia | exact Hc]. }
    left. reflexivity.
Qed.

Lemma trimRightSpace_snoc : forall (s : gostring) (c : byte),
  isASCIISpace c = true -> trimRightSpace (s ++ [c]) = trimRightSpace s.
Proof.
  intros s c Hc. unfold trimRightSpace.
  rewrite rev_app_distr. cbn [rev app trimRightSpaceRev]. rewrite Hc. reflexivity.
Qed.

Lemma TrimSpace_snoc : forall (s : gostring) (c : byte),
  isASCIISpace c = true -> TrimSpace (s ++ [c]) = TrimSpace s.
Proof.
  intros s c Hc. unfold TrimSpace.
  destruct (trimLeftSpace_snoc_bounded (length s) s c (le_n _) Hc) as [E|[E1 E2]].
  - rewrite E. apply trimRightSpace_snoc. exact Hc.
  - rewrite E1, E2. reflexivity.
Qed.

Lemma TrimSpace_cons : forall (s : gostring) (c : byte),
  isASCIISpace c = true -> TrimSpace (c :: s) = TrimSpace s.
Proof.
  intros s c Hc. unfold TrimSpace. cbn [trimLeftSpace]. rewrite Hc. reflexivity.
Qed.

Lemma TrimSpace_newlines : forall (j : nat) (s : gostring),
  TrimSpace (repeat newline j ++ s) = TrimSpace s.
Proof.
  induction j as [|j IH]; intros s; cbn [repeat app].
  - reflexivity.
  - rewrite TrimSpace_cons by reflexivity. apply IH.
Qed.

(** dropCR takes away one final '\r' or nothing. *)
Lemma dropCR_cases : forall line : gostring,
  dropCR line = line \/ line = dropCR line ++ [carriageReturn].
Proof.
  intros line. unfold dropCR.
  destruct (rev line) as [|b r] eqn:E; [left; reflexivity|].
  destruct (Byte.eqb b carriageReturn) eqn:Eb; [|left; reflexivity].
  right. apply Byte.byte_dec_bl in Eb. subst b.
  rewrite <- (rev_involutive line), E. reflexivity.
Qed.

Lemma noCRLF_app_r : forall l1 l2 : gostring,
  noCRLF (l1 ++ l2) = true -> noCRLF l2 = true.
Proof.
  induction l1 as [|b l1 IH]; intros l2 H; [exact H|].
  cbn [app noCRLF] in H. apply andb_prop in H as [_ H]. apply IH. exact H.
Qed.

Lemma dropCR_before_newline : forall (line rest : gostring),
  noCRLF (line ++ newline :: rest) = true -> dropCR line = line.
Proof.
  intros line rest H.
  destruct (dropCR_cases line) as [E|E]; [exact E|].
  rewrite E in H. rewrite <- app_assoc in H. apply noCRLF_app_r in H.
  discriminate H.
Qed.

(** Without a '\r' before a '\n' and without an overlong line, the lines
    of the scanner, each followed by '\n', are the input up to white
    space at the end. [acc] is the input before the current line. *)
Lemma scanFrom_trim : forall (rest line acc : gostring),
  noCRLF (line ++ rest) = true ->
  linesFit (Z.of_nat (length line)) rest = true ->
  TrimSpace (acc ++ unlines (scanFrom line rest)) = TrimSpace (acc ++ line ++ rest).
Proof.
  induction rest as [|b rest IH]; intros line acc Hcr Hfit.
  - rewrite app_nil_r. cbn [scanFrom]. destruct line as [|x l]; [reflexivity|].
    unfold unlines. cbn [map concat]. rewrite app_nil_r, app_assoc.
    rewrite TrimSpace_snoc by reflexivity.
    destruct (dropCR_cases (x :: l)) as [E|E].
    + rewrite E. reflexivity.
    + rewrite E at 2. rewrite app_assoc.
      rewrite TrimSpace_snoc by reflexivity. reflexivity.
  - cbn [scanFrom linesFit] in *.
    destruct (Byte.eqb b newline) eqn:Eb.
    + apply Byte.byte_dec_bl in Eb. subst b.
      rewrite (dropCR_before_newline line rest Hcr).
      unfold unlines. cbn [map concat]. fold (unlines (scanFrom [] rest)).
      replace (acc ++ (line ++ [newline]) ++ unlines (scanFrom [] rest))
        with ((acc ++ line ++ [newline]) ++ unlines (scanFrom [] rest))
        by (rewrite <- !app_assoc; reflexivity).
      rewrite (IH [] (acc ++ line ++ [newline])).
      * rewrite <- !app_assoc. reflexivity.
      * apply (noCRLF_app_r (line ++ [newline])). rewrite <- app_assoc. exact Hcr.
      * exact Hfit.
    + destruct (MaxScanTokenSize <=? Z.of_nat (length line) + 1) eqn:Em; [discriminate|].
      rewrite (IH (line ++ [b]) acc).
      * rewrite <- !app_assoc. reflexivity.
      * rewrite <- app_assoc. exact Hcr.
      * rewrite length_app. cbn [length].
        replace (Z.of_nat (length line + 1)) with (Z.of_nat (length line) + 1) by lia.
        exact Hfit.
Qed.

Lemma TrimSpace_unlines : forall content : gostring,
  noCRLF content = true ->
  linesFit 0 content = true ->
  TrimSpace (unlines (scanLines content)) = TrimSpace content.
Proof.
  intros content Hcr Hfit.
  exact (scanFrom_trim content [] [] Hcr Hfit).
Qed.

End GoFacts.

(* ===================================================================== *)
(** * Properties of ChunkDocument *)
(* ===================================================================== *)

Module LoaderFacts.
Import Go Loader.

Lemma run_app : forall path st l1 l2,
  run path st (l1 ++ l2) = run path (run path st l1) l2.
Proof. intros. unfold run. apply fold_left_app. Qed.

(** Lines that are no headings only extend the text of the current
    section. *)
Lemma run_body : forall (path : gostring) (body : list gostring) (st : state),
  Forall (fun l => HasPrefixHash l = false) body ->
  run path st body =
  {| chunks := chunks st;
     currentHeading := currentHeading st;
     currentContent := fold_left appendLine body (currentContent st);
     currentOffset := currentOffset st;
     lineOffset := fold_left (fun o line => o + Z.of_nat (length line) + 1) body
                     (lineOffset st) |}.
Proof.
  intros path body. induction body as [|l body IH]; intros st Hb.
  - destruct st; reflexivity.
  - inversion Hb as [|? ? Hl Hb']; subst.
    unfold run in *. cbn [fold_left]. rewrite (IH _ Hb').
    unfold scanStep. rewrite Hl. reflexivity.
Qed.

Lemma lineOffset_run : forall (path : gostring) (lines : list gostring) (st : state),
  lineOffset (run path st lines)
  = fold_left (fun o line => o + Z.of_nat (length line) + 1) lines (lineOffset st).
Proof.
  intros path lines. induction lines as [|l lines IH]; intros st.
  - reflexivity.
  - unfold run in *. cbn [fold_left]. rewrite IH.
    unfold scanStep. destruct (HasPrefixHash l); reflexivity.
Qed.

(** Chunks are only ever added at the end. *)
Lemma flushChunk_keeps : forall path st c,
  In c (chunks st) -> In c (chunks (flushChunk path st)).
Proof.
  intros path st c H. unfold flushChunk.
  destruct (0 <? length (currentContent st))%nat; [|exact H].
  cbn [chunks]. apply in_or_app. left. exact H.
Qed.

Lemma scanStep_keeps : forall path st line c,
  In c (chunks st) -> In c (chunks (scanStep path st line)).
Proof.
  intros path st line c H. unfold scanStep.
  destruct (HasPrefixHash line); cbn [chunks]; [apply flushChunk_keeps|]; exact H.
Qed.

Lemma run_keeps : forall path lines st c,
  In c (chunks st) -> In c (chunks (run path st lines)).
Proof.
  intros path lines. induction lines as [|l lines IH]; intros st c H.
  - exact H.
  - unfold run in *. cbn [fold_left]. apply IH. apply scanStep_keeps. exact H.
Qed.

(** The text of a section is empty exactly when all its lines are. *)
Lemma appendLine_nonempty : forall acc l, acc <> [] -> appendLine acc l <> [].
Proof.
  intros acc l H. unfold appendLine. destruct acc; [contradiction|].
  cbn. discriminate.
Qed.

Lemma fold_appendLine_nonempty : forall body acc,
  acc <> [] -> fold_left appendLine body acc <> [].
Proof.
  induction body as [|l body IH]; intros acc H; cbn [fold_left].
  - exact H.
  - apply IH. apply appendLine_nonempty. exact H.
Qed.

Lemma sectionText_nonempty : forall body : list gostring,
  Exists (fun l => l <> []) body -> sectionText body <> [].
Proof.
  unfold sectionText. induction 1 as [l body Hl | l body _ IH]; cbn [fold_left].
  - apply fold_appendLine_nonempty. unfold appendLine. cbn. exact Hl.
  - destruct l as [|b l].
    + exact IH.
    + apply fold_appendLine_nonempty. unfold appendLine. cbn. discriminate.
Qed.

Lemma length_pos_nonempty : forall s : gostring,
  s <> [] -> (0 <? length s)%nat = true.
Proof. intros [|b s] H; [contradiction|reflexivity]. Qed.

(** From the section text back to the lines. *)
Lemma fold_appendLine_unlines : forall body acc,
  acc <> [] ->
  fold_left appendLine body acc ++ [newline] = acc ++ [newline] ++ unlines body.
Proof.
  induction body as [|l body IH]; intros acc H; cbn [fold_left].
  - unfold unlines. cbn. reflexivity.
  - rewrite IH by (apply appendLine_nonempty; exact H).
    unfold appendLine. rewrite (length_pos_nonempty acc H).
    unfold unlines. cbn [map concat]. rewrite <- !app_assoc. reflexivity.
Qed.

Lemma sectionText_unlines : forall body : list gostring,
  sectionText body <> [] ->
  exists j : nat, unlines body = repeat newline j ++ sectionText body ++ [newline].
Proof.
  unfold sectionText. induction body as [|l body IH]; intros H; cbn [fold_left] in *.
  - contradiction.
  - destruct l as [|b l].
    + change (appendLine [] []) with (@nil byte) in *.
      destruct (IH H) as [j Hj]. exists (S j).
      unfold unlines in *. cbn [map concat app repeat]. rewrite Hj. reflexivity.
    + exists 0%nat. cbn [repeat app].
      change (appendLine [] (b :: l)) with (b :: l) in *.
      rewrite fold_appendLine_unlines by discriminate.
      unfold unlines. cbn [map concat]. rewrite <- !app_assoc. reflexivity.
Qed.

Lemma TrimSpace_sectionText : forall content : gostring,
  noCRLF content = true ->
  linesFit 0 content = true ->
  sectionText (scanLines content) <> [] ->
  TrimSpace (sectionText (scanLines content)) = TrimSpace content.
Proof.
  intros content Hcr Hfit Hne.
  rewrite <- (GoFacts.TrimSpace_unlines content Hcr Hfit).
  destruct (sectionText_unlines _ Hne) as [j Hj]. rewrite Hj.
  rewrite GoFacts.TrimSpace_newlines.
  rewrite GoFacts.TrimSpace_snoc by reflexivity. reflexivity.
Qed.

(** What ChunkDocument returns for an input without heading lines. *)
Lemma plain_document_chunk : forall path content : gostring,
  Forall (fun l => HasPrefixHash l = false) (scanLines content) ->
  ChunkDocument path content =
  [{| Chunk.Path := path;
      Chunk.Content :=
        match sectionText (scanLines content) with
        | [] => TrimSpace content
        | text => TrimSpace text
        end;
      Chunk.Heading := [];
      Chunk.Offset := 0 |}].
Proof.
  intros path content H. unfold ChunkDocument.
  fold (run path initial (scanLines content)).
  rewrite (run_body path _ initial H). cbn [chunks currentContent initial].
  fold (sectionText (scanLines content)).
  unfold flushChunk. cbn [currentContent].
  destruct (sectionText (scanLines content)) as [|b t]; reflexivity.
Qed.

Lemma ChunkDocument_nonempty : forall path content : gostring,
  ChunkDocument path content <> [].
Proof.
  intros path content. unfold ChunkDocument.
  destruct (chunks _) as [|c cs] eqn:E; cbn; discriminate.
Qed.


Lemma offsetAfter_run : forall path pre,
  lineOffset (run path initial pre) = offsetAfter pre.
Proof. intros. rewrite lineOffset_run. reflexivity. Qed.

(** A heading line followed by a section with text yields its chunk,
    whatever came before and whatever comes after. *)
Lemma section_chunk : forall (path : gostring) (pre : list gostring) (h : gostring)
    (body rest : list gostring),
  HasPrefixHash h = true ->
  Forall (fun l => HasPrefixHash l = false) body ->
  Exists (fun l => l <> []) body ->
  rest = [] \/ (exists h' rest', rest = h' :: rest' /\ HasPrefixHash h' = true) ->
  In {| Chunk.Path := path;
        Chunk.Content := TrimSpace (sectionText body);
        Chunk.Heading := TrimSpace (TrimLeftHash h);
        Chunk.Offset := offsetAfter pre |}
     (chunks (flushChunk path (run path initial (pre ++ h :: body ++ rest)))).
Proof.
  intros path pre h body rest Hh Hbody Hne Hrest.
  rewrite run_app. change (h :: body ++ rest) with ([h] ++ body ++ rest).
  rewrite !run_app.
  set (st1 := run path initial pre).
  assert (E3 : run path (run path st1 [h]) body =
    {| chunks := chunks (flushChunk path st1);
       currentHeading := TrimSpace (TrimLeftHash h);
       currentContent := sectionText body;
       currentOffset := offsetAfter pre;
       lineOffset := fold_left (fun o line => o + Z.of_nat (length line) + 1) body
                       (offsetAfter pre + Z.of_nat (length h) + 1) |}).
  { rewrite (run_body path body _ Hbody).
    unfold run at 1 2 3 4 5. cbn [fold_left]. unfold scanStep. rewrite Hh.
    cbn [chunks currentHeading currentContent currentOffset lineOffset].
    unfold st1. rewrite offsetAfter_run. reflexivity. }
  rewrite E3. clear E3.
  set (st3 := {| chunks := chunks (flushChunk path st1);
                 currentHeading := TrimSpace (TrimLeftHash h);
                 currentContent := sectionText body;
                 currentOffset := offsetAfter pre;
                 lineOffset := _ |}).
  assert (Hflush : In {| Chunk.Path := path;
                         Chunk.Content := TrimSpace (sectionText body);
                         Chunk.Heading := TrimSpace (TrimLeftHash h);
                         Chunk.Offset := offsetAfter pre |}
                      (chunks (flushChunk path st3))).
  { unfold flushChunk. cbn [currentContent st3].
    rewrite (length_pos_nonempty _ (sectionText_nonempty body Hne)).
    cbn [chunks currentHeading currentContent currentOffset].
    apply in_or_app. right. left. reflexivity. }
  destruct Hrest as [->|(h' & rest' & -> & Hh')].
  - exact Hflush.
  - apply flushChunk_keeps. unfold run at 1. cbn [fold_left].
    apply run_keeps. unfold scanStep. rewrite Hh'. cbn [chunks]. exact Hflush.
Qed.

End LoaderFacts.

(** C10 as stated fails: for "a\r\nb", which has no heading line, the
    single chunk holds "a\nb", and the trimmed content is "a\r\nb". *)
Lemma ChunkDocument_plain_counterexample :
  Forall (fun l => Go.HasPrefixHash l = false) (Go.scanLines docCRLF) /\
  Loader.ChunkDocument (bytes "t.md") docCRLF <>
  [{| Chunk.Path := bytes "t.md";
      Chunk.Content := Go.TrimSpace docCRLF;
      Chunk.Heading := [];
      Chunk.Offset := 0 |}].
Proof.
  split.
  - vm_compute. repeat constructor.
  - vm_compute. discriminate.
Qed.

(** C10, amended. ChunkDocument returns at least one chunk for every path
    and every content, the empty one included. When no scanned line is a
    heading, the result is exactly one chunk with empty Heading and
    Offset 0; its Content is the trimmed text gathered from the scanned
    lines (or the trimmed content when that text is empty), and this is
    the whole trimmed content whenever the content has no carriage return
    directly before a newline and no line of [MaxScanTokenSize] bytes or
    more. *)
Theorem ChunkDocument_plain_spec : forall path content : gostring,
  Loader.ChunkDocument path content <> [] /\
  (Forall (fun l => Go.HasPrefixHash l = false) (Go.scanLines content) ->
   exists text : gostring,
     Loader.ChunkDocument path content =
       [{| Chunk.Path := path; Chunk.Content := text;
           Chunk.Heading := []; Chunk.Offset := 0 |}] /\
     (text = Go.TrimSpace (Loader.sectionText (Go.scanLines content)) \/
      (Loader.sectionText (Go.scanLines content) = [] /\ text = Go.TrimSpace content)) /\
     (Go.noCRLF content = true -> Go.linesFit 0 content = true ->
      text = Go.TrimSpace content)).
Proof.
  intros path content. split; [apply LoaderFacts.ChunkDocument_nonempty|].
  intros H. eexists. split; [apply (LoaderFacts.plain_document_chunk path content H)|].
  destruct (Loader.sectionText (Go.scanLines content)) as [|b t] eqn:E.
  - split; [right; split; reflexivity|]. intros _ _. reflexivity.
  - split; [left; reflexivity|]. intros Hcr Hfit. rewrite <- E.
    apply LoaderFacts.TrimSpace_sectionText; [exact Hcr|exact Hfit|].
    rewrite E. discriminate.
Qed.

Lemma ChunkDocument_plain_spec_witness :
  Loader.ChunkDocument (bytes "t.md") docPlain =
  [{| Chunk.Path := bytes "t.md"; Chunk.Content := Go.TrimSpace docPlain;
      Chunk.Heading := []; Chunk.Offset := 0 |}].
Proof.
  destruct (ChunkDocument_plain_spec (bytes "t.md") docPlain) as [_ H].
  destruct H as (text & E & _ & Htext).
  - vm_compute. repeat constructor.
  - rewrite E. rewrite Htext; reflexivity.
Defined.

(** C8 as stated fails: in "# A\n# B\nbar\n" the line "# A" is a heading,
    and no chunk of the result has the heading "A". *)
Lemma ChunkDocument_heading_counterexample :
  In (bytes "# A") (Go.scanLines docEmptySection) /\
  Loader.isHeading (bytes "# A") /\
  ~ exists c : Chunk.t,
      In c (Loader.ChunkDocument (bytes "t.md") docEmptySection) /\
      Chunk.Heading c = Go.TrimSpace (Go.TrimLeftHash (bytes "# A")).
Proof.
  split; [vm_compute; left; reflexivity|].
  split; [reflexivity|].
  intros (c & Hin & Hc). vm_compute in Hin.
  destruct Hin as [<-|[]]. vm_compute in Hc. discriminate Hc.
Qed.

(** C8, amended. A heading line whose section (the lines up to the next
    heading line or the end of the input) contains a non-empty line
    produces a chunk with that line's text, stripped of the leading '#'
    characters and of the surrounding white space, as Heading, with the
    trimmed text of the section as Content and the position of the
    heading line as Offset. The input "# A\nfoo\n\n# B\nbar\n" yields
    exactly two chunks, with headings "A" and "B" and contents "foo" and
    "bar". *)
Theorem ChunkDocument_heading_spec :
  (forall path : gostring,
     Loader.ChunkDocument path docAB =
     [{| Chunk.Path := path; Chunk.Content := bytes "foo";
         Chunk.Heading := bytes "A"; Chunk.Offset := 0 |};
      {| Chunk.Path := path; Chunk.Content := bytes "bar";
         Chunk.Heading := bytes "B"; Chunk.Offset := 9 |}]) /\
  (forall (path content : gostring) (pre : list gostring) (h : gostring)
          (body rest : list gostring),
     Go.scanLines content = pre ++ h :: body ++ rest ->
     Loader.isHeading h ->
     Forall (fun l => ~ Loader.isHeading l) body ->
     Exists (fun l => l <> []) body ->
     rest = [] \/ (exists h' rest', rest = h' :: rest' /\ Loader.isHeading h') ->
     In {| Chunk.Path := path;
           Chunk.Content := Go.TrimSpace (Loader.sectionText body);
           Chunk.Heading := Go.TrimSpace (Go.TrimLeftHash h);
           Chunk.Offset := Loader.offsetAfter pre |}
        (Loader.ChunkDocument path content)).
Proof.
  split.
  - intros path. reflexivity.
  - intros path content pre h body rest Hlines Hh Hbody Hne Hrest.
    assert (Hbody' : Forall (fun l => Go.HasPrefixHash l = false) body).
    { eapply Forall_impl; [|exact Hbody]. intros l Hl. unfold Loader.isHeading in Hl.
      destruct (Go.HasPrefixHash l); [exfalso; apply Hl; reflexivity|reflexivity]. }
    pose proof (LoaderFacts.section_chunk path pre h body rest Hh Hbody' Hne Hrest) as Hin.
    unfold Loader.ChunkDocument. rewrite Hlines.
    fold (Loader.run path Loader.initial (pre ++ h :: body ++ rest)).
    destruct (Loader.chunks _) as [|c cs] eqn:E; [destruct Hin|].
    exact Hin.
Qed.

Lemma ChunkDocument_heading_spec_witness :
  In {| Chunk.Path := bytes "t.md";
        Chunk.Content := Go.TrimSpace (Loader.sectionText [bytes "foo"; []]);
        Chunk.Heading := Go.TrimSpace (Go.TrimLeftHash (bytes "# A"));
        Chunk.Offset := Loader.offsetAfter [] |}
     (Loader.ChunkDocument (bytes "t.md") docAB).
Proof.
  apply (proj2 ChunkDocument_heading_spec (bytes "t.md") docAB []
           (bytes "# A") [bytes "foo"; []] [bytes "# B"; bytes "bar"]).
  - reflexivity.
  - reflexivity.
  - repeat constructor; discriminate.
  - left. discriminate.
  - right. exists (bytes "# B"), [bytes "bar"]. split; reflexivity.
Defined.


(** The two tests of loader_test.go. *)
Example TestChunkDocument :
  map Chunk.Heading (Loader.ChunkDocument (bytes "test.md") docTest)
  = [bytes "Introduction"; bytes "Setup"; bytes "Usage"] /\
  map Chunk.Content (Loader.ChunkDocument (bytes "test.md") docTest)
  = [bytes "This is the intro.";
     bytes "How to set up." ++ [Go.newline; Go.newline] ++ bytes "Some more setup info.";
     bytes "How to use it."] /\
  map Chunk.Offset (Loader.ChunkDocument (bytes "test.md") docTest) = [0; 35; 83].
Proof. repeat split. Qed.

Example TestChunkDocument_NoHeadings :
  Loader.ChunkDocument (bytes "test.md") docTestPlain
  = [{| Chunk.Path := bytes "test.md";
        Chunk.Content := bytes "Just plain text with no headings.";
        Chunk.Heading := []; Chunk.Offset := 0 |}].
Proof. reflexivity. Qed.

(* ===================================================================== *)
(** * Properties of the embedders *)
(* ===================================================================== *)

Section NormalizeFacts.
Context {F : Type} {FA : FloatArith F}.

(** Changing every position in turn is a map. [pre] holds the positions
    already changed. *)
Lemma alter_loop : forall (f : F -> F) (suf pre : list F),
  fold_left (fun v i => alter f i v) (seq (length pre) (length suf)) (pre ++ suf)
  = pre ++ map f suf.
Proof.
  intros f. induction suf as [|x suf IH]; intros pre.
  - reflexivity.
  - cbn [length seq fold_left map].
    rewrite alter_app_r_alt by lia.
    replace (length pre - length pre)%nat with 0%nat by lia.
    cbn [alter list_alter].
    replace (pre ++ f x :: suf) with ((pre ++ [f x]) ++ suf)
      by (rewrite <- app_assoc; reflexivity).
    replace (S (length pre)) with (length (pre ++ [f x]))
      by (rewrite length_app; simpl; lia).
    rewrite IH. rewrite <- app_assoc. reflexivity.
Qed.

Lemma alter_all : forall (f : F -> F) (v : list F),
  fold_left (fun v i => alter f i v) (seq 0 (length v)) v = map f v.
Proof. intros f v. exact (alter_loop f v []). Qed.

(** l2normalize leaves a vector with zero sum of squares as it is and
    otherwise multiplies every component by the inverse of the root of
    that sum. *)
Lemma l2normalize_cases : forall v : list F,
  l2normalize v =
  if feqb (sumsq v) fzero then v
  else map (fun x => fmul x (frsqrt (sumsq v))) v.
Proof.
  intros v. unfold l2normalize. fold (sumsq v).
  destruct (feqb (sumsq v) fzero); [reflexivity|].
  apply alter_all.
Qed.

End NormalizeFacts.

(** ** Exact arithmetic: a normalized vector has norm 1 *)







(** The hash-based embedder divides by the sum of squares instead of its
    root: for the text "a" and dimension 1 the result has norm 1000/97 in
    exact arithmetic, and about 10.3 in float32. *)
Lemma SimpleEmbedder_not_normalized :
  Simple.Embed (F:=R) (Simple.NewSimpleEmbedder 1) (bytes "a") = Some [(1000 / 97)%R] /\
  Simple.Embed (F:=Binary32.float32) (Simple.NewSimpleEmbedder 1) (bytes "a")
  = Some [S754_finite false 10810062 (-20)].
Proof.
  split; [|reflexivity].
  unfold Simple.Embed. cbn [Simple.NewSimpleEmbedder Simple.dim Z.ltb Z.compare].
  replace (fold_left (Simple.hashStep {| Simple.dim := 1 |})
             (UTF8.rangeString (bytes "a"))
             (Some (replicate (Z.to_nat 1) fzero)))
    with (Some [(0 + 97 / 1000)%R]) by reflexivity.
  cbn [mbind option_bind fold_left length seq alter list_alter].
  change (@fltb R exact) with Exact.ltb. unfold Exact.ltb.
  cbn [fzero fone fadd fmul fdiv fofZ exact].
  destruct (Rlt_dec 0 (0 + (0 + 97 / 1000) * (0 + 97 / 1000))) as [_|Hn].
  - f_equal. f_equal. field.
  - exfalso. apply Hn. lra.
Qed.

(* ===================================================================== *)
(** * Properties of loading the index *)
(* ===================================================================== *)

(** C5 as stated fails: an index file with one chunk and no vector is
    loaded without any error. *)
Lemma loadIndex_counterexample :
  ~ Cli.wellFormed brokenData /\
  Cli.loadIndexStep (Ok brokenData) <> None.
Proof.
  split.
  - intros [H _]. discriminate H.
  - discriminate.
Qed.

(** C5, amended. Loading checks nothing: whatever record the decoder
    delivers, well-formed or not, becomes the index, with the chunks, the
    vectors and the dimension copied as they are; the only load error is
    a failure of the decoder itself. *)
Theorem loadIndex_copies :
  (forall message : gostring, Cli.loadIndexStep (Err message) = None) /\
  (forall embData : EmbeddingData.t Binary32.float32,
     exists index : VectorIndex.t Binary32.float32,
       Cli.loadIndexStep (Ok embData) = Some index /\
       VectorIndex.Chunks index = EmbeddingData.Chunks embData /\
       VectorIndex.Embeddings index = EmbeddingData.Embeddings embData /\
       VectorIndex.Dimension index = EmbeddingData.Dimension embData).
Proof.
  split.
  - intros message. reflexivity.
  - intros embData. exists (LoadIndex embData). repeat split.
Qed.

(** What the missing check leads to: the index loaded from a record with
    one chunk and no vector makes Search panic on a query of the right
    dimension. *)
Example Search_on_broken_index :
  Search insertion_sort (LoadIndex brokenData) [Binary32.ofZ 1; Binary32.ofZ 0] 5
    Binary32.zero = None.
Proof. reflexivity. Qed.


(** The dimension follows the model name, and a missing key is an
    error. *)
Example NewOpenAIEmbedder_values :
  (exists e, OpenAI.NewOpenAIEmbedder (bytes "sk-test") (OpenAI.client service34)
               (bytes "text-embedding-3-small") = Ok e /\
             OpenAI.Dimension e = 1536 /\
             OpenAI.ModelInfo e = bytes "openai-text-embedding-3-small") /\
  (exists e, OpenAI.NewOpenAIEmbedder (bytes "sk-test") (OpenAI.client service34)
               (bytes "text-embedding-3-large") = Ok e /\
             OpenAI.Dimension e = 3072) /\
  OpenAI.NewOpenAIEmbedder [] (OpenAI.client service34) (bytes "text-embedding-3-small")
  = Err (bytes "OPENAI_API_KEY environment variable not set").
Proof.
  repeat split; eexists; repeat split.
Qed.

(* ===================================================================== *)
(** * Properties of the worker pool *)
(* ===================================================================== *)

Module PoolFacts.
Import Pool.

(** Replacing one element changes a count by the difference it makes. *)
Lemma count_insert {A : Type} (P : A -> bool) (l : list A) (k : nat) (x y : A) :
  l !! k = Some x ->
  (length (List.filter P (<[k:=y]> l)) + (if P x then 1 else 0)
   = length (List.filter P l) + (if P y then 1 else 0))%nat.
Proof.
  intros H.
  assert (Hk : (k < length l)%nat) by (eapply lookup_lt_Some; exact H).
  rewrite insert_take_drop by exact Hk.
  pose proof (take_drop_middle l k x H) as E.
  rewrite <- E at 3.
  rewrite !List.filter_app. cbn [List.filter].
  destruct (P x), (P y); rewrite !length_app; cbn [length]; lia.
Qed.

Lemma count_calling_le_live {R : Type} (ws : list (phase R)) :
  (length (List.filter isCalling ws) <= length (List.filter isLive ws))%nat.
Proof.
  induction ws as [|p ws IH]; [reflexivity|].
  cbn [List.filter]. destruct p; cbn [isCalling isLive length]; lia.
Qed.

Lemma count_live_waiting {R : Type} (n : nat) :
  length (List.filter isLive (replicate n (@Waiting R))) = 0%nat.
Proof. induction n as [|n IH]; [reflexivity|exact IH]. Qed.

Section RunFacts.
Context {S R : Type}.
Variable work : list nat.
Variable call : nat -> R.
Variable record : nat -> R -> S -> S.

Lemma invariant_init : forall s0 : S, invariant work (init (R:=R) work s0).
Proof.
  intros s0. unfold invariant, init. cbn [next sem workers].
  rewrite length_replicate, count_live_waiting.
  repeat split; try lia.
  intros k _ Hk. apply lookup_replicate_2. exact Hk.
Qed.

(** A goroutine that moves from one program point to another, both
    live, leaves the count of tokens as it is. *)
Lemma invariant_move : forall (st : state S R) (k : nat) (p p' : phase R)
    (s' : S) (c' r' : list nat),
  invariant work st ->
  workers st !! k = Some p -> isLive p = true -> isLive p' = true ->
  invariant work {| next := next st; sem := sem st;
                    workers := <[k := p']> (workers st);
                    shared := s'; calls := c'; recorded := r' |}.
Proof.
  intros st k p p' s' c' r' (Hlen & Hnext & Hwait & Hsem & Hcap) Hk Hp Hp'.
  unfold invariant. cbn [next sem workers].
  rewrite length_insert.
  pose proof (count_insert isLive (workers st) k p p' Hk) as Hc.
  rewrite Hp, Hp' in Hc.
  repeat split; try lia.
  intros j Hj1 Hj2. destruct (Nat.eq_dec k j) as [->|Hne].
  - rewrite (Hwait j Hj1 Hj2) in Hk. injection Hk as <-. discriminate Hp.
  - rewrite list_lookup_insert_ne by exact Hne. apply Hwait; assumption.
Qed.

Lemma invariant_step : forall (ev : event) (st st' : state S R),
  invariant work st -> step work call record ev st = Some st' -> invariant work st'.
Proof.
  intros ev st st' Hinv Hstep.
  destruct ev as [|k|k|k|k]; cbn [step] in Hstep.
  - destruct (work !! next st) as [idx|] eqn:Ew; [|discriminate Hstep].
    cbn [mbind option_bind] in Hstep.
    destruct (Nat.ltb_spec (sem st) capacity) as [Hlt|]; [|discriminate Hstep].
    injection Hstep as <-.
    destruct Hinv as (Hlen & Hnext & Hwait & Hsem & Hcap).
    assert (Hn : (next st < length work)%nat) by (eapply lookup_lt_Some; exact Ew).
    pose proof (Hwait (next st) (le_n _) Hn) as Hw.
    pose proof (count_insert isLive (workers st) (next st) Waiting Spawned Hw) as Hc.
    cbn [isLive] in Hc.
    unfold invariant. cbn [next sem workers]. rewrite length_insert.
    repeat split; try lia.
    intros j Hj1 Hj2. rewrite list_lookup_insert_ne by lia. apply Hwait; lia.
  - destruct (work !! k) as [idx|]; [|discriminate Hstep].
    cbn [mbind option_bind] in Hstep.
    destruct (workers st !! k) as [[]|] eqn:Ek; try discriminate Hstep.
    injection Hstep as <-.
    exact (invariant_move st k Spawned Calling _ _ _ Hinv Ek eq_refl eq_refl).
  - destruct (work !! k) as [idx|]; [|discriminate Hstep].
    cbn [mbind option_bind] in Hstep.
    destruct (workers st !! k) as [[]|] eqn:Ek; try discriminate Hstep.
    injection Hstep as <-.
    exact (invariant_move st k Calling (Got (call idx)) _ _ _ Hinv Ek eq_refl eq_refl).
  - destruct (work !! k) as [idx|]; [|discriminate Hstep].
    cbn [mbind option_bind] in Hstep.
    destruct (workers st !! k) as [[| | |r| |]|] eqn:Ek; try discriminate Hstep.
    injection Hstep as <-.
    exact (invariant_move st k (Got r) Exiting _ _ _ Hinv Ek eq_refl eq_refl).
  - destruct (workers st !! k) as [[]|] eqn:Ek; try discriminate Hstep.
    injection Hstep as <-.
    destruct Hinv as (Hlen & Hnext & Hwait & Hsem & Hcap).
    pose proof (count_insert isLive (workers st) k Exiting Finished Ek) as Hc.
    cbn [isLive] in Hc.
    unfold invariant. cbn [next sem workers]. rewrite length_insert.
    repeat split; try lia.
    intros j Hj1 Hj2. destruct (Nat.eq_dec k j) as [->|Hne].
    + rewrite (Hwait j Hj1 Hj2) in Ek. discriminate Ek.
    + rewrite list_lookup_insert_ne by exact Hne. apply Hwait; assumption.
Qed.

Lemma invariant_exec : forall (schedule : list event) (st st' : state S R),
  invariant work st -> exec work call record schedule st = Some st' ->
  invariant work st'.
Proof.
  induction schedule as [|ev schedule IH]; intros st st' Hinv Hexec;
    cbn [exec] in Hexec.
  - injection Hexec as <-. exact Hinv.
  - destruct (step work call record ev st) as [st1|] eqn:E; [|discriminate Hexec].
    cbn [mbind option_bind] in Hexec.
    exact (IH st1 st' (invariant_step ev st st1 Hinv E) Hexec).
Qed.

(** In every state a schedule can reach, at most [capacity] calls of
    Embed are in flight. *)
Lemma inFlight_bounded : forall (s0 : S) (schedule : list event) (st : state S R),
  exec work call record schedule (init work s0) = Some st ->
  (inFlight st <= capacity)%nat.
Proof.
  intros s0 schedule st Hexec.
  destruct (invariant_exec schedule _ st (invariant_init s0) Hexec)
    as (_ & _ & _ & Hsem & Hcap).
  unfold inFlight. pose proof (count_calling_le_live (workers st)). lia.
Qed.

End RunFacts.
End PoolFacts.

(** C9. In every state that a run of the batch loop of
    cmd/generate-embeddings can reach, and in every state that a run of
    EmbedBatchWithProgress can reach, at most 10 calls of the embedding
    provider are in flight: a goroutine is started only after a token has
    been put into the channel [sem] of capacity 10, and the token is taken
    out only when the goroutine returns. *)
Theorem concurrency_cap :
  (forall (chunks : list Chunk.t) (emb : OpenAI.OpenAIEmbedder)
          (cp0 : GenerateEmbeddings.checkpoint)
          (file : option GenerateEmbeddings.checkpoint)
          (schedule : list Pool.event) st,
     Pool.exec (GenerateEmbeddings.toProcess chunks cp0)
       (GenerateEmbeddings.call emb chunks) (GenerateEmbeddings.record chunks)
       schedule
       (Pool.init (GenerateEmbeddings.toProcess chunks cp0)
          (GenerateEmbeddings.start chunks cp0 file)) = Some st ->
     (Pool.inFlight st <= 10)%nat) /\
  (forall (e : OpenAI.OpenAIEmbedder) (texts : list gostring)
          (schedule : list Pool.event) st,
     Pool.exec (seq 0 (length texts)) (EmbedBatch.call e texts) EmbedBatch.record
       schedule
       (Pool.init (seq 0 (length texts)) (EmbedBatch.start texts)) = Some st ->
     (Pool.inFlight st <= 10)%nat).
Proof.
  split.
  - intros chunks emb cp0 file schedule st H.
    exact (PoolFacts.inFlight_bounded _ _ _ _ schedule st H).
  - intros e texts schedule st H.
    exact (PoolFacts.inFlight_bounded _ _ _ _ schedule st H).
Qed.

(* ===================================================================== *)
(** * The traces of a run of the pool *)
(* ===================================================================== *)

Module TraceFacts.
Import Pool.

Section RunFacts.
Context {S R : Type}.
Variable work : list nat.
Variable call : nat -> R.
Variable record : nat -> R -> S -> S.
Hypothesis work_nodup : NoDup work.

Lemma reached_same : forall (P : phase R -> bool) (ws : list (phase R))
    (k0 : nat) (p p' : phase R) (i : nat),
  ws !! k0 = Some p -> P p = P p' ->
  reached work P (<[k0:=p']> ws) i <-> reached work P ws i.
Proof.
  intros P ws k0 p p' i Hk HP. unfold reached. split.
  - intros (k & q & Hw & Hq & HPq). destruct (Nat.eq_dec k0 k) as [->|Hne].
    + rewrite list_lookup_insert_eq in Hq by (eapply lookup_lt_Some; exact Hk).
      injection Hq as <-. exists k, p. rewrite HP. auto.
    + rewrite list_lookup_insert_ne in Hq by exact Hne. exists k, q. auto.
  - intros (k & q & Hw & Hq & HPq). destruct (Nat.eq_dec k0 k) as [->|Hne].
    + exists k, p'. rewrite list_lookup_insert_eq by (eapply lookup_lt_Some; exact Hk).
      rewrite Hk in Hq. injection Hq as <-. rewrite <- HP. auto.
    + exists k, q. rewrite list_lookup_insert_ne by exact Hne. auto.
Qed.

Lemma reached_new : forall (P : phase R -> bool) (ws : list (phase R))
    (k0 : nat) (p p' : phase R) (idx : nat),
  ws !! k0 = Some p -> work !! k0 = Some idx -> P p = false -> P p' = true ->
  ~ reached work P ws idx /\
  forall i, reached work P (<[k0:=p']> ws) i <-> reached work P ws i \/ i = idx.
Proof.
  intros P ws k0 p p' idx Hk Hw HP HP'. split.
  - intros (k & q & Hwk & Hq & HPq).
    assert (k = k0) as ->
      by exact (NoDup_lookup work k k0 idx (proj2 (NoDup_ListNoDup work) work_nodup) Hwk Hw).
    rewrite Hk in Hq. injection Hq as <-. congruence.
  - intros i. unfold reached. split.
    + intros (k & q & Hwk & Hq & HPq). destruct (Nat.eq_dec k0 k) as [->|Hne].
      * right. congruence.
      * left. rewrite list_lookup_insert_ne in Hq by exact Hne. exists k, q. auto.
    + intros [(k & q & Hwk & Hq & HPq)| ->].
      * destruct (Nat.eq_dec k0 k) as [->|Hne]; [congruence|].
        exists k, q. rewrite list_lookup_insert_ne by exact Hne. auto.
      * exists k0, p'. rewrite list_lookup_insert_eq by (eapply lookup_lt_Some; exact Hk).
        auto.
Qed.

Lemma NoDup_snoc : forall (l : list nat) (x : nat),
  NoDup l -> ~ In x l -> NoDup (l ++ [x]).
Proof.
  intros l x Hl Hx.
  apply (Permutation_NoDup (l := x :: l)).
  - apply Permutation_cons_append.
  - apply List.NoDup_cons; assumption.
Qed.

Lemma got_insert : forall (ws : list (phase R)) (k0 : nat) (p p' : phase R),
  ws !! k0 = Some p ->
  (forall k r, ws !! k = Some (Got r) -> exists i, work !! k = Some i /\ r = call i) ->
  (forall r, p' = Got r -> exists i, work !! k0 = Some i /\ r = call i) ->
  forall k r, <[k0:=p']> ws !! k = Some (Got r) ->
    exists i, work !! k = Some i /\ r = call i.
Proof.
  intros ws k0 p p' Hk Hgot Hnew k r H.
  destruct (Nat.eq_dec k0 k) as [->|Hne].
  - rewrite list_lookup_insert_eq in H by (eapply lookup_lt_Some; exact Hk).
    injection H as ->. apply Hnew. reflexivity.
  - rewrite list_lookup_insert_ne in H by exact Hne. apply Hgot. exact H.
Qed.

Lemma traced_init : forall s0 : S, traced work call record s0 (init (R:=R) work s0).
Proof.
  intros s0. unfold traced, init. cbn [calls recorded workers shared fold_left].
  repeat split; try apply List.NoDup_nil; try contradiction.
  - intros (k & p & _ & Hp & HP). apply lookup_replicate_1 in Hp as [-> _].
    discriminate HP.
  - intros (k & p & _ & Hp & HP). apply lookup_replicate_1 in Hp as [-> _].
    discriminate HP.
  - intros k r H. apply lookup_replicate_1 in H as [H _]. discriminate H.
Qed.

Lemma traced_step : forall (s0 : S) (ev : event) (st st' : state S R),
  invariant work st -> traced work call record s0 st ->
  step work call record ev st = Some st' ->
  traced work call record s0 st'.
Proof.
  intros s0 ev st st' Hinv (Hnc & Hnr & Hc & Hr & Hgot & Hsh) Hstep.
  destruct ev as [|k|k|k|k]; cbn [step] in Hstep.
  - destruct (work !! next st) as [idx|] eqn:Ew; [|discriminate Hstep].
    cbn [mbind option_bind] in Hstep.
    destruct (sem st <? capacity)%nat; [|discriminate Hstep].
    injection Hstep as <-.
    destruct Hinv as (_ & _ & Hwait & _).
    assert (Hw : workers st !! next st = Some Waiting)
      by (apply Hwait; [lia | eapply lookup_lt_Some; exact Ew]).
    unfold traced. cbn [calls recorded workers shared].
    repeat split; try assumption.
    + intros H. apply (reached_same wasCalled _ _ Waiting Spawned i Hw eq_refl).
      apply Hc. exact H.
    + intros H. apply Hc.
      apply (reached_same wasCalled _ _ Waiting Spawned i Hw eq_refl). exact H.
    + intros H. apply (reached_same wasRecorded _ _ Waiting Spawned i Hw eq_refl).
      apply Hr. exact H.
    + intros H. apply Hr.
      apply (reached_same wasRecorded _ _ Waiting Spawned i Hw eq_refl). exact H.
    + apply (got_insert _ _ Waiting Spawned Hw Hgot). intros r Hd. discriminate Hd.
  - destruct (work !! k) as [idx|] eqn:Ew; [|discriminate Hstep].
    cbn [mbind option_bind] in Hstep.
    destruct (workers st !! k) as [[]|] eqn:Ek; try discriminate Hstep.
    injection Hstep as <-.
    destruct (reached_new wasCalled _ k Spawned Calling idx Ek Ew eq_refl eq_refl)
      as [Hfresh Hnew].
    unfold traced. cbn [calls recorded workers shared].
    repeat split; try assumption.
    + apply NoDup_snoc; [exact Hnc|]. intros H. apply Hfresh. apply Hc. exact H.
    + intros H. apply Hnew. apply in_app_or in H as [H|[<-|[]]].
      * left. apply Hc. exact H.
      * right. reflexivity.
    + intros H. apply in_or_app. apply Hnew in H as [H| ->].
      * left. apply Hc. exact H.
      * right. left. reflexivity.
    + intros H. apply (reached_same wasRecorded _ _ Spawned Calling i Ek eq_refl).
      apply Hr. exact H.
    + intros H. apply Hr.
      apply (reached_same wasRecorded _ _ Spawned Calling i Ek eq_refl). exact H.
    + apply (got_insert _ _ Spawned Calling Ek Hgot). intros r Hd. discriminate Hd.
  - destruct (work !! k) as [idx|] eqn:Ew; [|discriminate Hstep].
    cbn [mbind option_bind] in Hstep.
    destruct (workers st !! k) as [[]|] eqn:Ek; try discriminate Hstep.
    injection Hstep as <-.
    unfold traced. cbn [calls recorded workers shared].
    repeat split; try assumption.
    + intros H. apply (reached_same wasCalled _ _ Calling (Got (call idx)) i Ek eq_refl).
      apply Hc. exact H.
    + intros H. apply Hc.
      apply (reached_same wasCalled _ _ Calling (Got (call idx)) i Ek eq_refl). exact H.
    + intros H. apply (reached_same wasRecorded _ _ Calling (Got (call idx)) i Ek eq_refl).
      apply Hr. exact H.
    + intros H. apply Hr.
      apply (reached_same wasRecorded _ _ Calling (Got (call idx)) i Ek eq_refl). exact H.
    + apply (got_insert _ _ Calling (Got (call idx)) Ek Hgot).
      intros r Hd. injection Hd as <-. exists idx. auto.
  - destruct (work !! k) as [idx|] eqn:Ew; [|discriminate Hstep].
    cbn [mbind option_bind] in Hstep.
    destruct (workers st !! k) as [[| | |r| |]|] eqn:Ek; try discriminate Hstep.
    injection Hstep as <-.
    destruct (reached_new wasRecorded _ k (Got r) Exiting idx Ek Ew eq_refl eq_refl)
      as [Hfresh Hnew].
    destruct (Hgot k r Ek) as (i0 & Hi0 & ->).
    assert (i0 = idx) as -> by congruence.
    unfold traced. cbn [calls recorded workers shared].
    repeat split; try assumption.
    + apply NoDup_snoc; [exact Hnr|]. intros H. apply Hfresh. apply Hr. exact H.
    + intros H. apply (reached_same wasCalled _ _ (Got (call idx)) Exiting i Ek eq_refl).
      apply Hc. exact H.
    + intros H. apply Hc.
      apply (reached_same wasCalled _ _ (Got (call idx)) Exiting i Ek eq_refl). exact H.
    + intros H. apply Hnew. apply in_app_or in H as [H|[<-|[]]].
      * left. apply Hr. exact H.
      * right. reflexivity.
    + intros H. apply in_or_app. apply Hnew in H as [H| ->].
      * left. apply Hr. exact H.
      * right. left. reflexivity.
    + apply (got_insert _ _ (Got (call idx)) Exiting Ek Hgot).
      intros r Hd. discriminate Hd.
    + rewrite fold_left_app. cbn [fold_left]. rewrite <- Hsh. reflexivity.
  - destruct (workers st !! k) as [[]|] eqn:Ek; try discriminate Hstep.
    injection Hstep as <-.
    unfold traced. cbn [calls recorded workers shared].
    repeat split; try assumption.
    + intros H. apply (reached_same wasCalled _ _ Exiting Finished i Ek eq_refl).
      apply Hc. exact H.
    + intros H. apply Hc.
      apply (reached_same wasCalled _ _ Exiting Finished i Ek eq_refl). exact H.
    + intros H. apply (reached_same wasRecorded _ _ Exiting Finished i Ek eq_refl).
      apply Hr. exact H.
    + intros H. apply Hr.
      apply (reached_same wasRecorded _ _ Exiting Finished i Ek eq_refl). exact H.
    + apply (got_insert _ _ Exiting Finished Ek Hgot). intros r Hd. discriminate Hd.
Qed.

Lemma traced_exec : forall (s0 : S) (schedule : list event) (st st' : state S R),
  invariant work st -> traced work call record s0 st ->
  exec work call record schedule st = Some st' ->
  traced work call record s0 st'.
Proof.
  intros s0. induction schedule as [|ev schedule IH]; intros st st' Hinv Htr Hexec;
    cbn [exec] in Hexec.
  - injection Hexec as <-. exact Htr.
  - destruct (step work call record ev st) as [st1|] eqn:E; [|discriminate Hexec].
    cbn [mbind option_bind] in Hexec.
    apply (IH st1 st').
    + exact (PoolFacts.invariant_step work call record ev st st1 Hinv E).
    + exact (traced_step s0 ev st st1 Hinv Htr E).
    + exact Hexec.
Qed.

(** When the run is over, every item has been called once and recorded
    once, and the shared data are what recording the results in some
    order of the items makes of the initial data. *)
Lemma finished_traces : forall (s0 : S) (schedule : list event) (st : state S R),
  exec work call record schedule (init work s0) = Some st ->
  finished work st = true ->
  Permutation (calls st) work /\
  Permutation (recorded st) work /\
  shared st = fold_left (fun s i => record i (call i) s) (recorded st) s0.
Proof.
  intros s0 schedule st Hexec Hfin.
  pose proof (PoolFacts.invariant_exec work call record schedule _ st
                (PoolFacts.invariant_init work s0) Hexec) as (Hlen & _).
  pose proof (traced_exec s0 schedule _ st (PoolFacts.invariant_init work s0)
                (traced_init s0) Hexec) as (Hnc & Hnr & Hc & Hr & _ & Hsh).
  unfold finished in Hfin. apply andb_prop in Hfin as [_ Hall].
  rewrite forallb_forall in Hall.
  assert (Hreach : forall (P : phase R -> bool), P Finished = true ->
            forall i, reached work P (workers st) i <-> In i work).
  { intros P HP i. split.
    - intros (k & p & Hw & _). apply list_elem_of_In.
      eapply list_elem_of_lookup_2. exact Hw.
    - intros Hi. apply list_elem_of_In in Hi.
      apply list_elem_of_lookup_1 in Hi as [k Hk].
      assert (Hkl : (k < length (workers st))%nat)
        by (rewrite Hlen; eapply lookup_lt_Some; exact Hk).
      apply lookup_lt_is_Some_2 in Hkl as [p Hp].
      exists k, p. split; [exact Hk|]. split; [exact Hp|].
      assert (Hin : In p (workers st))
        by (apply list_elem_of_In; eapply list_elem_of_lookup_2; exact Hp).
      specialize (Hall p Hin). destruct p; try discriminate Hall. exact HP. }
  repeat split.
  - apply Permutation.NoDup_Permutation; [exact Hnc|exact work_nodup|].
    intros i. rewrite Hc. apply Hreach. reflexivity.
  - apply Permutation.NoDup_Permutation; [exact Hnr|exact work_nodup|].
    intros i. rewrite Hr. apply Hreach. reflexivity.
  - exact Hsh.
Qed.

End RunFacts.
End TraceFacts.

(* ===================================================================== *)
(** * Properties of cmd/generate-embeddings *)
(* ===================================================================== *)

Lemma eqString_eq : forall a b : gostring, eqString a b = true <-> a = b.
Proof.
  induction a as [|x a IH]; intros [|y b]; cbn [eqString]; split; intros H;
    try discriminate H; try reflexivity.
  - apply andb_prop in H as [Hx Hab]. apply Byte.byte_dec_bl in Hx.
    apply IH in Hab. congruence.
  - injection H as -> ->. apply andb_true_intro. split.
    + apply Byte.byte_dec_lb. reflexivity.
    + apply IH. reflexivity.
Qed.

Module PipelineFacts.
Import GenerateEmbeddings.

Lemma toProcess_In : forall (chunks : list Chunk.t) (cp0 : checkpoint) (i : nat),
  In i (toProcess chunks cp0) <-> (i < length chunks)%nat /\ isCompleted cp0 i = false.
Proof.
  intros chunks cp0 i. unfold toProcess. rewrite filter_In, in_seq.
  destruct (isCompleted cp0 i); cbn [negb]; intuition (try lia; try discriminate).
Qed.

Lemma toProcess_NoDup : forall (chunks : list Chunk.t) (cp0 : checkpoint),
  NoDup (toProcess chunks cp0).
Proof. intros. unfold toProcess. apply List.NoDup_filter. apply seq_NoDup. Qed.

(** A checkpoint is taken over when it has as many chunks as the run and
    the same model; in every other case the run starts from an empty
    one, in which no index is completed. *)
Lemma selectCheckpoint_cases : forall (found : loaded) (chunks : list Chunk.t)
    (emb : OpenAI.OpenAIEmbedder),
  (exists existingCP, found = Existing existingCP /\
     length (Chunks existingCP) = length chunks /\
     ModelInfo existingCP = OpenAI.ModelInfo emb /\
     selectCheckpoint found chunks emb = existingCP) \/
  (selectCheckpoint found chunks emb = newCheckpoint chunks emb /\
   toProcess chunks (newCheckpoint chunks emb) = seq 0 (length chunks)).
Proof.
  intros found chunks emb.
  assert (Hfresh : toProcess chunks (newCheckpoint chunks emb) = seq 0 (length chunks)).
  { unfold toProcess. apply forallb_filter_id. apply forallb_forall. intros i _.
    unfold isCompleted, newCheckpoint. cbn [Completed].
    rewrite lookup_empty. reflexivity. }
  destruct found as [|msg|existingCP]; cbn [selectCheckpoint]; auto.
  unfold mismatch.
  destruct (Nat.eqb_spec (length (Chunks existingCP)) (length chunks)) as [El|El];
    cbn [negb orb]; auto.
  destruct (eqString (ModelInfo existingCP) (OpenAI.ModelInfo emb)) eqn:Em;
    cbn [negb]; auto.
  left. exists existingCP. apply eqString_eq in Em. auto.
Qed.

Section Recording.
Variable emb : OpenAI.OpenAIEmbedder.
Variable chunks : list Chunk.t.

(** Recording results one after the other keeps the chunks, the model and
    the number of slots, writes the vector of every successful item into
    its slot, leaves every other slot alone, and adds one error for every
    failed item. *)
Lemma fold_record : forall (order : list nat) (s : shared),
  panicked s = false ->
  (forall i, In i order -> (i < length (Embeddings (cp s)))%nat) ->
  let s' := fold_left (fun s i => record chunks i (call emb chunks i) s) order s in
  panicked s' = false /\
  Chunks (cp s') = Chunks (cp s) /\
  ModelInfo (cp s') = ModelInfo (cp s) /\
  Dimension (cp s') = Dimension (cp s) /\
  length (Embeddings (cp s')) = length (Embeddings (cp s)) /\
  omap (fun err => err) (errChan s')
    = omap (fun err => err) (errChan s) ++ errorsOf emb chunks order /\
  (forall j, ~ In j order -> Embeddings (cp s') !! j = Embeddings (cp s) !! j) /\
  (forall j v, In j order -> call emb chunks j = Ok v ->
     Embeddings (cp s') !! j = Some v).
Proof.
  induction order as [|i order IH]; intros s Hp Hrange; cbn zeta.
  - cbn [fold_left errorsOf omap]. rewrite app_nil_r.
    repeat split; auto. intros j v [].
  - cbn [fold_left].
    assert (Hi : (i < length (Embeddings (cp s)))%nat) by (apply Hrange; left; reflexivity).
    set (s1 := record chunks i (call emb chunks i) s).
    assert (H1 : panicked s1 = false /\
                 Chunks (cp s1) = Chunks (cp s) /\
                 ModelInfo (cp s1) = ModelInfo (cp s) /\
                 Dimension (cp s1) = Dimension (cp s) /\
                 length (Embeddings (cp s1)) = length (Embeddings (cp s)) /\
                 omap (fun err => err) (errChan s1)
                   = omap (fun err => err) (errChan s) ++ errorsOf emb chunks [i] /\
                 (forall j, j <> i -> Embeddings (cp s1) !! j = Embeddings (cp s) !! j) /\
                 (forall v, call emb chunks i = Ok v -> Embeddings (cp s1) !! i = Some v)).
    { assert (He : errorsOf emb chunks [i] =
                   match call emb chunks i with
                   | Err cause =>
                       [{| errIndex := i;
                           errPath := default [] (Chunk.Path <$> chunks !! i);
                           errCause := cause |}]
                   | Ok _ => []
                   end).
      { unfold errorsOf. cbn. destruct (call emb chunks i); reflexivity. }
      rewrite He. unfold s1, record.
      destruct (call emb chunks i) as [v|cause].
      - rewrite (proj2 (Nat.ltb_lt _ _) Hi).
        cbn [panicked cp Chunks ModelInfo Dimension Embeddings errChan].
        rewrite length_insert, omap_app.
        repeat split; auto.
        + intros j Hj. apply list_lookup_insert_ne. auto.
        + intros v' Hv. injection Hv as <-. apply list_lookup_insert_eq. exact Hi.
      - cbn [panicked cp errChan]. rewrite omap_app.
        repeat split; auto. intros v Hv. discriminate Hv. }
    destruct H1 as (Hp1 & Hc1 & Hm1 & Hd1 & Hl1 & He1 & Hne1 & Hok1).
    destruct (IH s1 Hp1) as (Hp2 & Hc2 & Hm2 & Hd2 & Hl2 & He2 & Hne2 & Hok2).
    { intros j Hj. rewrite Hl1. apply Hrange. right. exact Hj. }
    repeat split; try congruence.
    + rewrite He2, He1. rewrite <- app_assoc. f_equal.
      unfold errorsOf. cbn.
      destruct (call emb chunks i); reflexivity.
    + intros j Hj. rewrite Hne2 by (intros H; apply Hj; right; exact H).
      apply Hne1. intros ->. apply Hj. left. reflexivity.
    + intros j v Hj Hv.
      destruct (in_dec Nat.eq_dec j order) as [Hin|Hnin].
      * apply Hok2; assumption.
      * destruct Hj as [->|Hj]; [|contradiction].
        rewrite Hne2 by exact Hnin. apply Hok1. exact Hv.
Qed.

Lemma errorsOf_nil : forall order : list nat,
  errorsOf emb chunks order = [] ->
  forall i, In i order -> exists v, call emb chunks i = Ok v.
Proof.
  induction order as [|j order IH]; intros H i Hi; [destruct Hi|].
  unfold errorsOf in H. cbn in H.
  destruct (call emb chunks j) as [v|cause] eqn:E; [|discriminate H].
  destruct Hi as [<-|Hi]; [exists v; exact E|]. apply IH; assumption.
Qed.

End Recording.
End PipelineFacts.

(** ** The sequential schedule completes every run *)

Module ScheduleFacts.
Import Pool.

Lemma exec_app {S R : Type} (work : list nat) (call : nat -> R)
    (record : nat -> R -> S -> S) (a b : list event) (st : state S R) :
  exec work call record (a ++ b) st
  = exec work call record a st ≫= exec work call record b.
Proof.
  revert st. induction a as [|ev a IH]; intros st; cbn [app exec].
  - reflexivity.
  - destruct (step work call record ev st) as [st1|]; cbn [mbind option_bind].
    + apply IH.
    + reflexivity.
Qed.

Lemma lookup_behind {A : Type} (k : nat) (x p : A) (t : list A) :
  (replicate k x ++ p :: t) !! k = Some p.
Proof. apply list_lookup_middle. rewrite length_replicate. reflexivity. Qed.

Lemma insert_behind {A : Type} (k : nat) (x p q : A) (t : list A) :
  <[k:=q]> (replicate k x ++ p :: t) = replicate k x ++ q :: t.
Proof.
  rewrite insert_app_r_alt by (rewrite length_replicate; lia).
  rewrite length_replicate, Nat.sub_diag. reflexivity.
Qed.

Section RunFacts.
Context {S R : Type}.
Variable work : list nat.
Variable call : nat -> R.
Variable record : nat -> R -> S -> S.

(** One goroutine run from start to end while no other is live. *)
Lemma oneByOne_runs : forall (k idx : nat) (post : list (phase R)) (s : S)
    (c r : list nat),
  work !! k = Some idx ->
  exec work call record (oneByOne k)
    {| next := k; sem := 0; workers := replicate k Finished ++ Waiting :: post;
       shared := s; calls := c; recorded := r |}
  = Some {| next := Datatypes.S k; sem := 0;
            workers := replicate k Finished ++ Finished :: post;
            shared := record idx (call idx) s;
            calls := c ++ [idx]; recorded := r ++ [idx] |}.
Proof.
  intros k idx post s c r Hidx. unfold oneByOne.
  cbn [exec step next sem workers shared calls recorded].
  rewrite Hidx. cbn [mbind option_bind Nat.ltb Nat.leb capacity].
  cbn [exec step next sem workers shared calls recorded].
  repeat (rewrite ?insert_behind, ?lookup_behind;
          cbn [mbind option_bind next sem workers shared calls recorded Nat.pred]).
  reflexivity.
Qed.

Lemma sequential_from : forall (m k : nat) (st : state S R),
  (k + m = length work)%nat -> next st = k -> sem st = 0%nat ->
  workers st = replicate k Finished ++ replicate m Waiting ->
  exists st', exec work call record (concat (map oneByOne (seq k m))) st = Some st' /\
              next st' = length work /\
              workers st' = replicate (length work) Finished.
Proof.
  induction m as [|m IH]; intros k st Hkm Hnext Hsem Hws.
  - exists st. cbn [seq map concat exec]. rewrite Hws, Hnext.
    cbn [replicate]. rewrite app_nil_r.
    replace k with (length work) by lia. auto.
  - cbn [seq map concat]. rewrite exec_app.
    assert (Hk : (k < length work)%nat) by lia.
    apply lookup_lt_is_Some_2 in Hk as [idx Hidx].
    destruct st as [n se ws sh c r]. cbn [next sem workers] in Hnext, Hsem, Hws.
    subst n se ws. cbn [replicate].
    rewrite (oneByOne_runs k idx (replicate m Waiting) sh c r Hidx).
    cbn [mbind option_bind].
    apply IH; cbn [next sem workers]; try lia.
    rewrite replicate_S_end, <- app_assoc. reflexivity.
Qed.

Lemma sequential_finishes : forall s0 : S,
  exists st, exec work call record (sequential work) (init work s0) = Some st /\
             finished work st = true.
Proof.
  intros s0.
  destruct (sequential_from (length work) 0 (init work s0)) as (st & He & Hn & Hw);
    try reflexivity.
  exists st. split; [exact He|].
  unfold finished. rewrite Hn, Nat.eqb_refl, Hw. cbn [andb].
  apply forallb_forall. intros p Hp.
  apply list_elem_of_In, elem_of_replicate in Hp as [-> _]. reflexivity.
Qed.

End RunFacts.
End ScheduleFacts.

(** main returns for every input: one schedule that completes is the
    sequential one. *)
Lemma main_completes : forall (found : GenerateEmbeddings.loaded)
    (chunks : list Chunk.t) (emb : OpenAI.OpenAIEmbedder),
  exists r,
    GenerateEmbeddings.main found chunks emb
      (Pool.sequential
         (GenerateEmbeddings.toProcess chunks
            (GenerateEmbeddings.selectCheckpoint found chunks emb))) = Some r.
Proof.
  intros found chunks emb. unfold GenerateEmbeddings.main.
  destruct (length _ =? 0)%nat; [eexists; reflexivity|].
  destruct (ScheduleFacts.sequential_finishes
              (GenerateEmbeddings.toProcess chunks
                 (GenerateEmbeddings.selectCheckpoint found chunks emb))
              (GenerateEmbeddings.call emb chunks)
              (GenerateEmbeddings.record chunks)
              (GenerateEmbeddings.start chunks
                 (GenerateEmbeddings.selectCheckpoint found chunks emb)
                 (match found with
                  | GenerateEmbeddings.Existing c => Some c
                  | _ => None
                  end)))
    as (st & He & Hf).
  rewrite He. cbn [mbind option_bind]. rewrite Hf. eexists. reflexivity.
Qed.

(** C3: the code at the failing input. The checkpoint holds the chunk
    "old text", the run has the chunk "new text" at the same place: the
    chunk sequences differ, the checkpoint is taken over all the same,
    index 0 is skipped, no call is made, and the index that is written
    holds the old chunk with the old vector. *)
Theorem stale_checkpoint_resumed :
  GenerateEmbeddings.Chunks cpOld <> [chunkNew] /\
  GenerateEmbeddings.selectCheckpoint (GenerateEmbeddings.Existing cpOld)
    [chunkNew] service34 = cpOld /\
  GenerateEmbeddings.toProcess [chunkNew] cpOld = [] /\
  GenerateEmbeddings.main (GenerateEmbeddings.Existing cpOld) [chunkNew] service34 []
  = Some (GenerateEmbeddings.IndexWritten
            {| EmbeddingData.Chunks := [chunkOld];
               EmbeddingData.Embeddings := [[Binary32.ofZ 1; Binary32.ofZ 0]];
               EmbeddingData.ModelInfo := bytes "openai-text-embedding-3-small";
               EmbeddingData.Dimension := 1536 |}, []).
Proof.
  split; [discriminate|].
  split; [reflexivity|].
  split; reflexivity.
Qed.

(** C4. When the run takes over a checkpoint that has a slot for every
    chunk, the embedding provider is called exactly for the indices that
    the checkpoint does not mark as completed, once each, whatever the
    schedule of the goroutines; and when the run ends by writing the
    index, the index holds the chunks of the checkpoint and, for every
    index, its vector: the vector of the checkpoint, unchanged, for a
    completed index, and the vector that the provider returned for the
    chunk's content for every other index. *)
Theorem resume_spec :
  forall (cp0 : GenerateEmbeddings.checkpoint) (chunks : list Chunk.t)
         (emb : OpenAI.OpenAIEmbedder) (schedule : list Pool.event)
         (out : GenerateEmbeddings.outcome) (called : list nat),
    length (GenerateEmbeddings.Embeddings cp0) = length chunks ->
    GenerateEmbeddings.mismatch cp0 chunks emb = false ->
    GenerateEmbeddings.main (GenerateEmbeddings.Existing cp0) chunks emb schedule
      = Some (out, called) ->
    Permutation called (GenerateEmbeddings.toProcess chunks cp0) /\
    (forall i, In i (GenerateEmbeddings.toProcess chunks cp0) <->
               (i < length chunks)%nat /\ GenerateEmbeddings.isCompleted cp0 i = false) /\
    (forall embData, out = GenerateEmbeddings.IndexWritten embData ->
       EmbeddingData.Chunks embData = GenerateEmbeddings.Chunks cp0 /\
       forall i, (i < length chunks)%nat ->
         if GenerateEmbeddings.isCompleted cp0 i
         then EmbeddingData.Embeddings embData !! i
              = GenerateEmbeddings.Embeddings cp0 !! i
         else exists chunk v,
                chunks !! i = Some chunk /\
                OpenAI.Embed emb (Chunk.Content chunk) = Ok v /\
                EmbeddingData.Embeddings embData !! i = Some v).
Proof.
  intros cp0 chunks emb schedule out called Hslots Hmatch Hmain.
  split; [|split; [apply PipelineFacts.toProcess_In|]];
    unfold GenerateEmbeddings.main in Hmain;
    cbn [GenerateEmbeddings.selectCheckpoint] in Hmain; rewrite Hmatch in Hmain;
    set (work := GenerateEmbeddings.toProcess chunks cp0) in *;
    destruct (Nat.eqb_spec (length work) 0) as [Hzero|Hpos].
  - injection Hmain as <- <-. destruct work; [reflexivity|discriminate Hzero].
  - destruct (Pool.exec _ _ _ _ _) as [st|] eqn:Hexec; [|discriminate Hmain].
    cbn [mbind option_bind] in Hmain.
    destruct (Pool.finished work st) eqn:Hfin; [|discriminate Hmain].
    injection Hmain as _ <-.
    exact (proj1 (TraceFacts.finished_traces work _ _
                    (PipelineFacts.toProcess_NoDup chunks cp0) _ schedule st Hexec Hfin)).
  - injection Hmain as <- _. intros embData H. injection H as <-.
    split; [reflexivity|]. intros i Hi. cbn [EmbeddingData.Embeddings GenerateEmbeddings.assemble].
    destruct (GenerateEmbeddings.isCompleted cp0 i) eqn:Ec; [reflexivity|].
    assert (Hin : In i work) by (apply PipelineFacts.toProcess_In; auto).
    destruct work; [destruct Hin|discriminate Hzero].
  - destruct (Pool.exec _ _ _ _ _) as [st|] eqn:Hexec; [|discriminate Hmain].
    cbn [mbind option_bind] in Hmain.
    destruct (Pool.finished work st) eqn:Hfin; [|discriminate Hmain].
    injection Hmain as <- _.
    destruct (TraceFacts.finished_traces work _ _
                (PipelineFacts.toProcess_NoDup chunks cp0) _ schedule st Hexec Hfin)
      as (_ & Hrec & Hshared).
    set (s0 := GenerateEmbeddings.start chunks cp0 (Some cp0)) in *.
    destruct (PipelineFacts.fold_record emb chunks (Pool.recorded st) s0 eq_refl)
      as (Hp & Hc & _ & _ & _ & He & Hkeep & Hnew).
    { intros i Hi. cbn [s0 GenerateEmbeddings.start GenerateEmbeddings.cp].
      rewrite Hslots. apply (Permutation_in _ Hrec) in Hi.
      apply PipelineFacts.toProcess_In in Hi. tauto. }
    rewrite <- Hshared in Hp, Hc, He, Hkeep, Hnew.
    intros embData Hout. unfold GenerateEmbeddings.conclude in Hout.
    rewrite Hp, He in Hout. cbn [s0 GenerateEmbeddings.start GenerateEmbeddings.errChan omap]
      in Hout.
    change (omap (fun err : option GenerateEmbeddings.embedError => err) [])
      with (@nil GenerateEmbeddings.embedError) in Hout. cbn [app] in Hout.
    destruct (GenerateEmbeddings.errorsOf emb chunks (Pool.recorded st)) as [|e es] eqn:Eerr;
      [|discriminate Hout].
    cbn [length Nat.ltb Nat.leb] in Hout. injection Hout as <-.
    cbn [EmbeddingData.Chunks EmbeddingData.Embeddings GenerateEmbeddings.assemble].
    split; [exact Hc|]. intros i Hi.
    destruct (GenerateEmbeddings.isCompleted cp0 i) eqn:Ec.
    + apply Hkeep. intros Hin. apply (Permutation_in _ Hrec) in Hin.
      apply PipelineFacts.toProcess_In in Hin. destruct Hin as [_ Hin]. congruence.
    + assert (Hin : In i (Pool.recorded st)).
      { apply (Permutation_in _ (Permutation_sym Hrec)).
        apply PipelineFacts.toProcess_In. auto. }
      destruct (PipelineFacts.errorsOf_nil emb chunks _ Eerr i Hin) as [v Hv].
      apply lookup_lt_is_Some_2 in Hi as [chunk Hchunk].
      exists chunk, v. split; [exact Hchunk|]. split.
      * unfold GenerateEmbeddings.call in Hv. rewrite Hchunk in Hv. exact Hv.
      * apply Hnew; assumption.
Qed.

Lemma resume_spec_witness :
  Permutation [0; 2]%nat (GenerateEmbeddings.toProcess chunks3 cpPartial) /\
  (forall i, In i (GenerateEmbeddings.toProcess chunks3 cpPartial) <->
             (i < length chunks3)%nat /\ GenerateEmbeddings.isCompleted cpPartial i = false) /\
  (forall embData, outPartial = GenerateEmbeddings.IndexWritten embData ->
     EmbeddingData.Chunks embData = GenerateEmbeddings.Chunks cpPartial /\
     forall i, (i < length chunks3)%nat ->
       if GenerateEmbeddings.isCompleted cpPartial i
       then EmbeddingData.Embeddings embData !! i
            = GenerateEmbeddings.Embeddings cpPartial !! i
       else exists chunk v,
              chunks3 !! i = Some chunk /\
              OpenAI.Embed service34 (Chunk.Content chunk) = Ok v /\
              EmbeddingData.Embeddings embData !! i = Some v).
Proof.
  apply (resume_spec cpPartial chunks3 service34 schedule2 outPartial [0; 2]%nat).
  - reflexivity.
  - reflexivity.
  - vm_compute. reflexivity.
Defined.

Lemma concurrency_cap_witness :
  (Pool.inFlight midRun <= 10)%nat /\ (Pool.inFlight midBatch <= 10)%nat.
Proof.
  split.
  - apply (proj1 concurrency_cap chunks3 service34 cpPartial (Some cpPartial)
             [Pool.Dispatch; Pool.Dispatch; Pool.Call 0; Pool.Call 1] midRun).
    reflexivity.
  - apply (proj2 concurrency_cap service34 [bytes "doc1"; bytes "doc2"]
             [Pool.Dispatch; Pool.Dispatch; Pool.Call 0] midBatch).
    reflexivity.
Defined.

(** EmbedBatch on two texts, results received in the order sent. *)
Example EmbedBatch_two :
  EmbedBatch.EmbedBatchWithProgress service34 [bytes "doc1"; bytes "doc2"] schedule2
  = Some (Ok [vec34; vec34]).
Proof. vm_compute. reflexivity. Qed.

(* ===================================================================== *)
(** * Further properties of CosineSimilarity and Search *)
(* ===================================================================== *)

Section SearchMore.
Context {F : Type} {FA : FloatArith F}.

Lemma searchStep_none : forall (index : VectorIndex.t F) (q : list F) (threshold : F)
    (idx : list nat),
  fold_left (searchStep index q threshold) idx None = None.
Proof. intros index q threshold idx. induction idx as [|i idx IH]; [reflexivity|exact IH]. Qed.

Lemma search_loop_some : forall (index : VectorIndex.t F) (q : list F) (threshold : F)
    (idx : list nat) (acc : list (SearchResult.t F)),
  (forall i, In i idx -> (i < length (VectorIndex.Chunks index))%nat /\
                        (i < length (VectorIndex.Embeddings index))%nat) ->
  exists r, fold_left (searchStep index q threshold) idx (Some acc) = Some r.
Proof.
  intros index q threshold. induction idx as [|i idx IH]; intros acc H.
  - exists acc. reflexivity.
  - cbn [fold_left]. destruct (H i (or_introl eq_refl)) as [Hc He].
    apply lookup_lt_is_Some_2 in Hc as [c Hc].
    apply lookup_lt_is_Some_2 in He as [e He].
    unfold searchStep at 2. cbn [mbind option_bind]. rewrite Hc, He.
    cbn [mbind option_bind]. rewrite CosineSimilarity_cases. cbn [mbind option_bind].
    destruct (fleb threshold (cosineValue q e));
      apply IH; intros j Hj; apply H; right; exact Hj.
Qed.

(** The loop of Search panics exactly when some chunk has no vector. *)
Lemma search_loop_panics : forall (index : VectorIndex.t F) (q : list F) (threshold : F),
  fold_left (searchStep index q threshold)
    (seq 0 (length (VectorIndex.Chunks index))) (Some []) = None
  <-> (length (VectorIndex.Embeddings index) < length (VectorIndex.Chunks index))%nat.
Proof.
  intros index q threshold.
  set (n := length (VectorIndex.Chunks index)).
  set (m := length (VectorIndex.Embeddings index)).
  split.
  - intros H. destruct (Nat.lt_ge_cases m n) as [Hlt|Hge]; [exact Hlt|].
    destruct (search_loop_some index q threshold (seq 0 n) []) as [r Hr].
    + intros i Hi. apply in_seq in Hi. fold n m. lia.
    + rewrite Hr in H. discriminate H.
  - intros Hlt.
    replace n with (m + S (n - S m))%nat by lia.
    rewrite seq_app, fold_left_app. cbn [seq fold_left Nat.add].
    destruct (search_loop_some index q threshold (seq 0 m) []) as [r Hr].
    + intros i Hi. apply in_seq in Hi. fold n m. lia.
    + rewrite Hr. unfold searchStep at 2. cbn [mbind option_bind].
      assert (Hc : (m < length (VectorIndex.Chunks index))%nat) by exact Hlt.
      apply lookup_lt_is_Some_2 in Hc as [c Hc]. rewrite Hc. cbn [mbind option_bind].
      rewrite (proj2 (lookup_ge_None (VectorIndex.Embeddings index) m) (le_n _)).
      cbn [mbind option_bind]. apply searchStep_none.
Qed.

End SearchMore.

(** X1. Search panics (index out of range) exactly when the query has
    the dimension of the index and the index holds fewer vectors than
    chunks; in every other case it returns a result. *)
Theorem Search_panics_iff :
  forall (sort_slice : SortSlice) (index : VectorIndex.t Binary32.float32)
         (queryEmbedding : list Binary32.float32) (topK : Z)
         (threshold : Binary32.float32),
    Search sort_slice index queryEmbedding topK threshold = None <->
    Z.of_nat (length queryEmbedding) = VectorIndex.Dimension index /\
    (length (VectorIndex.Embeddings index) < length (VectorIndex.Chunks index))%nat.
Proof.
  intros sort_slice index q topK threshold. unfold Search.
  destruct (Z.eqb_spec (Z.of_nat (length q)) (VectorIndex.Dimension index)) as [E|E];
    cbn [negb].
  - rewrite <- (search_loop_panics index q threshold).
    destruct (fold_left _ _ _) as [r|]; cbn [mbind option_bind].
    + split; [|intros [_ H]; discriminate H].
      destruct (_ && _); discriminate.
    + tauto.
  - split; [discriminate|]. intros [H _]. contradiction.
Qed.

Lemma In_combine_lookup {A B : Type} (l1 : list A) (l2 : list B) (x : A) (y : B) :
  In (x, y) (combine l1 l2) ->
  exists i, l1 !! i = Some x /\ l2 !! i = Some y.
Proof.
  revert l2. induction l1 as [|a l1 IH]; intros [|b l2] H; try destruct H.
  - injection H as -> ->. exists 0%nat. auto.
  - destruct (IH l2 H) as (i & H1 & H2). exists (S i). auto.
Qed.

(** X2. Search invents nothing: whenever it returns, every result pairs
    a chunk of the index with the cosine similarity of the query and the
    vector at the same position, that score reaches the threshold and is
    no NaN, and there are no more results than chunks, nor more than
    [topK] when [topK > 0]. Of [sort.Slice] this needs only that it
    permutes. *)
Theorem Search_sound :
  forall (sort_slice : SortSlice) (index : VectorIndex.t Binary32.float32)
         (queryEmbedding : list Binary32.float32) (topK : Z)
         (threshold : Binary32.float32) (results : list (SearchResult.t Binary32.float32)),
    (forall A less l, Permutation (sort_slice A less l) l) ->
    Search sort_slice index queryEmbedding topK threshold = Some results ->
    (forall r, In r results ->
       SFleb threshold (SearchResult.Score r) = true /\
       Binary32.is_nan (SearchResult.Score r) = false /\
       exists i embedding,
         VectorIndex.Chunks index !! i = Some (SearchResult.Chunk r) /\
         VectorIndex.Embeddings index !! i = Some embedding /\
         CosineSimilarity queryEmbedding embedding = Some (SearchResult.Score r)) /\
    (length results <= length (VectorIndex.Chunks index))%nat /\
    (0 < topK -> Z.of_nat (length results) <= topK).
Proof.
  intros sort_slice index q topK threshold results Hperm Hs.
  unfold Search in Hs.
  destruct (Z.eqb_spec (Z.of_nat (length q)) (VectorIndex.Dimension index)) as [E|E];
    cbn [negb] in Hs.
  2:{ injection Hs as <-. cbn [length].
      split; [intros r []|split; [lia|intros; lia]]. }
  assert (Hlen : (length (VectorIndex.Chunks index)
                  <= length (VectorIndex.Embeddings index))%nat).
  { destruct (Nat.le_gt_cases (length (VectorIndex.Chunks index))
                (length (VectorIndex.Embeddings index))) as [H|H]; [exact H|].
    apply (search_loop_panics index q threshold) in H.
    rewrite H in Hs. discriminate Hs. }
  rewrite (search_collects index q threshold Hlen) in Hs. cbn [mbind option_bind] in Hs.
  set (sorted := sort_slice _ byScoreDesc (matches index q threshold)) in *.
  assert (Hsub : forall r, In r results -> In r (matches index q threshold)).
  { intros r0 Hr. apply (Permutation_in _ (Hperm _ byScoreDesc _)). fold sorted.
    destruct (_ && _) in Hs; injection Hs as <-; [|exact Hr].
    rewrite <- (take_drop (Z.to_nat topK) sorted). apply in_or_app. left. exact Hr. }
  assert (Hsorted : length sorted = length (matches index q threshold))
    by (apply Permutation_length; apply Hperm).
  assert (Hm : (length (matches index q threshold)
                <= length (VectorIndex.Chunks index))%nat).
  { unfold matches, entries.
    etransitivity; [apply List.filter_length_le|].
    rewrite length_map, length_combine. lia. }
  split; [|split].
  - intros r Hr. specialize (Hsub r Hr).
    split; [|split].
    + unfold matches in Hsub. apply filter_In in Hsub. tauto.
    + exact (matches_not_nan index q threshold r Hsub).
    + unfold matches, entries in Hsub. apply filter_In in Hsub as [Hin _].
      apply in_map_iff in Hin as ([c e] & <- & Hce).
      apply In_combine_lookup in Hce as (i & Hc & He).
      exists i, e. cbn [SearchResult.Chunk SearchResult.Score fst snd].
      rewrite CosineSimilarity_cases. auto.
  - destruct (_ && _) in Hs; injection Hs as <-.
    + rewrite length_take. lia.
    + lia.
  - intros Hpos.
    destruct (Z.ltb_spec 0 topK) as [_|]; [|lia]. cbn [andb] in Hs.
    destruct (Z.ltb_spec topK (Z.of_nat (length sorted))) as [Hlt|Hge];
      injection Hs as <-.
    + rewrite length_take. lia.
    + exact Hge.
Qed.

Lemma Search_sound_witness :
  (forall r, In r [{| SearchResult.Chunk := chunkB; SearchResult.Score := Binary32.ofZ 1 |}] ->
     SFleb Binary32.zero (SearchResult.Score r) = true /\
     Binary32.is_nan (SearchResult.Score r) = false /\
     exists i embedding,
       VectorIndex.Chunks index2 !! i = Some (SearchResult.Chunk r) /\
       VectorIndex.Embeddings index2 !! i = Some embedding /\
       CosineSimilarity query2 embedding = Some (SearchResult.Score r)) /\
  (length [{| SearchResult.Chunk := chunkB; SearchResult.Score := Binary32.ofZ 1 |}]
   <= length (VectorIndex.Chunks index2))%nat /\
  (0 < 1 -> Z.of_nat (length [{| SearchResult.Chunk := chunkB;
                                SearchResult.Score := Binary32.ofZ 1 |}]) <= 1).
Proof.
  apply (Search_sound insertion_sort index2 query2 1 Binary32.zero).
  - intros A less l. apply insertion_sort_perm.
  - vm_compute. reflexivity.
Defined.

(* ===================================================================== *)
(** * Further properties of CosineSimilarity *)
(* ===================================================================== *)

Section CosineSymmetry.
Context {F : Type} {FA : FloatArith F}.
Hypothesis fmul_comm : forall x y : F, fmul x y = fmul y x.

Lemma dot_from_comm : forall (a b : list F) (s : F),
  fold_left (fun s xy => fadd s (fmul (fst xy) (snd xy))) (combine a b) s =
  fold_left (fun s xy => fadd s (fmul (fst xy) (snd xy))) (combine b a) s.
Proof.
  induction a as [|x a IH]; intros [|y b] s; cbn [combine fold_left fst snd];
    try reflexivity.
  rewrite (fmul_comm x y). apply IH.
Qed.

Lemma cosineValue_comm : forall a b : list F, cosineValue a b = cosineValue b a.
Proof.
  intros a b. unfold cosineValue, cosine_spec, dot.
  rewrite (Nat.eqb_sym (length a) (length b)).
  rewrite (orb_comm (feqb (sumsq a) fzero)).
  rewrite (dot_from_comm a b), (fmul_comm (norm a) (norm b)). reflexivity.
Qed.

End CosineSymmetry.

Lemma Binary32_mul_comm : forall x y : Binary32.float32,
  Binary32.mul x y = Binary32.mul y x.
Proof.
  intros [sx| sx| |sx mx ex] [sy| sy| |sy my ey]; cbn; try reflexivity;
    rewrite ?(xorb_comm sx sy); try reflexivity.
  rewrite (Pos.mul_comm mx my), (Z.add_comm ex ey). reflexivity.
Qed.

(** X3. In float32 arithmetic CosineSimilarity is symmetric: exchanging
    the two vectors gives the same bits, roundings included. *)
Theorem CosineSimilarity_symmetric :
  forall a b : list Binary32.float32,
    CosineSimilarity a b = CosineSimilarity b a.
Proof.
  intros a b. rewrite !CosineSimilarity_cases. f_equal.
  apply cosineValue_comm. exact Binary32_mul_comm.
Qed.

(** ** Exact arithmetic *)








(* ===================================================================== *)
(** * Further properties of pkg/loader *)
(* ===================================================================== *)

Module TrimFacts.
Import Go.

Lemma trimLeftSpace_length_bounded : forall (n : nat) (s : gostring),
  (length s <= n)%nat -> (length (trimLeftSpace s) <= length s)%nat.
Proof.
  induction n as [|n IH]; intros s Hn.
  - destruct s; [cbn; lia|cbn in Hn; lia].
  - destruct s as [|b0 r0]; [cbn; lia|]. cbn [trimLeftSpace].
    destruct (isASCIISpace b0).
    { etransitivity; [apply IH; cbn in Hn; lia|cbn; lia]. }
    destruct r0 as [|b1 r1]; [lia|].
    destruct (isSpace2 b0 b1).
    { etransitivity; [apply IH; cbn in Hn; lia|cbn; lia]. }
    destruct r1 as [|b2 r2]; [lia|].
    destruct (isSpace3 b0 b1 b2); [|lia].
    etransitivity; [apply IH; cbn in Hn; lia|cbn; lia].
Qed.

Lemma trimLeftSpace_length : forall s : gostring,
  (length (trimLeftSpace s) <= length s)%nat.
Proof. intros s. apply (trimLeftSpace_length_bounded (length s)). lia. Qed.

Lemma trimLeftSpace_fixed_bounded : forall (n : nat) (s : gostring),
  (length s <= n)%nat -> trimLeftSpace (trimLeftSpace s) = trimLeftSpace s.
Proof.
  induction n as [|n IH]; intros s Hn.
  - destruct s; [reflexivity|cbn in Hn; lia].
  - destruct s as [|b0 r0]; [reflexivity|]. cbn [trimLeftSpace].
    destruct (isASCIISpace b0) eqn:E0.
    { apply IH. cbn in Hn. lia. }
    destruct r0 as [|b1 r1].
    { cbn [trimLeftSpace]. rewrite E0. reflexivity. }
    destruct (isSpace2 b0 b1) eqn:E1.
    { apply IH. cbn in Hn. lia. }
    destruct r1 as [|b2 r2].
    { cbn [trimLeftSpace]. rewrite E0, E1. reflexivity. }
    destruct (isSpace3 b0 b1 b2) eqn:E2.
    { apply IH. cbn in Hn. lia. }
    cbn [trimLeftSpace]. rewrite E0, E1, E2. reflexivity.
Qed.

Lemma trimLeftSpace_fixed : forall s : gostring,
  trimLeftSpace (trimLeftSpace s) = trimLeftSpace s.
Proof. intros s. apply (trimLeftSpace_fixed_bounded (length s)). lia. Qed.

Lemma trimLeftSpace_shorter : forall (pre s : gostring),
  pre <> [] -> trimLeftSpace s <> pre ++ s.
Proof.
  intros pre s Hpre H. pose proof (trimLeftSpace_length s) as Hl.
  rewrite H, length_app in Hl. destruct pre; [contradiction|]. cbn in Hl. lia.
Qed.

(** A beginning of a string without leading white space has none
    either. *)
Lemma trimLeftSpace_prefix : forall p q : gostring,
  trimLeftSpace (p ++ q) = p ++ q -> trimLeftSpace p = p.
Proof.
  intros p q H.
  destruct p as [|b0 r0]; [reflexivity|].
  cbn [app trimLeftSpace] in *.
  destruct (isASCIISpace b0).
  { exfalso. exact (trimLeftSpace_shorter [b0] (r0 ++ q) ltac:(discriminate) H). }
  destruct r0 as [|b1 r1]; [reflexivity|].
  cbn [app] in *.
  destruct (isSpace2 b0 b1).
  { exfalso. exact (trimLeftSpace_shorter [b0; b1] (r1 ++ q) ltac:(discriminate) H). }
  destruct r1 as [|b2 r2]; [reflexivity|].
  cbn [app] in *.
  destruct (isSpace3 b0 b1 b2); [|reflexivity].
  exfalso. exact (trimLeftSpace_shorter [b0; b1; b2] (r2 ++ q) ltac:(discriminate) H).
Qed.

Lemma trimRightSpaceRev_suffix_bounded : forall (n : nat) (s : gostring),
  (length s <= n)%nat -> exists p, s = p ++ trimRightSpaceRev s.
Proof.
  induction n as [|n IH]; intros s Hn.
  - destruct s; [exists []; reflexivity|cbn in Hn; lia].
  - destruct s as [|b0 r0]; [exists []; reflexivity|]. cbn [trimRightSpaceRev].
    destruct (isASCIISpace b0).
    { destruct (IH r0 ltac:(cbn in Hn; lia)) as [p Hp].
      exists (b0 :: p). cbn [app]. congruence. }
    destruct r0 as [|b1 r1]; [exists []; reflexivity|].
    destruct (isSpace2 b1 b0).
    { destruct (IH r1 ltac:(cbn in Hn; lia)) as [p Hp].
      exists (b0 :: b1 :: p). cbn [app]. congruence. }
    destruct r1 as [|b2 r2]; [exists []; reflexivity|].
    destruct (isSpace3 b2 b1 b0); [|exists []; reflexivity].
    destruct (IH r2 ltac:(cbn in Hn; lia)) as [p Hp].
    exists (b0 :: b1 :: b2 :: p). cbn [app]. congruence.
Qed.

Lemma trimRightSpaceRev_fixed_bounded : forall (n : nat) (s : gostring),
  (length s <= n)%nat ->
  trimRightSpaceRev (trimRightSpaceRev s) = trimRightSpaceRev s.
Proof.
  induction n as [|n IH]; intros s Hn.
  - destruct s; [reflexivity|cbn in Hn; lia].
  - destruct s as [|b0 r0]; [reflexivity|]. cbn [trimRightSpaceRev].
    destruct (isASCIISpace b0) eqn:E0.
    { apply IH. cbn in Hn. lia. }
    destruct r0 as [|b1 r1].
    { cbn [trimRightSpaceRev]. rewrite E0. reflexivity. }
    destruct (isSpace2 b1 b0) eqn:E1.
    { apply IH. cbn in Hn. lia. }
    destruct r1 as [|b2 r2].
    { cbn [trimRightSpaceRev]. rewrite E0, E1. reflexivity. }
    destruct (isSpace3 b2 b1 b0) eqn:E2.
    { apply IH. cbn in Hn. lia. }
    cbn [trimRightSpaceRev]. rewrite E0, E1, E2. reflexivity.
Qed.

(** strings.TrimSpace leaves nothing more to trim. *)
Lemma TrimSpace_fixed : forall s : gostring, TrimSpace (TrimSpace s) = TrimSpace s.
Proof.
  intros s. unfold TrimSpace.
  set (t := trimLeftSpace s).
  assert (Ht : trimLeftSpace t = t) by apply trimLeftSpace_fixed.
  destruct (trimRightSpaceRev_suffix_bounded (length (rev t)) (rev t) (le_n _)) as [p Hp].
  assert (Hsplit : t = trimRightSpace t ++ rev p).
  { unfold trimRightSpace. rewrite <- rev_app_distr, <- Hp, rev_involutive. reflexivity. }
  assert (Hl : trimLeftSpace (trimRightSpace t) = trimRightSpace t).
  { apply (trimLeftSpace_prefix _ (rev p)). rewrite <- Hsplit. exact Ht. }
  rewrite Hl. unfold trimRightSpace. rewrite rev_involutive.
  rewrite (trimRightSpaceRev_fixed_bounded (length (rev t))) by lia. reflexivity.
Qed.

End TrimFacts.

Module LoaderInvFacts.
Import Go Loader LoaderInv.

Lemma scanStep_heading : forall path st line,
  HasPrefixHash line = true ->
  scanStep path st line =
  {| chunks := chunks (flushChunk path st);
     currentHeading := TrimSpace (TrimLeftHash line);
     currentContent := [];
     currentOffset := lineOffset st;
     lineOffset := lineOffset st + Z.of_nat (length line) + 1 |}.
Proof. intros path st line H. unfold scanStep. rewrite H. reflexivity. Qed.

Lemma scanStep_text : forall path st line,
  HasPrefixHash line = false ->
  scanStep path st line =
  {| chunks := chunks st;
     currentHeading := currentHeading st;
     currentContent := appendLine (currentContent st) line;
     currentOffset := currentOffset st;
     lineOffset := lineOffset st + Z.of_nat (length line) + 1 |}.
Proof. intros path st line H. unfold scanStep. rewrite H. reflexivity. Qed.

Lemma flushChunk_chunks : forall path st,
  chunks (flushChunk path st) =
  match currentContent st with
  | [] => chunks st
  | _ => chunks st ++ [{| Chunk.Path := path;
                          Chunk.Content := TrimSpace (currentContent st);
                          Chunk.Heading := currentHeading st;
                          Chunk.Offset := currentOffset st |}]
  end.
Proof. intros path st. unfold flushChunk. destruct (currentContent st); reflexivity. Qed.

Lemma fromHeading_more : forall seen line h,
  fromHeading seen h -> fromHeading (seen ++ [line]) h.
Proof.
  intros seen line h [->|(l & Hl & Hh & E)]; [left; reflexivity|].
  right. exists l. split; [apply in_or_app; left; exact Hl|auto].
Qed.

Lemma chunkOk_more : forall path seen line o o' c,
  o <= o' -> chunkOk path seen o c -> chunkOk path (seen ++ [line]) o' c.
Proof.
  intros path seen line o o' c Ho (Hp & Hoff & Ht & Hh).
  repeat split; try assumption; try lia. apply fromHeading_more. exact Hh.
Qed.

Lemma StronglySorted_snoc : forall (l : list Z) (x : Z),
  StronglySorted Z.lt l -> Forall (fun y => y < x) l ->
  StronglySorted Z.lt (l ++ [x]).
Proof.
  induction l as [|a l IH]; intros x Hs Hf; cbn [app].
  - constructor; constructor.
  - inversion Hs as [|? ? Hs' Ha]; subst. inversion Hf as [|? ? Hax Hf']; subst.
    constructor; [apply IH; assumption|].
    apply List.Forall_app. split; [exact Ha|constructor; [exact Hax|constructor]].
Qed.

(** What flushChunk makes of a state that satisfies the invariant, when
    the next section starts at [o]. *)
Lemma flush_invariant : forall path seen st o,
  invariant path seen st ->
  lineOffset st <= o ->
  StronglySorted Z.lt (map Chunk.Offset (chunks (flushChunk path st))) /\
  Forall (chunkOk path seen o) (chunks (flushChunk path st)) /\
  (length (chunks (flushChunk path st)) <= S (length (chunks st)))%nat.
Proof.
  intros path seen st o (Hoff & Hne & Hh & Hlen & Hs & Hf) Ho.
  rewrite flushChunk_chunks.
  assert (Hf' : Forall (chunkOk path seen o) (chunks st)).
  { eapply List.Forall_impl; [|exact Hf]. intros c (Hp & Hc & Ht & Hhc).
    repeat split; try assumption; lia. }
  destruct (currentContent st) as [|b t] eqn:E.
  - repeat split; [exact Hs|exact Hf'|lia].
  - specialize (Hne ltac:(discriminate)).
    repeat split.
    + rewrite map_app. cbn [map Chunk.Offset]. apply StronglySorted_snoc; [exact Hs|].
      apply List.Forall_map. eapply List.Forall_impl; [|exact Hf].
      intros c (_ & Hc & _). lia.
    + apply List.Forall_app. split; [exact Hf'|]. constructor; [|constructor].
      repeat split; cbn [Chunk.Path Chunk.Offset Chunk.Content Chunk.Heading];
        try lia; [eexists; reflexivity|exact Hh].
    + rewrite length_app. cbn [length]. lia.
Qed.

Lemma scanStep_invariant : forall path seen st line,
  invariant path seen st ->
  invariant path (seen ++ [line]) (scanStep path st line).
Proof.
  intros path seen st line Hinv.
  pose proof Hinv as (Hoff & Hne & Hh & Hlen & Hs & Hf).
  destruct (HasPrefixHash line) eqn:E.
  - rewrite (scanStep_heading path st line E).
    destruct (flush_invariant path seen st (lineOffset st) Hinv (Z.le_refl _))
      as (Hs' & Hf' & Hlen').
    unfold invariant.
    cbn [chunks currentHeading currentContent currentOffset lineOffset].
    split; [lia|]. split; [intros H; contradiction|]. split; [|split; [|split]].
    + right. exists line. split; [apply in_or_app; right; left; reflexivity|auto].
    + rewrite List.filter_app, length_app. cbn [filter]. rewrite E. cbn [length]. lia.
    + exact Hs'.
    + eapply List.Forall_impl; [|exact Hf']. intros c.
      apply chunkOk_more. lia.
  - rewrite (scanStep_text path st line E).
    unfold invariant.
    cbn [chunks currentHeading currentContent currentOffset lineOffset].
    split; [lia|]. split; [intros _; lia|]. split; [|split; [|split]].
    + apply fromHeading_more. exact Hh.
    + rewrite List.filter_app, length_app. cbn [filter]. rewrite E. cbn [length]. lia.
    + exact Hs.
    + eapply List.Forall_impl; [|exact Hf]. intros c.
      apply chunkOk_more. lia.
Qed.

Lemma run_invariant : forall path lines,
  invariant path lines (run path initial lines).
Proof.
  intros path lines. induction lines as [|line lines IH] using rev_ind.
  - unfold invariant. cbn [run fold_left initial chunks currentHeading currentContent
                            currentOffset lineOffset filter length map].
    split; [lia|]. split; [intros H; contradiction|]. split; [left; reflexivity|].
    split; [lia|]. split; constructor.
  - rewrite LoaderFacts.run_app. cbn [run fold_left].
    apply scanStep_invariant. exact IH.
Qed.

(** The chunks of ChunkDocument: those of the last flush, or the single
    chunk for the whole content. *)
Lemma ChunkDocument_cases : forall path content,
  ChunkDocument path content =
    chunks (flushChunk path (run path initial (scanLines content))) \/
  (chunks (flushChunk path (run path initial (scanLines content))) = [] /\
   ChunkDocument path content =
     [{| Chunk.Path := path; Chunk.Content := TrimSpace content;
         Chunk.Heading := []; Chunk.Offset := 0 |}]).
Proof.
  intros path content. unfold ChunkDocument. fold (run path initial (scanLines content)).
  destruct (chunks (flushChunk path _)) as [|c cs]; cbn [length Nat.eqb]; auto.
Qed.

Lemma ChunkDocument_path : forall path content c,
  In c (ChunkDocument path content) -> Chunk.Path c = path.
Proof.
  intros path content c Hin.
  destruct (ChunkDocument_cases path content) as [E|[_ E]]; rewrite E in Hin.
  - pose proof (run_invariant path (scanLines content)) as Hinv.
    destruct (flush_invariant path _ _ _ Hinv (Z.le_refl _)) as (_ & Hf & _).
    rewrite List.Forall_forall in Hf. destruct (Hf c Hin) as (Hp & _). exact Hp.
  - destruct Hin as [<-|[]]. reflexivity.
Qed.

End LoaderInvFacts.

(** X6. Every chunk of ChunkDocument carries the path it was given and an
    offset that is not negative; its content and its heading have no
    white space left at either end; and its heading is empty or the
    trimmed text, after the '#' characters, of a heading line of the
    document. *)
Theorem ChunkDocument_chunks :
  forall (path content : gostring) (c : Chunk.t),
    In c (Loader.ChunkDocument path content) ->
    Chunk.Path c = path /\
    0 <= Chunk.Offset c /\
    Go.TrimSpace (Chunk.Content c) = Chunk.Content c /\
    Go.TrimSpace (Chunk.Heading c) = Chunk.Heading c /\
    (Chunk.Heading c = [] \/
     exists line, In line (Go.scanLines content) /\ Loader.isHeading line /\
                  Chunk.Heading c = Go.TrimSpace (Go.TrimLeftHash line)).
Proof.
  intros path content c Hin.
  destruct (LoaderInvFacts.ChunkDocument_cases path content) as [E|[_ E]];
    rewrite E in Hin.
  - pose proof (LoaderInvFacts.run_invariant path (Go.scanLines content)) as Hinv.
    destruct (LoaderInvFacts.flush_invariant path _ _ _ Hinv (Z.le_refl _))
      as (_ & Hf & _).
    rewrite List.Forall_forall in Hf.
    destruct (Hf c Hin) as (Hp & Ho & [text Ht] & Hh).
    repeat split; try assumption; try lia.
    + rewrite Ht. apply TrimFacts.TrimSpace_fixed.
    + destruct Hh as [->|(line & _ & _ & ->)]; [reflexivity|].
      apply TrimFacts.TrimSpace_fixed.
  - destruct Hin as [<-|[]]. cbn [Chunk.Path Chunk.Offset Chunk.Content Chunk.Heading].
    repeat split; try lia; auto. apply TrimFacts.TrimSpace_fixed.
Qed.

Lemma ChunkDocument_chunks_witness :
  Chunk.Path {| Chunk.Path := bytes "t.md"; Chunk.Content := bytes "bar";
                Chunk.Heading := bytes "B"; Chunk.Offset := 9 |} = bytes "t.md" /\
  0 <= 9 /\
  Go.TrimSpace (bytes "bar") = bytes "bar" /\
  Go.TrimSpace (bytes "B") = bytes "B" /\
  (bytes "B" = [] \/
   exists line, In line (Go.scanLines docAB) /\ Loader.isHeading line /\
                bytes "B" = Go.TrimSpace (Go.TrimLeftHash line)).
Proof.
  apply (ChunkDocument_chunks (bytes "t.md") docAB
           {| Chunk.Path := bytes "t.md"; Chunk.Content := bytes "bar";
              Chunk.Heading := bytes "B"; Chunk.Offset := 9 |}).
  vm_compute. right. left. reflexivity.
Defined.

(** X7. The offsets of the chunks of ChunkDocument increase strictly
    from one chunk to the next, and there are at most as many chunks as
    the document has heading lines, plus one. *)
Theorem ChunkDocument_offsets_increase :
  forall path content : gostring,
    StronglySorted Z.lt (map Chunk.Offset (Loader.ChunkDocument path content)) /\
    (length (Loader.ChunkDocument path content)
     <= length (filter Go.HasPrefixHash (Go.scanLines content)) + 1)%nat.
Proof.
  intros path content.
  destruct (LoaderInvFacts.ChunkDocument_cases path content) as [E|[_ E]]; rewrite E.
  - pose proof (LoaderInvFacts.run_invariant path (Go.scanLines content)) as Hinv.
    destruct (LoaderInvFacts.flush_invariant path _ _ _ Hinv (Z.le_refl _))
      as (Hs & _ & Hlen).
    destruct Hinv as (_ & _ & _ & Hn & _).
    split; [exact Hs|lia].
  - split; [repeat constructor|cbn [length]; lia].
Qed.

(** X8. A document in which every line is a heading line gives a single
    chunk: no heading, offset 0, and the whole trimmed document as its
    content. *)
Theorem ChunkDocument_headings_only :
  forall path content : gostring,
    Forall Loader.isHeading (Go.scanLines content) ->
    Loader.ChunkDocument path content =
    [{| Chunk.Path := path; Chunk.Content := Go.TrimSpace content;
        Chunk.Heading := []; Chunk.Offset := 0 |}].
Proof.
  intros path content H.
  assert (Hrun : forall lines st,
            Forall Loader.isHeading lines ->
            Loader.chunks st = [] -> Loader.currentContent st = [] ->
            Loader.chunks (Loader.run path st lines) = [] /\
            Loader.currentContent (Loader.run path st lines) = []).
  { induction lines as [|line lines IH]; intros st Hl Hc Hcc; [auto|].
    inversion Hl as [|? ? Hh Hl']; subst. cbn [Loader.run fold_left].
    apply IH; [exact Hl'| |];
      rewrite (LoaderInvFacts.scanStep_heading path st line Hh);
      cbn [Loader.chunks Loader.currentContent]; [|reflexivity].
    rewrite LoaderInvFacts.flushChunk_chunks, Hcc. exact Hc. }
  destruct (Hrun (Go.scanLines content) Loader.initial H eq_refl eq_refl) as [Hc Hcc].
  destruct (LoaderInvFacts.ChunkDocument_cases path content) as [E|[_ E]]; [|exact E].
  exfalso. apply (LoaderFacts.ChunkDocument_nonempty path content).
  rewrite E, LoaderInvFacts.flushChunk_chunks, Hcc. exact Hc.
Qed.

Lemma ChunkDocument_headings_only_witness :
  Loader.ChunkDocument (bytes "t.md") docHeadings =
  [{| Chunk.Path := bytes "t.md"; Chunk.Content := Go.TrimSpace docHeadings;
      Chunk.Heading := []; Chunk.Offset := 0 |}].
Proof.
  apply (ChunkDocument_headings_only (bytes "t.md") docHeadings).
  vm_compute. repeat constructor.
Defined.

(* ===================================================================== *)
(** * LoadDocuments and LoadAndChunkAll *)
(* ===================================================================== *)

Module LoaderFSFacts.
Import LoaderFS.

Section Facts.
Variable Rel : gostring -> gostring -> result gostring.
Variable rangeMap : gmap gostring gostring -> list (gostring * gostring).

(** The key under which LoadDocuments stores the file of a visit. *)
Lemma walkFn_cases : forall root docs v,
  (exists e, walkFn Rel root docs v = (docs, Some e)) \/
  walkFn Rel root docs v = (docs, None) \/
  (exists content,
     err v = None /\ isDir v = false /\ HasSuffixMd (path v) = true /\
     read v = Ok content /\
     walkFn Rel root docs v =
       (<[match Rel root (path v) with Ok relPath => relPath | Err _ => path v end
          := content]> docs, None)).
Proof.
  intros root docs v. unfold walkFn.
  destruct (err v) as [e|]; [left; eauto|].
  destruct (isDir v); [right; left; reflexivity|].
  destruct (HasSuffixMd (path v)); cbn [negb]; [|right; left; reflexivity].
  destruct (read v) as [content|e]; [|left; eauto].
  right. right. exists content. auto.
Qed.

Lemma walkDir_entries : forall root walk docs0 docs e k content,
  walkDir Rel root walk docs0 = (docs, e) ->
  docs !! k = Some content ->
  docs0 !! k = Some content \/
  exists v, In v walk /\ err v = None /\ isDir v = false /\
            HasSuffixMd (path v) = true /\ read v = Ok content /\
            k = match Rel root (path v) with Ok relPath => relPath | Err _ => path v end.
Proof.
  intros root. induction walk as [|v walk IH]; intros docs0 docs e k content Hw Hk.
  - cbn in Hw. injection Hw as <- _. left. exact Hk.
  - cbn [walkDir] in Hw.
    destruct (walkFn_cases root docs0 v) as [[e' E]|[E|(c & H1 & H2 & H3 & H4 & E)]];
      rewrite E in Hw.
    + injection Hw as <- _. left. exact Hk.
    + destruct (IH _ _ _ _ _ Hw Hk) as [H|(u & Hu & H)]; [left; exact H|].
      right. exists u. split; [right; exact Hu|exact H].
    + destruct (IH _ _ _ _ _ Hw Hk) as [H|(u & Hu & H)].
      * set (rel := match Rel root (path v) with Ok r => r | Err _ => path v end) in *.
        destruct (decide (rel = k)) as [<-|Hne].
        -- rewrite lookup_insert_eq in H. injection H as <-.
           right. exists v. split; [left; reflexivity|auto 6].
        -- rewrite lookup_insert_ne in H by exact Hne. left. exact H.
      * right. exists u. split; [right; exact Hu|exact H].
Qed.

Lemma walkDir_app : forall root pre rest docs0 docs,
  walkDir Rel root pre docs0 = (docs, None) ->
  walkDir Rel root (pre ++ rest) docs0 = walkDir Rel root rest docs.
Proof.
  intros root. induction pre as [|v pre IH]; intros rest docs0 docs H.
  - cbn in H. injection H as <-. reflexivity.
  - cbn [walkDir app] in *.
    destruct (walkFn Rel root docs0 v) as [d [e|]]; [discriminate H|].
    apply IH. exact H.
Qed.

Lemma fold_chunks : forall (l : list (gostring * gostring)) (acc : list Chunk.t),
  fold_left (fun allChunks pc => allChunks ++ Loader.ChunkDocument (fst pc) (snd pc)) l acc
  = acc ++ concat (map (fun pc => Loader.ChunkDocument (fst pc) (snd pc)) l).
Proof.
  induction l as [|pc l IH]; intros acc; cbn [fold_left map concat].
  - rewrite app_nil_r. reflexivity.
  - rewrite IH, app_assoc. reflexivity.
Qed.

Lemma length_concat_chunks : forall l : list (gostring * gostring),
  (length l <= length (concat (map (fun pc => Loader.ChunkDocument (fst pc) (snd pc)) l)))%nat.
Proof.
  induction l as [|pc l IH]; cbn [map concat length]; [lia|].
  rewrite length_app.
  pose proof (LoaderFacts.ChunkDocument_nonempty (fst pc) (snd pc)) as Hne.
  destruct (Loader.ChunkDocument (fst pc) (snd pc)); [contradiction|]. cbn [length]. lia.
Qed.

End Facts.
End LoaderFSFacts.

(** X9. LoadDocuments loads nothing else than markdown files: every
    entry of the map it returns, with or without an error, is the content
    read from a visited file that is no directory and whose path ends in
    ".md", under the path relative to the root (the path itself when
    filepath.Rel fails). *)
Theorem LoadDocuments_entries :
  forall (Rel : gostring -> gostring -> result gostring) (root : gostring)
         (walk : list LoaderFS.visit) (k content : gostring),
    fst (LoaderFS.LoadDocuments Rel root walk) !! k = Some content ->
    exists v, In v walk /\ LoaderFS.err v = None /\ LoaderFS.isDir v = false /\
              LoaderFS.HasSuffixMd (LoaderFS.path v) = true /\
              LoaderFS.read v = Ok content /\
              k = match Rel root (LoaderFS.path v) with
                  | Ok relPath => relPath
                  | Err _ => LoaderFS.path v
                  end.
Proof.
  intros Rel root walk k content Hk. unfold LoaderFS.LoadDocuments in Hk.
  destruct (LoaderFS.walkDir Rel root walk ∅) as [docs e] eqn:E. cbn [fst] in Hk.
  destruct (LoaderFSFacts.walkDir_entries Rel root walk ∅ docs e k content E Hk)
    as [H|H]; [|exact H].
  rewrite lookup_empty in H. discriminate H.
Qed.

Lemma LoadDocuments_entries_witness :
  exists v, In v walkDocs /\ LoaderFS.err v = None /\ LoaderFS.isDir v = false /\
            LoaderFS.HasSuffixMd (LoaderFS.path v) = true /\
            LoaderFS.read v = Ok docAB /\
            bytes "a.md" = match relDocs (bytes "docs") (LoaderFS.path v) with
                           | Ok relPath => relPath
                           | Err _ => LoaderFS.path v
                           end.
Proof.
  apply (LoadDocuments_entries relDocs (bytes "docs") walkDocs (bytes "a.md") docAB).
  vm_compute. reflexivity.
Defined.

(** X10. LoadDocuments stops at the first error: when the walk up to a
    visit went without error and the function returns an error for that
    visit (WalkDir passed one, or a markdown file could not be read), the
    result is that error with the documents loaded so far, whatever comes
    after in the walk. *)
Theorem LoadDocuments_stops :
  forall (Rel : gostring -> gostring -> result gostring) (root : gostring)
         (pre post : list LoaderFS.visit) (v : LoaderFS.visit)
         (docs : gmap gostring gostring) (e : gostring),
    LoaderFS.LoadDocuments Rel root pre = (docs, None) ->
    snd (LoaderFS.walkFn Rel root docs v) = Some e ->
    LoaderFS.LoadDocuments Rel root (pre ++ v :: post) = (docs, Some e).
Proof.
  intros Rel root pre post v docs e Hpre Hv. unfold LoaderFS.LoadDocuments in *.
  rewrite (LoaderFSFacts.walkDir_app Rel root pre (v :: post) ∅ docs Hpre).
  cbn [LoaderFS.walkDir].
  destruct (LoaderFSFacts.walkFn_cases Rel root docs v)
    as [[e' E]|[E|(c & _ & _ & _ & _ & E)]]; rewrite E in *; cbn [snd] in Hv;
    try discriminate Hv.
  injection Hv as ->. reflexivity.
Qed.

Lemma LoadDocuments_stops_witness :
  LoaderFS.LoadDocuments relDocs (bytes "docs")
    ([visitDir; visitA] ++ visitBroken :: [visitP])
  = (<[bytes "a.md" := docAB]> ∅,
     Some (bytes "reading docs/b.md: permission denied")).
Proof.
  apply (LoadDocuments_stops relDocs (bytes "docs") [visitDir; visitA] [visitP]
           visitBroken (<[bytes "a.md" := docAB]> ∅)
           (bytes "reading docs/b.md: permission denied")).
  - reflexivity.
  - reflexivity.
Defined.

(** X11. LoadAndChunkAll fails exactly when LoadDocuments does, with the
    same error. Otherwise, the map being ranged over in any order, its
    chunks are those of the loaded documents: each chunk is a chunk of
    the document stored under the chunk's path, every chunk of every
    loaded document is there, and there are at least as many chunks as
    documents. *)
Theorem LoadAndChunkAll_chunks :
  forall (Rel : gostring -> gostring -> result gostring)
         (rangeMap : gmap gostring gostring -> list (gostring * gostring))
         (root : gostring) (walk : list LoaderFS.visit),
    (forall m, Permutation (rangeMap m) (map_to_list m)) ->
    let docs := fst (LoaderFS.LoadDocuments Rel root walk) in
    match LoaderFS.LoadAndChunkAll Rel rangeMap root walk with
    | Err e => snd (LoaderFS.LoadDocuments Rel root walk) = Some e
    | Ok allChunks =>
        snd (LoaderFS.LoadDocuments Rel root walk) = None /\
        (forall c, In c allChunks ->
           exists content, docs !! Chunk.Path c = Some content /\
                           In c (Loader.ChunkDocument (Chunk.Path c) content)) /\
        (forall path content c,
           docs !! path = Some content ->
           In c (Loader.ChunkDocument path content) -> In c allChunks) /\
        (size docs <= length allChunks)%nat
    end.
Proof.
  intros Rel rangeMap root walk Hrange docs. unfold LoaderFS.LoadAndChunkAll.
  subst docs. destruct (LoaderFS.LoadDocuments Rel root walk) as [docs [e|]];
    cbn [fst snd]; [reflexivity|].
  rewrite LoaderFSFacts.fold_chunks. cbn [app].
  assert (Hin : forall pc, In pc (rangeMap docs) <-> docs !! fst pc = Some (snd pc)).
  { intros [k x]. cbn [fst snd]. rewrite <- elem_of_map_to_list, <- list_elem_of_In.
    split; intros H; [rewrite <- (Hrange docs)|rewrite (Hrange docs)]; exact H. }
  split; [reflexivity|]. split; [|split].
  - intros c Hc. apply in_concat in Hc as (l & Hl & Hc).
    apply in_map_iff in Hl as ([k x] & <- & Hpc). cbn [fst snd] in Hc.
    rewrite (LoaderInvFacts.ChunkDocument_path k x c Hc).
    exists x. split; [exact (proj1 (Hin (k, x)) Hpc)|exact Hc].
  - intros path content c Hk Hc. apply in_concat.
    exists (Loader.ChunkDocument path content). split; [|exact Hc].
    apply in_map_iff. exists (path, content). split; [reflexivity|].
    apply Hin. exact Hk.
  - etransitivity; [|apply LoaderFSFacts.length_concat_chunks].
    rewrite <- length_map_to_list. rewrite (Permutation_length (Hrange docs)). lia.
Qed.

Lemma LoadAndChunkAll_chunks_witness :
  let docs := fst (LoaderFS.LoadDocuments relDocs (bytes "docs") walkDocs) in
  match LoaderFS.LoadAndChunkAll relDocs map_to_list (bytes "docs") walkDocs with
  | Err e => snd (LoaderFS.LoadDocuments relDocs (bytes "docs") walkDocs) = Some e
  | Ok allChunks =>
      snd (LoaderFS.LoadDocuments relDocs (bytes "docs") walkDocs) = None /\
      (forall c, In c allChunks ->
         exists content, docs !! Chunk.Path c = Some content /\
                         In c (Loader.ChunkDocument (Chunk.Path c) content)) /\
      (forall path content c,
         docs !! path = Some content ->
         In c (Loader.ChunkDocument path content) -> In c allChunks) /\
      (size docs <= length allChunks)%nat
  end.
Proof.
  apply (LoadAndChunkAll_chunks relDocs map_to_list (bytes "docs") walkDocs).
  intros m. reflexivity.
Defined.

(* ===================================================================== *)
(** * EmbedBatchWithProgress: the result does not depend on the schedule *)
(* ===================================================================== *)

Module BatchFacts.
Import EmbedBatch.

Section Recording.
Variable e : OpenAI.OpenAIEmbedder.
Variable texts : list gostring.

(** Recording results one after the other keeps the number of slots,
    sends one value for every item, leaves the slots of the other items
    alone and fills the slot of every successful item. *)
Lemma fold_record_batch : forall (order : list nat) (s : shared),
  let s' := fold_left (fun s i => record i (call e texts i) s) order s in
  length (embeddings s') = length (embeddings s) /\
  errChan s' = errChan s ++
    map (fun i => match call e texts i with Err m => Some m | Ok _ => None end) order /\
  (forall j, ~ In j order -> embeddings s' !! j = embeddings s !! j) /\
  (forall j v, In j order -> (j < length (embeddings s))%nat ->
     call e texts j = Ok v -> embeddings s' !! j = Some v).
Proof.
  induction order as [|i order IH]; intros s; cbn zeta; cbn [fold_left map].
  - rewrite app_nil_r. repeat split; try reflexivity. intros j v [].
  - set (s1 := record i (call e texts i) s).
    destruct (IH s1) as (Hlen & Herr & Hkeep & Hnew). cbn zeta in *.
    assert (Hlen1 : length (embeddings s1) = length (embeddings s)).
    { unfold s1, record. destruct (call e texts i); cbn [embeddings];
        [apply length_insert|reflexivity]. }
    assert (Herr1 : errChan s1 = errChan s ++
              [match call e texts i with Err m => Some m | Ok _ => None end]).
    { unfold s1, record. destruct (call e texts i); reflexivity. }
    assert (Hkeep1 : forall j, j <> i -> embeddings s1 !! j = embeddings s !! j).
    { intros j Hj. unfold s1, record. destruct (call e texts i); cbn [embeddings];
        [|reflexivity]. apply list_lookup_insert_ne. congruence. }
    split; [congruence|]. split; [|split].
    + rewrite Herr, Herr1, <- app_assoc. reflexivity.
    + intros j Hj. rewrite Hkeep by (intros H; apply Hj; right; exact H).
      apply Hkeep1. intros ->. apply Hj. left. reflexivity.
    + intros j v Hj Hlt Hv.
      destruct (in_dec Nat.eq_dec j order) as [Hin|Hnin].
      * apply Hnew; [exact Hin|lia|exact Hv].
      * destruct Hj as [->|Hj]; [|contradiction].
        rewrite Hkeep by exact Hnin. unfold s1, record. rewrite Hv. cbn [embeddings].
        apply list_lookup_insert_eq. exact Hlt.
Qed.

Lemma firstError_none : forall order : list nat,
  firstError (map (fun i => match call e texts i with Err m => Some m | Ok _ => None end)
                order) = None ->
  forall i, In i order -> exists v, call e texts i = Ok v.
Proof.
  induction order as [|j order IH]; intros H i Hi; [destruct Hi|].
  cbn [map firstError] in H. destruct (call e texts j) as [v|m] eqn:E; [|discriminate H].
  destruct Hi as [<-|Hi]; [eauto|apply IH; assumption].
Qed.

Lemma firstError_some : forall (order : list nat) (message : gostring),
  firstError (map (fun i => match call e texts i with Err m => Some m | Ok _ => None end)
                order) = Some message ->
  exists i, In i order /\ call e texts i = Err message.
Proof.
  induction order as [|j order IH]; intros message H; [discriminate H|].
  cbn [map firstError] in H. destruct (call e texts j) as [v|m] eqn:E.
  - destruct (IH message H) as (i & Hi & Hc). exists i. split; [right; exact Hi|exact Hc].
  - injection H as <-. exists j. split; [left; reflexivity|exact E].
Qed.

End Recording.
End BatchFacts.

(** X12. Whatever the schedule of its goroutines, when
    EmbedBatchWithProgress returns vectors they are the results of Embed
    for the texts, one for each text and in the order of the texts; when
    it returns an error it is the error of Embed for one of the texts. *)
Theorem EmbedBatch_results :
  forall (e : OpenAI.OpenAIEmbedder) (texts : list gostring)
         (schedule : list Pool.event) (r : result (list (list Binary32.float32))),
    EmbedBatch.EmbedBatchWithProgress e texts schedule = Some r ->
    match r with
    | Ok embeddings =>
        Forall2 (fun text emb => OpenAI.Embed e text = Ok emb) texts embeddings
    | Err message =>
        exists text, In text texts /\ OpenAI.Embed e text = Err message
    end.
Proof.
  intros e texts schedule r H. unfold EmbedBatch.EmbedBatchWithProgress in H.
  set (work := seq 0 (length texts)) in *.
  destruct (Pool.exec work _ _ schedule _) as [st|] eqn:Hexec; [|discriminate H].
  cbn [mbind option_bind] in H.
  destruct (Pool.next st =? length texts)%nat; [|discriminate H].
  destruct (TraceFacts.traced_exec work (EmbedBatch.call e texts) EmbedBatch.record
              (seq_NoDup _ _) (EmbedBatch.start texts) schedule _ st
              (PoolFacts.invariant_init work _)
              (TraceFacts.traced_init work _ _ _) Hexec)
    as (_ & Hnd & _ & Hrec & _ & Hshared).
  assert (Hsub : forall i, In i (Pool.recorded st) -> (i < length texts)%nat).
  { intros i Hi. apply Hrec in Hi as (k & p & Hk & _).
    apply list_elem_of_lookup_2, list_elem_of_In, in_seq in Hk. lia. }
  destruct (BatchFacts.fold_record_batch e texts (Pool.recorded st) (EmbedBatch.start texts))
    as (Hlen & Herr & _ & Hnew).
  cbn zeta in *. rewrite <- Hshared in Hlen, Herr, Hnew.
  cbn [EmbedBatch.start EmbedBatch.embeddings EmbedBatch.errChan app] in Hlen, Herr, Hnew.
  rewrite length_replicate in Hlen, Hnew.
  rewrite Herr in H.
  destruct (EmbedBatch.firstError _) as [message|] eqn:Hfirst.
  - injection H as <-.
    destruct (BatchFacts.firstError_some e texts _ _ Hfirst) as (i & Hi & Hc).
    unfold EmbedBatch.call in Hc.
    destruct (texts !! i) as [text|] eqn:Et.
    + exists text. split; [|exact Hc].
      apply list_elem_of_In. eapply list_elem_of_lookup_2. exact Et.
    + apply Hsub in Hi. apply lookup_ge_None in Et. lia.
  - destruct (Nat.eqb_spec (length (Pool.recorded st)) (length texts)) as [Hall|];
      [|discriminate H].
    injection H as <-.
    assert (Hincl : incl work (Pool.recorded st)).
    { apply NoDup_length_incl; [exact Hnd| |].
      - unfold work. rewrite length_seq. lia.
      - intros i Hi. apply in_seq. specialize (Hsub i Hi). lia. }
    apply Forall2_same_length_lookup_2.
    + congruence.
    + intros i text emb Ht Hemb.
      assert (Hlt : (i < length texts)%nat) by (eapply lookup_lt_Some; exact Ht).
      assert (Hi : In i (Pool.recorded st)) by (apply Hincl, in_seq; lia).
      destruct (BatchFacts.firstError_none e texts _ Hfirst i Hi) as [v Hv].
      rewrite (Hnew i v Hi Hlt Hv) in Hemb. injection Hemb as <-.
      unfold EmbedBatch.call in Hv. rewrite Ht in Hv. exact Hv.
Qed.

Lemma EmbedBatch_results_witness :
  Forall2 (fun text emb => OpenAI.Embed service34 text = Ok emb)
    [bytes "doc1"; bytes "doc2"] [vec34; vec34].
Proof.
  apply (EmbedBatch_results service34 [bytes "doc1"; bytes "doc2"] schedule2
           (Ok [vec34; vec34])).
  vm_compute. reflexivity.
Defined.

(** X13. EmbedBatchWithProgress can always return: when its goroutines
    run one after the other it gives a result, for every embedder and
    every list of texts. *)
Theorem EmbedBatch_returns :
  forall (e : OpenAI.OpenAIEmbedder) (texts : list gostring),
    exists r,
      EmbedBatch.EmbedBatchWithProgress e texts
        (Pool.sequential (seq 0 (length texts))) = Some r.
Proof.
  intros e texts. unfold EmbedBatch.EmbedBatchWithProgress.
  set (work := seq 0 (length texts)).
  destruct (ScheduleFacts.sequential_finishes work (EmbedBatch.call e texts)
              EmbedBatch.record (EmbedBatch.start texts)) as (st & Hexec & Hfin).
  rewrite Hexec. cbn [mbind option_bind].
  destruct (TraceFacts.finished_traces work _ _ (seq_NoDup _ _) _ _ st Hexec Hfin)
    as (_ & Hperm & _).
  apply Permutation_length in Hperm. unfold work in Hperm. rewrite length_seq in Hperm.
  unfold Pool.finished in Hfin. apply andb_true_iff in Hfin as [Hnext _].
  unfold work in Hnext. rewrite length_seq in Hnext. rewrite Hnext.
  destruct (EmbedBatch.firstError _); [eauto|].
  rewrite Hperm, Nat.eqb_refl. eauto.
Qed.

(* ===================================================================== *)
(** * SimpleEmbedder *)
(* ===================================================================== *)

Module SimpleFacts.

Ltac range_case IH Hn Hin :=
  destruct Hin as [Hin|Hin];
  [injection Hin as <- _; lia
  |apply IH in Hin; [lia|cbn [length] in Hn |- *; lia]].

(** [range] over a string delivers positions from the first byte on. *)
Lemma rangeFrom_positions_bounded : forall (n : nat) (s : gostring) (i p c : Z),
  (length s <= n)%nat -> In (p, c) (UTF8.rangeFrom i s) -> i <= p.
Proof.
  induction n as [|n IH]; intros s i p c Hn Hin.
  - destruct s; [destruct Hin|cbn in Hn; lia].
  - destruct s as [|b0 r0]; [destruct Hin|]. cbn [UTF8.rangeFrom] in Hin.
    cbv zeta in Hin.
    destruct (UTF8.between 0 127 b0); [range_case IH Hn Hin|].
    destruct r0 as [|b1 r1]; [range_case IH Hn Hin|].
    destruct (UTF8.valid2 b0 b1); [range_case IH Hn Hin|].
    destruct r1 as [|b2 r2]; [range_case IH Hn Hin|].
    destruct (UTF8.valid3 b0 b1 b2); [range_case IH Hn Hin|].
    destruct r2 as [|b3 r3]; [range_case IH Hn Hin|].
    destruct (UTF8.valid4 b0 b1 b2 b3); range_case IH Hn Hin.
Qed.

Lemma rangeString_positions : forall (s : gostring) (p c : Z),
  In (p, c) (UTF8.rangeString s) -> 0 <= p.
Proof. intros s p c. apply (rangeFrom_positions_bounded (length s)). lia. Qed.

Lemma rangeFrom_cons : forall (b0 : byte) (r0 : gostring) (i : Z),
  exists c l, UTF8.rangeFrom i (b0 :: r0) = (i, c) :: l.
Proof.
  intros b0 r0 i. cbn [UTF8.rangeFrom]. cbv zeta.
  destruct (UTF8.between 0 127 b0); [eauto|].
  destruct r0 as [|b1 r1]; [eauto|].
  destruct (UTF8.valid2 b0 b1); [eauto|].
  destruct r1 as [|b2 r2]; [eauto|].
  destruct (UTF8.valid3 b0 b1 b2); [eauto|].
  destruct r2 as [|b3 r3]; [eauto|].
  destruct (UTF8.valid4 b0 b1 b2 b3); eauto.
Qed.

Section Embed.
Context {F : Type} {FA : FloatArith F}.

Lemma hashStep_none : forall (e : Simple.SimpleEmbedder) (l : list (Z * Z)),
  fold_left (Simple.hashStep (F:=F) e) l None = None.
Proof. intros e l. induction l as [|ic l IH]; [reflexivity|exact IH]. Qed.

(** With a positive dimension every index of the loop is within the
    vector. *)
Lemma hash_loop : forall (e : Simple.SimpleEmbedder) (l : list (Z * Z)) (vec : list F),
  0 < Simple.dim e ->
  (forall p c, In (p, c) l -> 0 <= p) ->
  length vec = Z.to_nat (Simple.dim e) ->
  exists vec', fold_left (Simple.hashStep e) l (Some vec) = Some vec' /\
               length vec' = length vec.
Proof.
  intros e l. induction l as [|[p c] l IH]; intros vec Hdim Hpos Hlen.
  - exists vec. auto.
  - cbn [fold_left]. unfold Simple.hashStep at 2. cbn [mbind option_bind fst snd].
    destruct (Z.eqb_spec (Simple.dim e) 0) as [E|_]; [lia|].
    assert (Hp : 0 <= p) by (apply (Hpos p c); left; reflexivity).
    pose proof (Z.rem_bound_pos p (Simple.dim e) Hp Hdim) as Hrem.
    assert (Hidx : (Z.to_nat (Z.rem p (Simple.dim e)) < length vec)%nat) by lia.
    apply lookup_lt_is_Some_2 in Hidx as [x Hx]. rewrite Hx. cbn [mbind option_bind].
    destruct (IH (<[Z.to_nat (Z.rem p (Simple.dim e)) :=
                     fadd x (fdiv (fofZ c) (fofZ 1000))]> vec) Hdim) as (vec' & Hf & Hl).
    + intros q d Hq. apply (Hpos q d). right. exact Hq.
    + rewrite length_insert. exact Hlen.
    + exists vec'. split; [exact Hf|]. rewrite Hl. apply length_insert.
Qed.

(** Embed panics for a negative dimension ([make]) and for dimension 0
    with a text that is not empty (remainder by zero), and never
    otherwise; a vector it returns has the dimension of the embedder. *)
Lemma Embed_cases : forall (e : Simple.SimpleEmbedder) (text : gostring),
  match Simple.Embed (F:=F) e text with
  | None => Simple.dim e < 0 \/ (Simple.dim e = 0 /\ text <> [])
  | Some vec => Z.of_nat (length vec) = Simple.dim e /\
                ~ (Simple.dim e < 0 \/ (Simple.dim e = 0 /\ text <> []))
  end.
Proof.
  intros e text. unfold Simple.Embed.
  destruct (Z.ltb_spec (Simple.dim e) 0) as [Hneg|Hge]; [left; exact Hneg|].
  set (r := fold_left (Simple.hashStep e) (UTF8.rangeString text)
              (Some (replicate (Z.to_nat (Simple.dim e)) fzero))).
  assert (Hr : match r with
               | None => Simple.dim e = 0 /\ text <> []
               | Some vec => Z.of_nat (length vec) = Simple.dim e /\
                             ~ (Simple.dim e = 0 /\ text <> [])
               end).
  { unfold r. destruct (Z.eq_dec (Simple.dim e) 0) as [Hzero|Hnz].
    - destruct text as [|b0 r0].
      + cbn [UTF8.rangeString UTF8.rangeFrom fold_left]. rewrite length_replicate.
        split; [lia|]. intros [_ H]. contradiction.
      + unfold UTF8.rangeString.
        destruct (rangeFrom_cons b0 r0 0) as (c & l & ->). cbn [fold_left].
        unfold Simple.hashStep at 2. cbn [mbind option_bind].
        rewrite Hzero. cbn [Z.eqb]. rewrite hashStep_none.
        split; [reflexivity|discriminate].
    - destruct (hash_loop e (UTF8.rangeString text)
                  (replicate (Z.to_nat (Simple.dim e)) fzero)) as (vec & -> & Hl).
      + lia.
      + apply rangeString_positions.
      + apply length_replicate.
      + rewrite length_replicate in Hl. split; [lia|]. intros [H _]. contradiction. }
  destruct r as [vec|]; cbn [mbind option_bind]; [|right; exact Hr].
  destruct Hr as [Hl Hn].
  assert (Hno : ~ (Simple.dim e < 0 \/ Simple.dim e = 0 /\ text <> []))
    by (intros [H|H]; [lia|contradiction]).
  cbv zeta. destruct (fltb _ _); [|auto].
  rewrite alter_all, length_map. auto.
Qed.

Lemma batchStep_none : forall (e : Simple.SimpleEmbedder) (texts : list gostring),
  fold_left (SimpleBatch.batchStep (F:=F) e) texts None = None.
Proof. intros e texts. induction texts as [|t texts IH]; [reflexivity|exact IH]. Qed.

(** The loop of EmbedBatch when the vectors [pre] are in place. *)
Lemma batch_loop : forall (e : Simple.SimpleEmbedder) (rest : list gostring)
    (pre : list (list F)),
  fold_left (SimpleBatch.batchStep e) rest
    (Some (length pre, pre ++ replicate (length rest) []))
  = (fun l => (length pre + length rest, pre ++ l)%nat) <$> mapM (Simple.Embed e) rest.
Proof.
  intros e. induction rest as [|t rest IH]; intros pre.
  - cbn. rewrite Nat.add_0_r. reflexivity.
  - cbn [fold_left length replicate mapM].
    assert (Hstep : forall i l,
              SimpleBatch.batchStep e (Some (i, l)) t
              = emb ← Simple.Embed e t; Some (S i, <[i := emb]> l)) by reflexivity.
    rewrite Hstep.
    destruct (Simple.Embed e t) as [emb|]; cbn [mbind option_bind fmap option_fmap option_map].
    + replace (<[length pre := emb]> (pre ++ [] :: replicate (length rest) []))
        with ((pre ++ [emb]) ++ replicate (length rest) (@nil F)).
      2:{ rewrite insert_app_r_alt by lia. rewrite Nat.sub_diag.
          cbn. rewrite <- app_assoc. reflexivity. }
      replace (S (length pre)) with (length (pre ++ [emb]))
        by (rewrite length_app; cbn; lia).
      rewrite IH.
      destruct (mapM (Simple.Embed e) rest) as [l|];
        cbn [mbind option_bind mret option_ret fmap option_fmap option_map];
        [|reflexivity].
      rewrite length_app, <- app_assoc. cbn [length app]. do 2 f_equal. lia.
    + apply batchStep_none.
Qed.

End Embed.
End SimpleFacts.

(** X14. SimpleEmbedder.Embed panics exactly for a negative dimension,
    and for dimension 0 with a text that is not empty; in every other
    case it returns a vector with as many components as the dimension of
    the embedder. *)
Theorem SimpleEmbed_total :
  forall (e : Simple.SimpleEmbedder) (text : gostring),
    (Simple.Embed (F:=Binary32.float32) e text = None <->
     Simple.Dimension e < 0 \/ (Simple.Dimension e = 0 /\ text <> [])) /\
    match Simple.Embed (F:=Binary32.float32) e text with
    | Some vec => Z.of_nat (length vec) = Simple.Dimension e
    | None => True
    end.
Proof.
  intros e text. unfold Simple.Dimension.
  pose proof (SimpleFacts.Embed_cases (F:=Binary32.float32) e text) as H.
  destruct (Simple.Embed e text) as [vec|].
  - destruct H as [Hl Hn]. split; [|exact Hl].
    split; [discriminate|]. intros Hc. contradiction.
  - split; [|exact I]. split; [intros _; exact H|reflexivity].
Qed.

(** X15. SimpleEmbedder.EmbedBatch gives the vectors of Embed for the
    texts, in the order of the texts, and panics exactly when Embed
    panics for one of them. *)
Theorem SimpleEmbedBatch_maps :
  forall (e : Simple.SimpleEmbedder) (texts : list gostring),
    SimpleBatch.EmbedBatch (F:=Binary32.float32) e texts
    = mapM (Simple.Embed e) texts.
Proof.
  intros e texts. unfold SimpleBatch.EmbedBatch.
  pose proof (SimpleFacts.batch_loop (F:=Binary32.float32) e texts []) as H.
  cbn [length app Nat.add] in H. rewrite H.
  destruct (mapM (Simple.Embed e) texts); reflexivity.
Qed.

(* ===================================================================== *)
(** * cmd/generate-embeddings: how a run ends *)
(* ===================================================================== *)

Module OutcomeFacts.
Import GenerateEmbeddings.

Lemma filter_filter {A : Type} (f g : A -> bool) (l : list A) :
  List.filter g (List.filter f l) = List.filter (fun x => f x && g x) l.
Proof.
  induction l as [|x l IH]; [reflexivity|]. cbn [List.filter].
  destruct (f x); cbn [List.filter andb]; [destruct (g x)|]; congruence.
Qed.

(** The checkpoint that main works on passes the check of step 2.5. *)
Lemma selectCheckpoint_matches : forall found chunks emb,
  length (Chunks (selectCheckpoint found chunks emb)) = length chunks /\
  ModelInfo (selectCheckpoint found chunks emb) = OpenAI.ModelInfo emb.
Proof.
  intros found chunks emb.
  destruct (PipelineFacts.selectCheckpoint_cases found chunks emb)
    as [(c & _ & Hl & Hm & ->)|[-> _]]; auto.
Qed.

Section Recording.
Variable emb : OpenAI.OpenAIEmbedder.
Variable chunks : list Chunk.t.

(** An index is marked as completed by recording exactly when its call
    succeeded. *)
Lemma fold_completed : forall (order : list nat) (s : shared),
  (forall i, In i order -> (i < length (Embeddings (cp s)))%nat) ->
  let s' := fold_left (fun s i => record chunks i (call emb chunks i) s) order s in
  forall j, isCompleted (cp s') j = true <->
            isCompleted (cp s) j = true \/
            (In j order /\ exists v, call emb chunks j = Ok v).
Proof.
  induction order as [|i order IH]; intros s Hslots; cbn zeta; cbn [fold_left].
  - intros j. split; [auto|]. intros [H|[[] _]]. exact H.
  - set (s1 := record chunks i (call emb chunks i) s).
    assert (Hi : (i < length (Embeddings (cp s)))%nat) by (apply Hslots; left; reflexivity).
    assert (H1 : length (Embeddings (cp s1)) = length (Embeddings (cp s)) /\
                 forall j, isCompleted (cp s1) j = true <->
                           isCompleted (cp s) j = true \/
                           (j = i /\ exists v, call emb chunks j = Ok v)).
    { unfold s1, record. destruct (call emb chunks i) as [v|m] eqn:E.
      - apply Nat.ltb_lt in Hi. rewrite Hi. cbn [cp Embeddings].
        split; [apply length_insert|].
        intros j. unfold isCompleted. cbn [Completed].
        destruct (Nat.eq_dec j i) as [->|Hne].
        + rewrite lookup_insert_eq. cbn. split; [|reflexivity].
          intros _. right. split; [reflexivity|]. exists v. exact E.
        + rewrite lookup_insert_ne by lia. split; [auto|].
          intros [H|[H _]]; [exact H|contradiction].
      - cbn [cp]. split; [reflexivity|]. intros j. split; [auto|].
        intros [H|[-> [v Hv]]]; [exact H|]. rewrite E in Hv. discriminate Hv. }
    destruct H1 as [Hlen Hc1].
    intros j. rewrite (IH s1).
    + rewrite Hc1. cbn [In]. split.
      * intros [[H|[E Hv]]|[Hin Hv]]; [left; exact H|right|right].
        -- split; [left; symmetry; exact E|exact Hv].
        -- split; [right; exact Hin|exact Hv].
      * intros [H|[[E|Hin] Hv]]; [left; left; exact H|left; right|right].
        -- split; [symmetry; exact E|exact Hv].
        -- split; [exact Hin|exact Hv].
    + intros k Hk. rewrite Hlen. apply Hslots. right. exact Hk.
Qed.

End Recording.

(** A complete run records the results of the indices to process in some
    order; it ends with the index when none of the calls failed and with
    the errors and the checkpoint otherwise. *)
Lemma main_run : forall (found : loaded) (chunks : list Chunk.t)
    (emb : OpenAI.OpenAIEmbedder) (schedule : list Pool.event)
    (out : outcome) (called : list nat),
  length (Embeddings (selectCheckpoint found chunks emb)) = length chunks ->
  main found chunks emb schedule = Some (out, called) ->
  exists order,
    Permutation order (toProcess chunks (selectCheckpoint found chunks emb)) /\
    Permutation called (toProcess chunks (selectCheckpoint found chunks emb)) /\
    out = match errorsOf emb chunks order with
          | [] =>
              IndexWritten
                (assemble
                   (cp (fold_left (fun s i => record chunks i (call emb chunks i) s) order
                          (start chunks (selectCheckpoint found chunks emb)
                             (match found with Existing c => Some c | _ => None end)))))
          | errs =>
              Stopped errs
                (cp (fold_left (fun s i => record chunks i (call emb chunks i) s) order
                       (start chunks (selectCheckpoint found chunks emb)
                          (match found with Existing c => Some c | _ => None end))))
          end.
Proof.
  intros found chunks emb schedule out called Hslots Hmain. unfold main in Hmain.
  set (cp0 := selectCheckpoint found chunks emb) in *.
  set (work := toProcess chunks cp0) in *.
  set (s0 := start chunks cp0 _) in *.
  destruct (Nat.eqb_spec (length work) 0) as [Hzero|Hpos].
  - injection Hmain as <- <-. destruct work; [|discriminate Hzero].
    exists []. repeat split; constructor.
  - destruct (Pool.exec _ _ _ _ _) as [st|] eqn:Hexec; [|discriminate Hmain].
    cbn [mbind option_bind] in Hmain.
    destruct (Pool.finished work st) eqn:Hfin; [|discriminate Hmain].
    injection Hmain as <- <-.
    destruct (TraceFacts.finished_traces work _ _
                (PipelineFacts.toProcess_NoDup chunks cp0) _ schedule st Hexec Hfin)
      as (Hcalls & Hrec & Hshared).
    exists (Pool.recorded st). split; [exact Hrec|]. split; [exact Hcalls|].
    destruct (PipelineFacts.fold_record emb chunks (Pool.recorded st) s0 eq_refl)
      as (Hp & _ & _ & _ & _ & He & _).
    { intros i Hi. cbn [s0 start cp]. rewrite Hslots.
      apply (Permutation_in _ Hrec) in Hi.
      apply PipelineFacts.toProcess_In in Hi. tauto. }
    rewrite <- Hshared in *. unfold conclude. rewrite Hp, He.
    cbn [s0 start errChan omap].
    change (omap (fun err : option embedError => err) []) with (@nil embedError).
    cbn [app]. destruct (errorsOf emb chunks (Pool.recorded st)); reflexivity.
Qed.

End OutcomeFacts.

(** X16. How a complete run of cmd/generate-embeddings ends, when the
    checkpoint it works on has a slot for every chunk: it never panics;
    it writes the index only if no call of Embed failed; otherwise it
    reports one error for each failed call and saves a checkpoint that
    the next run accepts and from which it has exactly the failed chunks
    left to process. *)
Theorem main_outcome :
  forall (found : GenerateEmbeddings.loaded) (chunks : list Chunk.t)
         (emb : OpenAI.OpenAIEmbedder) (schedule : list Pool.event)
         (out : GenerateEmbeddings.outcome) (called : list nat),
    let cp0 := GenerateEmbeddings.selectCheckpoint found chunks emb in
    length (GenerateEmbeddings.Embeddings cp0) = length chunks ->
    GenerateEmbeddings.main found chunks emb schedule = Some (out, called) ->
    match out with
    | GenerateEmbeddings.Panic => False
    | GenerateEmbeddings.IndexWritten _ =>
        forall i, In i (GenerateEmbeddings.toProcess chunks cp0) ->
                  exists v, GenerateEmbeddings.call emb chunks i = Ok v
    | GenerateEmbeddings.Stopped errs file =>
        errs <> [] /\
        Permutation errs
          (GenerateEmbeddings.errorsOf emb chunks
             (GenerateEmbeddings.toProcess chunks cp0)) /\
        GenerateEmbeddings.selectCheckpoint (GenerateEmbeddings.Existing file) chunks emb
          = file /\
        GenerateEmbeddings.toProcess chunks file
          = List.filter
              (fun i => match GenerateEmbeddings.call emb chunks i with
                        | Err _ => true
                        | Ok _ => false
                        end)
              (GenerateEmbeddings.toProcess chunks cp0)
    end.
Proof.
  intros found chunks emb schedule out called cp0 Hslots Hmain.
  destruct (OutcomeFacts.main_run found chunks emb schedule out called Hslots Hmain)
    as (order & Horder & _ & ->).
  fold cp0 in Horder |- *.
  set (s0 := GenerateEmbeddings.start chunks cp0 _).
  assert (Hin : forall i, In i order ->
                  (i < length (GenerateEmbeddings.Embeddings (GenerateEmbeddings.cp s0)))%nat).
  { intros i Hi. cbn [s0 GenerateEmbeddings.start GenerateEmbeddings.cp]. rewrite Hslots.
    apply (Permutation_in _ Horder) in Hi.
    apply PipelineFacts.toProcess_In in Hi. tauto. }
  destruct (GenerateEmbeddings.errorsOf emb chunks order) as [|err errs] eqn:Eerr.
  - intros i Hi. apply (PipelineFacts.errorsOf_nil emb chunks order Eerr).
    apply (Permutation_in _ (Permutation_sym Horder)). exact Hi.
  - destruct (PipelineFacts.fold_record emb chunks order s0 eq_refl Hin)
      as (_ & Hc & Hm & _ & _ & _ & _ & _).
    pose proof (OutcomeFacts.fold_completed emb chunks order s0 Hin) as Hdone.
    cbn zeta in Hc, Hm, Hdone.
    set (file := GenerateEmbeddings.cp (fold_left _ order s0)) in *.
    cbn [s0 GenerateEmbeddings.start GenerateEmbeddings.cp] in Hc, Hm, Hdone.
    destruct (OutcomeFacts.selectCheckpoint_matches found chunks emb) as [Hl0 Hm0].
    fold cp0 in Hl0, Hm0.
    split; [discriminate|]. split; [|split].
    + rewrite <- Eerr. unfold GenerateEmbeddings.errorsOf.
      apply omap_Permutation. exact Horder.
    + unfold GenerateEmbeddings.selectCheckpoint, GenerateEmbeddings.mismatch.
      rewrite Hc, Hm, Hl0, Hm0, Nat.eqb_refl.
      rewrite (proj2 (eqString_eq _ _) eq_refl). reflexivity.
    + unfold GenerateEmbeddings.toProcess at 1 2.
      rewrite OutcomeFacts.filter_filter. apply filter_ext_in.
      intros i Hi. apply in_seq in Hi.
      destruct (GenerateEmbeddings.isCompleted cp0 i) eqn:E0.
      * cbn [negb andb]. apply negb_false_iff. apply Hdone. left. exact E0.
      * cbn [negb andb].
        assert (Hio : In i order).
        { apply (Permutation_in _ (Permutation_sym Horder)).
          apply PipelineFacts.toProcess_In. split; [lia|exact E0]. }
        destruct (GenerateEmbeddings.call emb chunks i) as [v|m] eqn:Ecall.
        -- apply negb_false_iff. apply Hdone. right. split; [exact Hio|].
           exists v. exact Ecall.
        -- apply negb_true_iff.
           destruct (GenerateEmbeddings.isCompleted file i) eqn:Ef; [|reflexivity].
           apply Hdone in Ef as [Ef|[_ [v Hv]]]; congruence.
Qed.

Lemma main_outcome_witness :
  errsBlank <> [] /\
  Permutation errsBlank
    (GenerateEmbeddings.errorsOf service34 chunksBlank
       (GenerateEmbeddings.toProcess chunksBlank
          (GenerateEmbeddings.selectCheckpoint GenerateEmbeddings.NoCheckpoint
             chunksBlank service34))) /\
  GenerateEmbeddings.selectCheckpoint (GenerateEmbeddings.Existing cpBlank)
    chunksBlank service34 = cpBlank /\
  GenerateEmbeddings.toProcess chunksBlank cpBlank
    = List.filter
        (fun i => match GenerateEmbeddings.call service34 chunksBlank i with
                  | Err _ => true
                  | Ok _ => false
                  end)
        (GenerateEmbeddings.toProcess chunksBlank
           (GenerateEmbeddings.selectCheckpoint GenerateEmbeddings.NoCheckpoint
              chunksBlank service34)).
Proof.
  apply (main_outcome GenerateEmbeddings.NoCheckpoint chunksBlank service34 schedule2
           (GenerateEmbeddings.Stopped errsBlank cpBlank) [0; 1]%nat).
  - reflexivity.
  - vm_compute. reflexivity.
Defined.

(** X17. The index that a complete run from scratch writes holds the
    chunks it was given and, for each chunk and in the same order, the
    vector that Embed returned for the content of the chunk; it names the
    model and the dimension of the embedder; Embed was called once for
    every chunk; and Search on this index, once loaded, never panics. *)
Theorem main_fresh_index :
  forall (found : GenerateEmbeddings.loaded) (chunks : list Chunk.t)
         (emb : OpenAI.OpenAIEmbedder) (schedule : list Pool.event)
         (embData : EmbeddingData.t Binary32.float32) (called : list nat),
    (forall existingCP, found <> GenerateEmbeddings.Existing existingCP) ->
    GenerateEmbeddings.main found chunks emb schedule
      = Some (GenerateEmbeddings.IndexWritten embData, called) ->
    EmbeddingData.Chunks embData = chunks /\
    Forall2 (fun chunk v => OpenAI.Embed emb (Chunk.Content chunk) = Ok v)
      chunks (EmbeddingData.Embeddings embData) /\
    EmbeddingData.ModelInfo embData = OpenAI.ModelInfo emb /\
    EmbeddingData.Dimension embData = OpenAI.Dimension emb /\
    Permutation called (seq 0 (length chunks)) /\
    forall (sort_slice : SortSlice) (queryEmbedding : list Binary32.float32)
           (topK : Z) (threshold : Binary32.float32),
      Search sort_slice (LoadIndex embData) queryEmbedding topK threshold <> None.
Proof.
  intros found chunks emb schedule embData called Hfresh Hmain.
  assert (Hcp : GenerateEmbeddings.selectCheckpoint found chunks emb
                = GenerateEmbeddings.newCheckpoint chunks emb).
  { destruct found as [| |c]; try reflexivity. exfalso. exact (Hfresh c eq_refl). }
  assert (Hwork : GenerateEmbeddings.toProcess chunks
                    (GenerateEmbeddings.newCheckpoint chunks emb) = seq 0 (length chunks)).
  { destruct (PipelineFacts.selectCheckpoint_cases GenerateEmbeddings.NoCheckpoint
                chunks emb) as [(c & Hc & _)|[_ H]]; [discriminate Hc|exact H]. }
  assert (Hslots : length (GenerateEmbeddings.Embeddings
                             (GenerateEmbeddings.selectCheckpoint found chunks emb))
                   = length chunks).
  { rewrite Hcp. cbn [GenerateEmbeddings.newCheckpoint GenerateEmbeddings.Embeddings].
    apply length_replicate. }
  destruct (OutcomeFacts.main_run found chunks emb schedule _ called Hslots Hmain)
    as (order & Horder & Hcalled & Hout).
  rewrite Hcp, Hwork in Horder, Hcalled. rewrite Hcp in Hout.
  set (s0 := GenerateEmbeddings.start chunks (GenerateEmbeddings.newCheckpoint chunks emb) _)
    in Hout.
  destruct (GenerateEmbeddings.errorsOf emb chunks order) as [|err errs] eqn:Eerr;
    [|discriminate Hout].
  injection Hout as ->.
  destruct (PipelineFacts.fold_record emb chunks order s0 eq_refl)
    as (_ & Hc & Hm & Hd & Hlen & _ & _ & Hnew).
  { intros i Hi. cbn [s0 GenerateEmbeddings.start GenerateEmbeddings.cp
                      GenerateEmbeddings.newCheckpoint GenerateEmbeddings.Embeddings].
    rewrite length_replicate. apply (Permutation_in _ Horder), in_seq in Hi. lia. }
  cbn zeta in Hc, Hm, Hd, Hlen, Hnew.
  set (final := GenerateEmbeddings.cp (fold_left _ order s0)) in *.
  cbn [s0 GenerateEmbeddings.start GenerateEmbeddings.cp GenerateEmbeddings.newCheckpoint
       GenerateEmbeddings.Chunks GenerateEmbeddings.Embeddings
       GenerateEmbeddings.ModelInfo GenerateEmbeddings.Dimension] in Hc, Hm, Hd, Hlen.
  rewrite length_replicate in Hlen.
  cbn [GenerateEmbeddings.assemble EmbeddingData.Chunks EmbeddingData.Embeddings
       EmbeddingData.ModelInfo EmbeddingData.Dimension].
  split; [exact Hc|]. split; [|split; [exact Hm|split; [exact Hd|split; [exact Hcalled|]]]].
  - apply Forall2_same_length_lookup_2; [congruence|].
    intros i chunk v Hchunk Hv.
    assert (Hi : In i order).
    { apply (Permutation_in _ (Permutation_sym Horder)), in_seq.
      apply lookup_lt_Some in Hchunk. lia. }
    destruct (PipelineFacts.errorsOf_nil emb chunks order Eerr i Hi) as [w Hw].
    rewrite (Hnew i w Hi Hw) in Hv. injection Hv as <-.
    unfold GenerateEmbeddings.call in Hw. rewrite Hchunk in Hw. exact Hw.
  - intros sort_slice q topK threshold H. unfold Search in H.
    destruct (negb _); [discriminate H|].
    destruct (fold_left (searchStep _ q threshold) _ _) as [r|] eqn:Hloop.
    + cbn [mbind option_bind] in H. destruct (_ && _); discriminate H.
    + apply (search_loop_panics (LoadIndex _) q threshold) in Hloop.
      unfold LoadIndex in Hloop.
      cbn [VectorIndex.Chunks VectorIndex.Embeddings EmbeddingData.Chunks
           EmbeddingData.Embeddings GenerateEmbeddings.assemble] in Hloop.
      rewrite Hc, Hlen in Hloop. lia.
Qed.

Lemma main_fresh_index_witness :
  EmbeddingData.Chunks dataAB = [chunkA; chunkB] /\
  Forall2 (fun chunk v => OpenAI.Embed service34 (Chunk.Content chunk) = Ok v)
    [chunkA; chunkB] (EmbeddingData.Embeddings dataAB) /\
  EmbeddingData.ModelInfo dataAB = OpenAI.ModelInfo service34 /\
  EmbeddingData.Dimension dataAB = OpenAI.Dimension service34 /\
  Permutation [0; 1]%nat (seq 0 (length [chunkA; chunkB])) /\
  forall (sort_slice : SortSlice) (queryEmbedding : list Binary32.float32)
         (topK : Z) (threshold : Binary32.float32),
    Search sort_slice (LoadIndex dataAB) queryEmbedding topK threshold <> None.
Proof.
  apply (main_fresh_index GenerateEmbeddings.NoCheckpoint [chunkA; chunkB] service34
           schedule2 dataAB [0; 1]%nat).
  - intros existingCP H. discriminate H.
  - vm_compute. reflexivity.
Defined.

(* ===================================================================== *)
(** * cmd/minirag: findSurroundingChunks and main *)
(* ===================================================================== *)

Module CliFacts.
Import CliMain.

Lemma wrapInt_small : forall z : Z, - 2 ^ 63 <= z < 2 ^ 63 -> wrapInt z = z.
Proof. intros z Hz. unfold wrapInt. rewrite Z.mod_small; lia. Qed.

Lemma In_take {A : Type} (x : A) (n : nat) (l : list A) : In x (take n l) -> In x l.
Proof. intros H. rewrite <- (take_drop n l). apply in_or_app. left. exact H. Qed.

Lemma In_drop {A : Type} (x : A) (n : nat) (l : list A) : In x (drop n l) -> In x l.
Proof. intros H. rewrite <- (take_drop n l). apply in_or_app. right. exact H. Qed.

(** The loop over the positions [s], ..., [s + n - 1], all within the
    slice, keeps the chunks of the target's file. *)
Lemma collect_loop : forall (chunks : list Chunk.t) (target : Chunk.t) (n s : nat)
    (acc : list Chunk.t),
  ((0 < n)%nat -> (s + n <= length chunks)%nat) ->
  fold_left (collectStep chunks target) (seq s n) (Some acc)
  = Some (acc ++ List.filter (fun c => eqString (Chunk.Path c) (Chunk.Path target))
                   (take n (drop s chunks))).
Proof.
  intros chunks target. induction n as [|n IH]; intros s acc Hn.
  - cbn. rewrite app_nil_r. reflexivity.
  - cbn [seq fold_left].
    assert (Hs : (s < length chunks)%nat) by lia.
    apply lookup_lt_is_Some_2 in Hs as [c Hc].
    unfold collectStep at 2. cbn [mbind option_bind]. rewrite Hc. cbn [mbind option_bind].
    rewrite (drop_S _ _ _ Hc). cbn [take List.filter].
    destruct (eqString (Chunk.Path c) (Chunk.Path target)).
    + rewrite IH by lia. rewrite <- app_assoc. reflexivity.
    + apply IH. lia.
Qed.

Lemma findTarget_none : forall (chunks : list Chunk.t) (target : Chunk.t) (i : Z),
  (forall c, In c chunks ->
     ~ (Chunk.Path c = Chunk.Path target /\ Chunk.Offset c = Chunk.Offset target)) ->
  findTarget chunks target i = -1.
Proof.
  induction chunks as [|c chunks IH]; intros target i H; [reflexivity|].
  cbn [findTarget].
  destruct (eqString (Chunk.Path c) (Chunk.Path target)) eqn:Ep;
    [destruct (Z.eqb_spec (Chunk.Offset c) (Chunk.Offset target)) as [Eo|Eo]|];
    cbn [andb].
  - exfalso. apply (H c (or_introl eq_refl)). split; [apply eqString_eq; exact Ep|exact Eo].
  - apply IH. intros c' Hc'. apply H. right. exact Hc'.
  - apply IH. intros c' Hc'. apply H. right. exact Hc'.
Qed.

(** The loop that looks for the target stops at the first chunk with the
    path and the offset of the target. *)
Lemma findTarget_first : forall (chunks : list Chunk.t) (target : Chunk.t) (i : Z)
    (k : nat) (c : Chunk.t),
  chunks !! k = Some c ->
  Chunk.Path c = Chunk.Path target -> Chunk.Offset c = Chunk.Offset target ->
  (forall j c', (j < k)%nat -> chunks !! j = Some c' ->
     ~ (Chunk.Path c' = Chunk.Path target /\ Chunk.Offset c' = Chunk.Offset target)) ->
  findTarget chunks target i = i + Z.of_nat k.
Proof.
  induction chunks as [|c0 chunks IH]; intros target i k c Hk Hp Ho Hfirst;
    [discriminate Hk|].
  cbn [findTarget]. destruct k as [|k].
  - injection Hk as ->. rewrite (proj2 (eqString_eq _ _) Hp), Ho, Z.eqb_refl.
    cbn [andb]. lia.
  - destruct (eqString (Chunk.Path c0) (Chunk.Path target)
              && (Chunk.Offset c0 =? Chunk.Offset target)) eqn:E.
    + exfalso. apply andb_true_iff in E as [E1 E2].
      apply (Hfirst 0%nat c0); [lia|reflexivity|].
      split; [apply eqString_eq; exact E1|apply Z.eqb_eq; exact E2].
    + rewrite (IH target (i + 1) k c Hk Hp Ho); [lia|].
      intros j c' Hj Hc'. apply (Hfirst (S j) c'); [lia|exact Hc'].
Qed.

End CliFacts.

(** X18. findSurroundingChunks never indexes outside the chunks, whatever
    the context size: it always returns, every chunk it returns has the
    path of the target and is a chunk of the index or the target itself,
    and when no chunk of the index has the path and the offset of the
    target it returns the target alone. *)
Theorem findSurroundingChunks_safe :
  forall (data : EmbeddingData.t Binary32.float32) (target : Chunk.t) (contextSize : Z),
    exists result,
      CliMain.findSurroundingChunks data target contextSize = Some result /\
      (forall c, In c result ->
         Chunk.Path c = Chunk.Path target /\
         (In c (EmbeddingData.Chunks data) \/ c = target)) /\
      ((forall c, In c (EmbeddingData.Chunks data) ->
          ~ (Chunk.Path c = Chunk.Path target /\ Chunk.Offset c = Chunk.Offset target)) ->
       result = [target]).
Proof.
  intros data target contextSize. unfold CliMain.findSurroundingChunks.
  set (chunks := EmbeddingData.Chunks data).
  set (idx := CliMain.findTarget chunks target 0).
  cbv zeta.
  destruct (Z.eqb_spec idx (-1)) as [E|E].
  - exists [target]. split; [reflexivity|]. split; [|reflexivity].
    intros c [<-|[]]. auto.
  - set (start := if wrapInt (idx - contextSize) <? 0 then 0
                  else wrapInt (idx - contextSize)).
    set (end_ := if Z.of_nat (length chunks) <? wrapInt (wrapInt (idx + contextSize) + 1)
                 then Z.of_nat (length chunks)
                 else wrapInt (wrapInt (idx + contextSize) + 1)).
    assert (Hstart : 0 <= start).
    { unfold start. destruct (Z.ltb_spec (wrapInt (idx - contextSize)) 0); lia. }
    assert (Hend : end_ <= Z.of_nat (length chunks)).
    { unfold end_. destruct (Z.ltb_spec (Z.of_nat (length chunks))
                               (wrapInt (wrapInt (idx + contextSize) + 1))); lia. }
    rewrite (CliFacts.collect_loop chunks target _ _ []) by lia.
    eexists. split; [reflexivity|]. cbn [app]. split.
    + intros c Hc. apply filter_In in Hc as [Hin Hp].
      split; [apply eqString_eq; exact Hp|].
      left. eapply CliFacts.In_drop, CliFacts.In_take. exact Hin.
    + intros Hnone. exfalso. apply E.
      apply CliFacts.findTarget_none. exact Hnone.
Qed.

(** X19. For a context size that is not negative, when the chunk at
    position [k] is the first of the index with the path and the offset
    of the target, findSurroundingChunks returns the chunks of the
    target's file among the positions [k - contextSize] to
    [k + contextSize], in index order; the matched chunk is one of them,
    and there are at most [2 * contextSize + 1]. *)
Theorem findSurroundingChunks_window :
  forall (data : EmbeddingData.t Binary32.float32) (target : Chunk.t)
         (contextSize : Z) (k : nat) (c : Chunk.t),
    0 <= contextSize ->
    Z.of_nat (length (EmbeddingData.Chunks data)) + contextSize + 1 < 2 ^ 63 ->
    EmbeddingData.Chunks data !! k = Some c ->
    Chunk.Path c = Chunk.Path target -> Chunk.Offset c = Chunk.Offset target ->
    (forall j c', (j < k)%nat -> EmbeddingData.Chunks data !! j = Some c' ->
       ~ (Chunk.Path c' = Chunk.Path target /\ Chunk.Offset c' = Chunk.Offset target)) ->
    let n := Z.to_nat contextSize in
    let result :=
      List.filter (fun c' => eqString (Chunk.Path c') (Chunk.Path target))
        (take (k + n + 1 - (k - n)) (drop (k - n) (EmbeddingData.Chunks data))) in
    CliMain.findSurroundingChunks data target contextSize = Some result /\
    In c result /\
    (length result <= 2 * n + 1)%nat.
Proof.
  intros data target contextSize k c Hctx Hsize Hk Hp Ho Hfirst n result.
  set (chunks := EmbeddingData.Chunks data) in *.
  assert (Hlt : (k < length chunks)%nat) by (eapply lookup_lt_Some; exact Hk).
  split; [|split].
  - unfold CliMain.findSurroundingChunks. fold chunks.
    rewrite (CliFacts.findTarget_first chunks target 0 k c Hk Hp Ho Hfirst).
    cbv zeta. destruct (Z.eqb_spec (0 + Z.of_nat k) (-1)) as [E|_]; [lia|].
    rewrite (CliFacts.wrapInt_small (0 + Z.of_nat k - contextSize)) by lia.
    rewrite (CliFacts.wrapInt_small (0 + Z.of_nat k + contextSize)) by lia.
    rewrite (CliFacts.wrapInt_small (0 + Z.of_nat k + contextSize + 1)) by lia.
    set (start := if 0 + Z.of_nat k - contextSize <? 0 then 0
                  else 0 + Z.of_nat k - contextSize).
    set (end_ := if Z.of_nat (length chunks) <? 0 + Z.of_nat k + contextSize + 1
                 then Z.of_nat (length chunks)
                 else 0 + Z.of_nat k + contextSize + 1).
    assert (Hstart : Z.to_nat start = (k - n)%nat).
    { unfold start, n. destruct (Z.ltb_spec (0 + Z.of_nat k - contextSize) 0); lia. }
    assert (Hend : Z.to_nat (end_ - start) = (Nat.min (length chunks) (k + n + 1) - (k - n))%nat).
    { unfold end_, start, n.
      destruct (Z.ltb_spec (0 + Z.of_nat k - contextSize) 0);
        destruct (Z.ltb_spec (Z.of_nat (length chunks)) (0 + Z.of_nat k + contextSize + 1));
        lia. }
    rewrite Hstart, Hend.
    rewrite (CliFacts.collect_loop chunks target _ _ []) by lia.
    cbn [app]. unfold result. do 2 f_equal.
    destruct (Nat.le_gt_cases (k + n + 1) (length chunks)) as [Hle|Hgt].
    + rewrite Nat.min_r by lia. reflexivity.
    + rewrite Nat.min_l by lia.
      rewrite !take_ge; [reflexivity| |]; rewrite length_drop; lia.
  - unfold result. apply filter_In. split; [|apply eqString_eq; exact Hp].
    apply list_elem_of_In. apply (list_elem_of_lookup_2 _ (k - (k - n))%nat).
    rewrite lookup_take_lt by lia. rewrite lookup_drop.
    replace (k - n + (k - (k - n)))%nat with k by lia. exact Hk.
  - unfold result. etransitivity; [apply List.filter_length_le|].
    rewrite length_take. lia.
Qed.

Lemma findSurroundingChunks_window_witness :
  let n := Z.to_nat 1 in
  let result :=
    List.filter (fun c' => eqString (Chunk.Path c') (Chunk.Path chunkB))
      (take (1 + n + 1 - (1 - n)) (drop (1 - n) (EmbeddingData.Chunks data3))) in
  CliMain.findSurroundingChunks data3 chunkB 1 = Some result /\
  In chunkB result /\
  (length result <= 2 * n + 1)%nat.
Proof.
  apply (findSurroundingChunks_window data3 chunkB 1 1%nat chunkB).
  - lia.
  - cbn. lia.
  - reflexivity.
  - reflexivity.
  - reflexivity.
  - intros j c' Hj Hc' [_ Ho]. destruct j as [|j]; [|lia].
    cbn in Hc'. injection Hc' as <-. discriminate Ho.
Defined.

(** X20. main of cmd/minirag cannot panic on an index that has a vector
    for every chunk, whatever the query, the flags, the key and the
    answers of the embedding service. *)
Theorem main_no_panic :
  forall (sort_slice : SortSlice) (args : list gostring) (top : Z)
         (threshold : Binary32.float64) (embData : EmbeddingData.t Binary32.float32)
         (key : gostring) (client : gostring -> gostring -> OpenAI.response),
    (length (EmbeddingData.Chunks embData)
     <= length (EmbeddingData.Embeddings embData))%nat ->
    CliMain.main sort_slice args top threshold (Ok embData) key client
    <> CliMain.Panicked.
Proof.
  intros sort_slice args top threshold embData key client Hlen. unfold CliMain.main.
  destruct (length args =? 0)%nat; [discriminate|].
  destruct (length key =? 0)%nat; [discriminate|].
  destruct (OpenAI.NewOpenAIEmbedder _ _ _) as [emb|m]; [|discriminate].
  destruct (OpenAI.Embed emb _) as [q|m]; [|discriminate].
  destruct (Search _ _ _ _ _) as [results|] eqn:Hs.
  - destruct (length results =? 0)%nat; discriminate.
  - exfalso. unfold Search in Hs.
    destruct (negb _); [discriminate Hs|].
    destruct (fold_left (searchStep _ q _) _ _) as [r|] eqn:Hloop.
    + cbn [mbind option_bind] in Hs. destruct (_ && _); discriminate Hs.
    + apply (search_loop_panics (LoadIndex embData) q) in Hloop.
      unfold LoadIndex in Hloop.
      cbn [VectorIndex.Chunks VectorIndex.Embeddings] in Hloop. lia.
Qed.

Lemma main_no_panic_witness :
  CliMain.main insertion_sort [bytes "alpha"] 5 (S754_zero false) (Ok data3)
    (bytes "sk-test") (OpenAI.client service34)
  <> CliMain.Panicked.
Proof.
  apply (main_no_panic insertion_sort [bytes "alpha"] 5 (S754_zero false) data3
           (bytes "sk-test") (OpenAI.client service34)).
  cbn. lia.
Defined.

(** X21. main embeds the query with the model text-embedding-3-small,
    whatever model the index was made with. When the vector that the
    service returns for the query has another number of components than
    the dimension recorded in the index, main reports that there are no
    results, and neither an error nor a panic, whatever the index
    holds. *)
Theorem main_wrong_dimension :
  forall (sort_slice : SortSlice) (args : list gostring) (top : Z)
         (threshold : Binary32.float64) (embData : EmbeddingData.t Binary32.float32)
         (key : gostring) (client : gostring -> gostring -> OpenAI.response)
         (v64 : list Binary32.float64) (more : list (list Binary32.float64)),
    CliMain.joinArgs args <> [] ->
    key <> [] ->
    client (bytes "text-embedding-3-small") (CliMain.joinArgs args)
      = OpenAI.ApiData (v64 :: more) ->
    Z.of_nat (length v64) <> EmbeddingData.Dimension embData ->
    CliMain.main sort_slice args top threshold (Ok embData) key client
    = CliMain.NoResults.
Proof.
  intros sort_slice args top threshold embData key client v64 more Hq Hkey Hc Hdim.
  unfold CliMain.main.
  destruct args as [|a args]; [contradiction|]. cbn [length Nat.eqb].
  destruct key as [|b key]; [contradiction|]. cbn [length Nat.eqb].
  unfold OpenAI.NewOpenAIEmbedder. cbn [length Nat.eqb].
  unfold OpenAI.Embed. cbn [OpenAI.client OpenAI.model].
  destruct (CliMain.joinArgs (a :: args)) as [|q0 query] eqn:Eq; [contradiction|].
  cbn [length Nat.eqb]. rewrite Hc.
  unfold Search.
  replace (Z.of_nat (length (l2normalize (map Binary32.to32 v64)))
           =? VectorIndex.Dimension (LoadIndex embData)) with false; [reflexivity|].
  symmetry. apply Z.eqb_neq.
  rewrite l2normalize_cases.
  unfold LoadIndex. cbn [VectorIndex.Dimension].
  destruct (feqb _ _); rewrite ?length_map; exact Hdim.
Qed.

Lemma main_wrong_dimension_witness :
  CliMain.main insertion_sort [bytes "alpha"] 5 (S754_zero false) (Ok dataAB)
    (bytes "sk-test") (OpenAI.client service34)
  = CliMain.NoResults.
Proof.
  apply (main_wrong_dimension insertion_sort [bytes "alpha"] 5 (S754_zero false) dataAB
           (bytes "sk-test") (OpenAI.client service34)
           [Binary32.to64 (Binary32.ofZ 3); Binary32.to64 (Binary32.ofZ 4)] []).
  - discriminate.
  - discriminate.
  - reflexivity.
  - cbn. lia.
Defined.

(* ===================================================================== *)
(** * Lines that the scanner refuses *)
(* ===================================================================== *)

Module ScanFacts.
Import Go.

(** A line that reaches the size of the buffer ends the scan. *)
Lemma scanFrom_long : forall (long line rest : gostring),
  forallb (fun b => negb (Byte.eqb b newline)) long = true ->
  Z.of_nat (length line) < MaxScanTokenSize ->
  MaxScanTokenSize <= Z.of_nat (length line) + Z.of_nat (length long) ->
  scanFrom line (long ++ rest) = [].
Proof.
  induction long as [|b long IH]; intros line rest Hnl Hline Hlong.
  - cbn [length] in Hlong. lia.
  - cbn [forallb] in Hnl. apply andb_true_iff in Hnl as [Hb Hnl].
    apply negb_true_iff in Hb. cbn [app scanFrom]. rewrite Hb.
    destruct (Z.leb_spec MaxScanTokenSize (Z.of_nat (length line) + 1)) as [_|Hfit];
      [reflexivity|].
    apply IH; [exact Hnl| |]; rewrite length_app; cbn [length] in *; lia.
Qed.

(** What comes after such a line is never read. *)
Lemma scanFrom_cut : forall (p line long rest : gostring),
  forallb (fun b => negb (Byte.eqb b newline)) long = true ->
  MaxScanTokenSize <= Z.of_nat (length long) ->
  scanFrom line ((p ++ [newline]) ++ long ++ rest) = scanFrom line (p ++ [newline]).
Proof.
  induction p as [|b p IH]; intros line long rest Hnl Hlong.
  - cbn [app scanFrom]. change (Byte.eqb newline newline) with true. cbv iota.
    rewrite (scanFrom_long long [] rest Hnl); [reflexivity| |];
      cbn [length]; unfold MaxScanTokenSize in *; lia.
  - cbn [app scanFrom]. destruct (Byte.eqb b newline).
    + f_equal. apply IH; assumption.
    + destruct (MaxScanTokenSize <=? Z.of_nat (length line) + 1); [reflexivity|].
      apply IH; assumption.
Qed.

End ScanFacts.

(** X22. ChunkDocument does not look at the error of the scanner: a line
    of 65536 bytes or more ends the scan without notice. The chunks of a
    document with such a line after complete lines are those of the
    document cut before that line, so that nothing from that line on is
    in any chunk; unless the part before gives no chunk of its own, in
    which case the single chunk holds the whole trimmed document. *)
Theorem ChunkDocument_long_line :
  forall (path p long rest : gostring),
    forallb (fun b => negb (Byte.eqb b Go.newline)) long = true ->
    Go.MaxScanTokenSize <= Z.of_nat (length long) ->
    Go.scanLines ((p ++ [Go.newline]) ++ long ++ rest) = Go.scanLines (p ++ [Go.newline]) /\
    (Loader.ChunkDocument path ((p ++ [Go.newline]) ++ long ++ rest)
       = Loader.ChunkDocument path (p ++ [Go.newline]) \/
     Loader.ChunkDocument path ((p ++ [Go.newline]) ++ long ++ rest)
       = [{| Chunk.Path := path;
             Chunk.Content := Go.TrimSpace ((p ++ [Go.newline]) ++ long ++ rest);
             Chunk.Heading := []; Chunk.Offset := 0 |}]).
Proof.
  intros path p long rest Hnl Hlong.
  assert (Hscan : Go.scanLines ((p ++ [Go.newline]) ++ long ++ rest)
                  = Go.scanLines (p ++ [Go.newline]))
    by (apply ScanFacts.scanFrom_cut; assumption).
  split; [exact Hscan|].
  destruct (LoaderInvFacts.ChunkDocument_cases path ((p ++ [Go.newline]) ++ long ++ rest))
    as [E|[_ E]]; [|right; exact E].
  destruct (LoaderInvFacts.ChunkDocument_cases path (p ++ [Go.newline]))
    as [E'|[Hnil E']].
  - left. rewrite E, E', Hscan. reflexivity.
  - exfalso. apply (LoaderFacts.ChunkDocument_nonempty path
                      ((p ++ [Go.newline]) ++ long ++ rest)).
    rewrite E, Hscan. exact Hnil.
Qed.

Lemma ChunkDocument_long_line_witness :
  Go.scanLines ((removelast docAB ++ [Go.newline]) ++ longLine ++ docTail)
    = Go.scanLines (removelast docAB ++ [Go.newline]) /\
  (Loader.ChunkDocument (bytes "t.md")
     ((removelast docAB ++ [Go.newline]) ++ longLine ++ docTail)
     = Loader.ChunkDocument (bytes "t.md") (removelast docAB ++ [Go.newline]) \/
   Loader.ChunkDocument (bytes "t.md")
     ((removelast docAB ++ [Go.newline]) ++ longLine ++ docTail)
     = [{| Chunk.Path := bytes "t.md";
           Chunk.Content :=
             Go.TrimSpace ((removelast docAB ++ [Go.newline]) ++ longLine ++ docTail);
           Chunk.Heading := []; Chunk.Offset := 0 |}]).
Proof.
  apply (ChunkDocument_long_line (bytes "t.md") (removelast docAB) longLine docTail).
  - vm_compute. reflexivity.
  - vm_compute. discriminate.
Defined.

(* ===================================================================== *)
(** * Checkpoints of another model *)
(* ===================================================================== *)

(** X23. A checkpoint written with another model is not resumed: when
    the model information of the checkpoint found is that of an embedder
    for a different model, the run starts from a new checkpoint and has
    every chunk to process. *)
Theorem checkpoint_other_model :
  forall (existingCP : GenerateEmbeddings.checkpoint) (chunks : list Chunk.t)
         (emb other : OpenAI.OpenAIEmbedder),
    GenerateEmbeddings.ModelInfo existingCP = OpenAI.ModelInfo other ->
    OpenAI.model other <> OpenAI.model emb ->
    GenerateEmbeddings.selectCheckpoint (GenerateEmbeddings.Existing existingCP)
      chunks emb = GenerateEmbeddings.newCheckpoint chunks emb /\
    GenerateEmbeddings.toProcess chunks
      (GenerateEmbeddings.selectCheckpoint (GenerateEmbeddings.Existing existingCP)
         chunks emb) = seq 0 (length chunks).
Proof.
  intros existingCP chunks emb other Hinfo Hmodel.
  assert (Hsel : GenerateEmbeddings.selectCheckpoint
                   (GenerateEmbeddings.Existing existingCP) chunks emb
                 = GenerateEmbeddings.newCheckpoint chunks emb).
  { unfold GenerateEmbeddings.selectCheckpoint, GenerateEmbeddings.mismatch.
    destruct (eqString (GenerateEmbeddings.ModelInfo existingCP) (OpenAI.ModelInfo emb))
      eqn:E.
    - apply eqString_eq in E. rewrite Hinfo in E. unfold OpenAI.ModelInfo in E.
      apply app_inv_head in E. contradiction.
    - rewrite orb_true_r. reflexivity. }
  split; [exact Hsel|]. rewrite Hsel.
  destruct (PipelineFacts.selectCheckpoint_cases GenerateEmbeddings.NoCheckpoint
              chunks emb) as [(c & Hc & _)|[_ H]]; [discriminate Hc|exact H].
Qed.

Lemma checkpoint_other_model_witness :
  GenerateEmbeddings.selectCheckpoint (GenerateEmbeddings.Existing cpPartial)
    chunks3 serviceLarge = GenerateEmbeddings.newCheckpoint chunks3 serviceLarge /\
  GenerateEmbeddings.toProcess chunks3
    (GenerateEmbeddings.selectCheckpoint (GenerateEmbeddings.Existing cpPartial)
       chunks3 serviceLarge) = seq 0 (length chunks3).
Proof.
  apply (checkpoint_other_model cpPartial chunks3 serviceLarge service34).
  - reflexivity.
  - discriminate.
Defined.

(* ===================================================================== *)
(** * Exact arithmetic: normalization and scaling *)
(* ===================================================================== *)

Module ExactFacts.




End ExactFacts.




(* ===================================================================== *)
(** * Chunk offsets are positions in the document *)
(* ===================================================================== *)

Module OffsetFacts.
Import Go Loader LoaderInv.

Lemma offset_from : forall (pre : list gostring) (o : Z),
  fold_left (fun o line => o + Z.of_nat (length line) + 1) pre o = o + offsetAfter pre.
Proof.
  unfold offsetAfter. induction pre as [|l pre IH]; intros o; cbn [fold_left]; [lia|].
  rewrite IH, (IH (0 + Z.of_nat (length l) + 1)). lia.
Qed.

Lemma offsetAfter_cons : forall (l : gostring) (pre : list gostring),
  offsetAfter (l :: pre) = Z.of_nat (length l) + 1 + offsetAfter pre.
Proof.
  intros l pre. unfold offsetAfter at 1. cbn [fold_left]. rewrite offset_from. lia.
Qed.

Lemma offsetAfter_nonneg : forall pre : list gostring, 0 <= offsetAfter pre.
Proof.
  induction pre as [|l pre IH]; [unfold offsetAfter; cbn; lia|].
  rewrite offsetAfter_cons. lia.
Qed.

(** Without a '\r' before a '\n', each line that the scanner delivers
    stands in the input at the position that the lines before it, each
    counted with one byte more, add up to. *)
Lemma scan_positions : forall (rest line : gostring) (pre : list gostring)
    (l : gostring) (post : list gostring),
  noCRLF (line ++ rest) = true ->
  scanFrom line rest = pre ++ l :: post ->
  exists tail, drop (Z.to_nat (offsetAfter pre)) (line ++ rest) = l ++ tail.
Proof.
  induction rest as [|b rest IH]; intros line pre l post Hcr Hscan.
  - cbn [scanFrom] in Hscan. destruct line as [|b0 line0].
    + destruct pre; discriminate Hscan.
    + destruct pre as [|p pre]; [|destruct pre; discriminate Hscan].
      injection Hscan as <- _. rewrite app_nil_r. cbn [offsetAfter fold_left Z.to_nat drop].
      destruct (GoFacts.dropCR_cases (b0 :: line0)) as [->|E].
      * exists []. rewrite app_nil_r. reflexivity.
      * exists [carriageReturn]. exact E.
  - cbn [scanFrom] in Hscan. destruct (Byte.eqb b newline) eqn:Eb.
    + apply Byte.byte_dec_bl in Eb. subst b.
      rewrite (GoFacts.dropCR_before_newline line rest Hcr) in Hscan.
      destruct pre as [|p pre].
      * injection Hscan as <- _. cbn [offsetAfter fold_left Z.to_nat drop]. eauto.
      * injection Hscan as <- Hscan.
        destruct (IH [] pre l post) as [tail Ht].
        -- cbn [app]. apply (GoFacts.noCRLF_app_r (line ++ [newline])).
           rewrite <- app_assoc. exact Hcr.
        -- exact Hscan.
        -- exists tail. rewrite offsetAfter_cons.
           pose proof (offsetAfter_nonneg pre) as Hpos.
           replace (Z.to_nat (Z.of_nat (length line) + 1 + offsetAfter pre))
             with (length (line ++ [newline]) + Z.to_nat (offsetAfter pre))%nat
             by (rewrite length_app; cbn [length]; lia).
           replace (line ++ newline :: rest) with ((line ++ [newline]) ++ rest)
             by (rewrite <- app_assoc; reflexivity).
           rewrite drop_app_add. exact Ht.
    + destruct (MaxScanTokenSize <=? Z.of_nat (length line) + 1).
      * destruct pre; discriminate Hscan.
      * destruct (IH (line ++ [b]) pre l post) as [tail Ht].
        -- rewrite <- app_assoc. exact Hcr.
        -- exact Hscan.
        -- exists tail. rewrite <- Ht, <- app_assoc. reflexivity.
Qed.

Lemma placed_more : forall seen line heading offset,
  placed seen heading offset -> placed (seen ++ [line]) heading offset.
Proof.
  intros seen line heading offset [H|(pre & h & post & -> & Hh & E & Eo)]; [left; exact H|].
  right. exists pre, h, (post ++ [line]). rewrite <- app_assoc. auto.
Qed.

(** Every section of the loop is placed. *)
Lemma run_placed : forall (path : gostring) (seen : list gostring),
  placed seen (currentHeading (run path initial seen))
    (currentOffset (run path initial seen)) /\
  Forall (fun c => placed seen (Chunk.Heading c) (Chunk.Offset c))
    (chunks (run path initial seen)).
Proof.
  intros path seen. induction seen as [|line seen IH] using rev_ind.
  - cbn. split; [left; auto|constructor].
  - rewrite LoaderFacts.run_app. cbn [run fold_left].
    set (st := run path initial seen) in *. destruct IH as [Hcur Hchunks].
    assert (Hold : Forall (fun c => placed (seen ++ [line]) (Chunk.Heading c) (Chunk.Offset c))
                     (chunks st)).
    { eapply List.Forall_impl; [|exact Hchunks]. intros c. apply placed_more. }
    destruct (HasPrefixHash line) eqn:E.
    + rewrite (LoaderInvFacts.scanStep_heading path st line E).
      cbn [chunks currentHeading currentOffset]. split.
      * right. exists seen, line, []. repeat split; [exact E|].
        unfold st. apply LoaderFacts.offsetAfter_run.
      * rewrite LoaderInvFacts.flushChunk_chunks.
        destruct (currentContent st); [exact Hold|].
        apply List.Forall_app. split; [exact Hold|]. constructor; [|constructor].
        cbn [Chunk.Heading Chunk.Offset]. apply placed_more. exact Hcur.
    + rewrite (LoaderInvFacts.scanStep_text path st line E).
      cbn [chunks currentHeading currentOffset]. split; [|exact Hold].
      apply placed_more. exact Hcur.
Qed.

End OffsetFacts.

(** X26. In a document without a carriage return directly before a
    newline, the Offset of a chunk is the byte position of its heading
    line: every chunk of ChunkDocument either belongs to the text before
    the first heading (empty Heading, Offset 0), or has the heading text
    of a heading line that stands in the document exactly at the chunk's
    Offset. (With "\r\n" line ends the scanner drops the '\r' and the
    count falls behind.) *)
Theorem ChunkDocument_offset_position :
  forall (path content : gostring) (c : Chunk.t),
    Go.noCRLF content = true ->
    In c (Loader.ChunkDocument path content) ->
    (Chunk.Heading c = [] /\ Chunk.Offset c = 0) \/
    exists h tail,
      Loader.isHeading h /\
      Chunk.Heading c = Go.TrimSpace (Go.TrimLeftHash h) /\
      drop (Z.to_nat (Chunk.Offset c)) content = h ++ tail.
Proof.
  intros path content c Hcr Hin.
  destruct (LoaderInvFacts.ChunkDocument_cases path content) as [E|[_ E]];
    rewrite E in Hin.
  2:{ destruct Hin as [<-|[]]. left. auto. }
  destruct (OffsetFacts.run_placed path (Go.scanLines content)) as [Hcur Hchunks].
  assert (Hplaced : LoaderInv.placed (Go.scanLines content)
                      (Chunk.Heading c) (Chunk.Offset c)).
  { rewrite LoaderInvFacts.flushChunk_chunks in Hin.
    rewrite List.Forall_forall in Hchunks.
    destruct (Loader.currentContent _); [apply Hchunks; exact Hin|].
    apply in_app_or in Hin as [Hin|[<-|[]]]; [apply Hchunks; exact Hin|exact Hcur]. }
  destruct Hplaced as [H|(pre & h & post & Hseen & Hh & Eh & Eo)]; [left; exact H|].
  right. destruct (OffsetFacts.scan_positions content [] pre h post Hcr Hseen) as [tail Ht].
  exists h, tail. rewrite Eo. auto.
Qed.

Lemma ChunkDocument_offset_position_witness :
  (Chunk.Heading {| Chunk.Path := bytes "t.md"; Chunk.Content := bytes "bar";
                    Chunk.Heading := bytes "B"; Chunk.Offset := 9 |} = [] /\
   Chunk.Offset {| Chunk.Path := bytes "t.md"; Chunk.Content := bytes "bar";
                   Chunk.Heading := bytes "B"; Chunk.Offset := 9 |} = 0) \/
  exists h tail,
    Loader.isHeading h /\
    Chunk.Heading {| Chunk.Path := bytes "t.md"; Chunk.Content := bytes "bar";
                     Chunk.Heading := bytes "B"; Chunk.Offset := 9 |}
      = Go.TrimSpace (Go.TrimLeftHash h) /\
    drop (Z.to_nat (Chunk.Offset {| Chunk.Path := bytes "t.md"; Chunk.Content := bytes "bar";
                                    Chunk.Heading := bytes "B"; Chunk.Offset := 9 |}))
      docAB = h ++ tail.
Proof.
  apply (ChunkDocument_offset_position (bytes "t.md") docAB
           {| Chunk.Path := bytes "t.md"; Chunk.Content := bytes "bar";
              Chunk.Heading := bytes "B"; Chunk.Offset := 9 |}).
  - reflexivity.
  - vm_compute. right. left. reflexivity.
Defined.

(* ===================================================================== *)
(** * cmd/generate-embeddings: what the checkpoint file lacks *)
(* ===================================================================== *)

Module SaveFacts.
Import GenerateEmbeddings.

Section Recording.
Variable emb : OpenAI.OpenAIEmbedder.
Variable chunks : list Chunk.t.

(** The indices completed since the checkpoint was last saved are as many
    as [saveCounter] counts, and fewer than 50. *)
Lemma record_unsaved : forall (i : nat) (r : result (list Binary32.float32))
    (s : shared) (unsaved : list nat),
  Z.of_nat (length unsaved) = saveCounter s -> saveCounter s < 50 ->
  (forall j, isCompleted (cp s) j = true ->
     (exists c, saved s = Some c /\ isCompleted c j = true) \/ In j unsaved) ->
  exists unsaved',
    Z.of_nat (length unsaved') = saveCounter (record chunks i r s) /\
    saveCounter (record chunks i r s) < 50 /\
    (forall j, isCompleted (cp (record chunks i r s)) j = true ->
       (exists c, saved (record chunks i r s) = Some c /\ isCompleted c j = true) \/
       In j unsaved').
Proof.
  intros i r s unsaved Hcount Hlt Hcov. unfold record.
  destruct r as [v|m]; [|exists unsaved; cbn [cp saveCounter saved]; auto].
  destruct (i <? length (Embeddings (cp s)))%nat;
    [|exists unsaved; cbn [cp saveCounter saved]; auto].
  cbn [cp saveCounter saved].
  destruct (Z.leb_spec 50 (saveCounter s + 1)) as [Hsave|Hkeep].
  - exists []. cbn [length]. split; [reflexivity|]. split; [lia|].
    intros j Hj. left. eexists. split; [reflexivity|exact Hj].
  - exists (i :: unsaved). cbn [length]. split; [lia|]. split; [lia|].
    intros j Hj. unfold isCompleted in Hj. cbn [Completed] in Hj.
    destruct (Nat.eq_dec j i) as [->|Hne]; [right; left; reflexivity|].
    rewrite lookup_insert_ne in Hj by lia.
    destruct (Hcov j Hj) as [H|H]; [left; exact H|right; right; exact H].
Qed.

Lemma fold_unsaved : forall (order : list nat) (s : shared) (unsaved : list nat),
  Z.of_nat (length unsaved) = saveCounter s -> saveCounter s < 50 ->
  (forall j, isCompleted (cp s) j = true ->
     (exists c, saved s = Some c /\ isCompleted c j = true) \/ In j unsaved) ->
  let s' := fold_left (fun s i => record chunks i (call emb chunks i) s) order s in
  exists unsaved',
    Z.of_nat (length unsaved') = saveCounter s' /\ saveCounter s' < 50 /\
    (forall j, isCompleted (cp s') j = true ->
       (exists c, saved s' = Some c /\ isCompleted c j = true) \/ In j unsaved').
Proof.
  induction order as [|i order IH]; intros s unsaved Hcount Hlt Hcov; cbn zeta;
    cbn [fold_left].
  - exists unsaved. auto.
  - destruct (record_unsaved i (call emb chunks i) s unsaved Hcount Hlt Hcov)
      as (unsaved1 & H1 & H2 & H3).
    exact (IH _ unsaved1 H1 H2 H3).
Qed.

End Recording.
End SaveFacts.

(** X27. At every point of a run of cmd/generate-embeddings, whatever
    the schedule, fewer than 50 of the chunks marked as completed in
    memory are missing from the checkpoint file: the goroutines save the
    checkpoint at every 50th result (writing the file is taken to
    succeed; the interrupt handler is not part of the model). *)
Theorem checkpoint_lag :
  forall (found : GenerateEmbeddings.loaded) (chunks : list Chunk.t)
         (emb : OpenAI.OpenAIEmbedder) (schedule : list Pool.event)
         (st : Pool.state GenerateEmbeddings.shared (result (list Binary32.float32))),
    let cp0 := GenerateEmbeddings.selectCheckpoint found chunks emb in
    Pool.exec (GenerateEmbeddings.toProcess chunks cp0)
      (GenerateEmbeddings.call emb chunks) (GenerateEmbeddings.record chunks) schedule
      (Pool.init (GenerateEmbeddings.toProcess chunks cp0)
         (GenerateEmbeddings.start chunks cp0
            (match found with GenerateEmbeddings.Existing c => Some c | _ => None end)))
    = Some st ->
    exists unsaved : list nat,
      (length unsaved < 50)%nat /\
      forall j,
        GenerateEmbeddings.isCompleted (GenerateEmbeddings.cp (Pool.shared st)) j = true ->
        (exists c, GenerateEmbeddings.saved (Pool.shared st) = Some c /\
                   GenerateEmbeddings.isCompleted c j = true) \/
        In j unsaved.
Proof.
  intros found chunks emb schedule st cp0 Hexec.
  set (work := GenerateEmbeddings.toProcess chunks cp0) in *.
  set (s0 := GenerateEmbeddings.start chunks cp0 _) in *.
  destruct (TraceFacts.traced_exec work (GenerateEmbeddings.call emb chunks)
              (GenerateEmbeddings.record chunks)
              (PipelineFacts.toProcess_NoDup chunks cp0) s0 schedule _ st
              (PoolFacts.invariant_init work _)
              (TraceFacts.traced_init work _ _ _) Hexec)
    as (_ & _ & _ & _ & _ & Hshared).
  destruct (SaveFacts.fold_unsaved emb chunks (Pool.recorded st) s0 []) as (u & H1 & H2 & H3).
  - reflexivity.
  - cbn. lia.
  - intros j Hj. left. cbn [s0 GenerateEmbeddings.start GenerateEmbeddings.cp
                            GenerateEmbeddings.saved] in *.
    unfold cp0 in *.
    destruct found as [| |c]; cbn [GenerateEmbeddings.selectCheckpoint] in Hj;
      try (unfold GenerateEmbeddings.isCompleted in Hj;
           cbn [GenerateEmbeddings.newCheckpoint GenerateEmbeddings.Completed] in Hj;
           rewrite lookup_empty in Hj; discriminate Hj).
    exists c. split; [reflexivity|].
    destruct (GenerateEmbeddings.mismatch c chunks emb); [|exact Hj].
    unfold GenerateEmbeddings.isCompleted in Hj.
    cbn [GenerateEmbeddings.newCheckpoint GenerateEmbeddings.Completed] in Hj.
    rewrite lookup_empty in Hj. discriminate Hj.
  - cbn zeta in H1, H2, H3. rewrite <- Hshared in H1, H2, H3.
    exists u. split; [lia|exact H3].
Qed.

Lemma checkpoint_lag_witness :
  exists unsaved : list nat,
    (length unsaved < 50)%nat /\
    forall j,
      GenerateEmbeddings.isCompleted (GenerateEmbeddings.cp (Pool.shared midRun)) j = true ->
      (exists c, GenerateEmbeddings.saved (Pool.shared midRun) = Some c /\
                 GenerateEmbeddings.isCompleted c j = true) \/
      In j unsaved.
Proof.
  apply (checkpoint_lag (GenerateEmbeddings.Existing cpPartial) chunks3 service34
           [Pool.Dispatch; Pool.Dispatch; Pool.Call 0; Pool.Call 1] midRun).
  reflexivity.
Defined.

